(** * LookML support: formatter, fallback parser and lint rules

    A shallow embedding of the formatting and linting core of the LookML
    extension ([src/formatter.ts], [src/linter/parser.ts],
    [src/linter/rules.ts], [src/linter/diagnostics.ts]) together with the
    properties its specification states about it.

    JavaScript strings are modelled as lists of code units; the code units
    are those of [ascii], i.e. the range 0..255 (Latin-1).  Regular
    expressions of the source are written as values of [Regex.regex] and
    run by a backtracking matcher that follows the ECMAScript matching
    order (ordered alternation, greedy and lazy quantifiers, lookahead). *)

From Stdlib Require Import Strings.String Strings.Ascii.
From Stdlib Require Import List Bool Arith NArith Lia Permutation.
Import ListNotations.

Local Open Scope string_scope.
Local Open Scope list_scope.
Local Open Scope nat_scope.

(** A JavaScript string value. String literals are read through the
    coercion below. *)
Definition str : Type := list ascii.

Coercion list_ascii_of_string : string >-> list.

(** A list of string literals. *)
Definition strs (l : list string) : list str := map list_ascii_of_string l.

(* ================================================================== *)
(** ** String primitives of the JavaScript runtime *)
(* ================================================================== *)

Module Js.

Definition ch (n : nat) : ascii := ascii_of_nat n.

Definition nl : ascii := ch 10.
Definition cr : ascii := ch 13.
Definition tab : ascii := ch 9.
Definition dq : ascii := ch 34.

Definition code (c : ascii) : nat := nat_of_ascii c.

Definition between (lo hi : nat) (c : ascii) : bool :=
  (lo <=? code c) && (code c <=? hi).

(** [\s] and the characters removed by [trim]: TAB, LF, VT, FF, CR,
    SPACE and NBSP are the white space and line terminators below 256. *)
Definition isSpace (c : ascii) : bool :=
  between 9 13 c || (code c =? 32) || (code c =? 160).

Definition isDigit (c : ascii) : bool := between 48 57 c.
Definition isUpper (c : ascii) : bool := between 65 90 c.
Definition isLower (c : ascii) : bool := between 97 122 c.

(** [\w], which is also the class [[a-zA-Z0-9_]]. *)
Definition isWord (c : ascii) : bool :=
  isLower c || isUpper c || isDigit c || (code c =? 95).

(** [.] matches everything but line terminators. *)
Definition isDot (c : ascii) : bool :=
  negb ((code c =? 10) || (code c =? 13)).

Definition upper (c : ascii) : ascii :=
  if isLower c then ch (code c - 32) else c.

Definition lower (c : ascii) : ascii :=
  if isUpper c then ch (code c + 32) else c.

Definition toUpperCase (s : str) : str := map upper s.
Definition toLowerCase (s : str) : str := map lower s.

Definition ceq (a b : ascii) : bool := Ascii.eqb a b.

Fixpoint seq_eqb (a b : str) : bool :=
  match a, b with
  | [], [] => true
  | x :: a', y :: b' => ceq x y && seq_eqb a' b'
  | _, _ => false
  end.

Fixpoint startsWith (s p : str) : bool :=
  match p, s with
  | [], _ => true
  | x :: p', y :: s' => ceq x y && startsWith s' p'
  | _ :: _, [] => false
  end.

Definition endsWith (s p : str) : bool := startsWith (rev s) (rev p).

Fixpoint includes (s p : str) : bool :=
  startsWith s p ||
  match s with
  | [] => false
  | _ :: s' => includes s' p
  end.

(** [s.indexOf(p)]; [None] stands for -1. *)
Fixpoint indexOf (s p : str) : option nat :=
  if startsWith s p then Some 0
  else match s with
       | [] => None
       | _ :: s' => option_map S (indexOf s' p)
       end.

Fixpoint trimStart (s : str) : str :=
  match s with
  | c :: s' => if isSpace c then trimStart s' else s
  | [] => []
  end.

Definition trimEnd (s : str) : str := rev (trimStart (rev s)).

Definition trim (s : str) : str := trimEnd (trimStart s).

(** [s.substring(a, b)] for [a <= b]. *)
Definition substring (a b : nat) (s : str) : str := firstn (b - a) (skipn a s).

(** [s.substring(a)]. *)
Definition substringFrom (a : nat) (s : str) : str := skipn a s.

(** [s.slice(0, -n)]. *)
Definition dropEnd (n : nat) (s : str) : str := firstn (length s - n) s.

(** [unit.repeat(n)]. *)
Fixpoint repeat (unit : str) (n : nat) : str :=
  match n with
  | 0 => []
  | S n' => unit ++ repeat unit n'
  end.

(** [parts.join(sep)]. *)
Fixpoint join (sep : str) (parts : list str) : str :=
  match parts with
  | [] => []
  | [p] => p
  | p :: rest => p ++ sep ++ join sep rest
  end.

(** [s.split(sep)] for a separator of two equal characters [c] (the
    source only splits on the terminator [;;]).  [cur] is the piece being
    read, reversed. *)
Fixpoint split2 (c : ascii) (cur : str) (s : str) : list str :=
  match s with
  | [] => [rev cur]
  | x :: s' =>
      match s' with
      | y :: s'' =>
          if ceq x c && ceq y c then rev cur :: split2 c [] s''
          else split2 c (x :: cur) s'
      | [] => [rev (x :: cur)]
      end
  end.

End Js.

(* ================================================================== *)
(** ** Regular expressions *)
(* ================================================================== *)

Module Regex.

Import Js.

(** The regular expressions of the source, as syntax. [Chr] is a literal
    character, [Cls] a character class, [Rep g n r] is [r{n,}], greedy when
    [g] holds and lazy otherwise, [Grp i r] is the i-th capturing group,
    [Look r] the lookahead [(?=r)], [Bol] and [Eol] are [^] and [$] (no
    source pattern has the [m] flag) and [WordB] is [\b]. *)
Inductive regex : Type :=
| Eps
| Chr (c : ascii)
| Cls (p : ascii -> bool)
| Seq (r1 r2 : regex)
| Alt (r1 r2 : regex)
| Rep (greedy : bool) (min : nat) (r : regex)
| Grp (i : nat) (r : regex)
| Look (r : regex)
| Bol
| Eol
| WordB.

(** A position in the input: the characters before it (nearest first), the
    characters after it, its index, and the captures made so far. *)
Record mstate : Type := MState {
  m_prev : str;
  m_rest : str;
  m_pos : nat;
  m_caps : list (nat * str)
}.

Definition advance (x : ascii) (rest : str) (s : mstate) : mstate :=
  MState (x :: m_prev s) rest (S (m_pos s)) (m_caps s).

Definition set_cap (i : nat) (v : str) (s : mstate) : mstate :=
  MState (m_prev s) (m_rest s) (m_pos s) ((i, v) :: m_caps s).

Definition with_caps (caps : list (nat * str)) (s : mstate) : mstate :=
  MState (m_prev s) (m_rest s) (m_pos s) caps.

Fixpoint get_cap (i : nat) (caps : list (nat * str)) : option str :=
  match caps with
  | [] => None
  | (j, v) :: caps' => if i =? j then Some v else get_cap i caps'
  end.

(** Character comparison; with the [i] flag both sides are canonicalized
    (upper-cased), which below 256 only identifies the ASCII letters with
    their capitals as far as the ASCII literals of the source go. *)
Definition char_eq (icase : bool) (c x : ascii) : bool :=
  if icase then ceq (upper c) (upper x) else ceq c x.

Definition is_word_at (l : str) : bool :=
  match l with
  | c :: _ => isWord c
  | [] => false
  end.

Definition orelse {A : Type} (a b : option A) : option A :=
  match a with
  | Some x => Some x
  | None => b
  end.

(** The iterations of a quantifier whose body is matched by [body]:
    [need] iterations are still owed; after that an iteration that
    consumed nothing is given up, as the RepeatMatcher of the standard
    does.  The counter [n] bounds the number of iterations. *)
Fixpoint rep_loop (body : (mstate -> option mstate) -> mstate -> option mstate)
         (greedy : bool) (k : mstate -> option mstate)
         (n need : nat) (s0 : mstate) {struct n} : option mstate :=
  match n with
  | 0 => None
  | S n' =>
      match need with
      | S need' => body (rep_loop body greedy k n' need') s0
      | 0 =>
          let again :=
            body (fun s1 => if m_pos s1 =? m_pos s0 then None
                            else rep_loop body greedy k n' 0 s1) s0 in
          if greedy then orelse again (k s0) else orelse (k s0) again
      end
  end.

(** The backtracking matcher, in continuation-passing style: [rmatch ic r
    k s] tries the ways [r] can match at [s] in ECMAScript priority order
    and returns the first one the continuation [k] accepts.  The counter
    handed to [rep_loop] is large enough never to run out: every
    iteration beyond the owed ones consumes a character. *)
Fixpoint rmatch (icase : bool) (r : regex) (k : mstate -> option mstate)
         (s : mstate) {struct r} : option mstate :=
  match r with
  | Eps => k s
  | Chr c =>
      match m_rest s with
      | x :: rest => if char_eq icase c x then k (advance x rest s) else None
      | [] => None
      end
  | Cls p =>
      match m_rest s with
      | x :: rest => if p x then k (advance x rest s) else None
      | [] => None
      end
  | Seq r1 r2 => rmatch icase r1 (rmatch icase r2 k) s
  | Alt r1 r2 => orelse (rmatch icase r1 k s) (rmatch icase r2 k s)
  | Rep greedy min r1 =>
      rep_loop (rmatch icase r1) greedy k
        (S (min + length (m_rest s))) min s
  | Grp i r1 =>
      rmatch icase r1
        (fun s1 => k (set_cap i (firstn (m_pos s1 - m_pos s) (m_rest s)) s1)) s
  | Look r1 =>
      match rmatch icase r1 Some s with
      | Some s1 => k (with_caps (m_caps s1) s)
      | None => None
      end
  | Bol => match m_prev s with [] => k s | _ :: _ => None end
  | Eol => match m_rest s with [] => k s | _ :: _ => None end
  | WordB =>
      if xorb (is_word_at (m_prev s)) (is_word_at (m_rest s)) then k s
      else None
  end.

(** A successful match: where it starts and ends, the matched text and the
    captures. *)
Record rmatch_result : Type := RMatch {
  r_index : nat;
  r_end : nat;
  r_text : str;
  r_caps : list (nat * str)
}.

(** [match[i]] for a group that took part in the match. *)
Definition group (i : nat) (m : rmatch_result) : str :=
  match get_cap i (r_caps m) with
  | Some v => v
  | None => []
  end.

(** One attempt at the position [(prev, rest, pos)]. *)
Definition match_here (icase : bool) (r : regex) (prev rest : str) (pos : nat)
  : option rmatch_result :=
  match rmatch icase r Some (MState prev rest pos []) with
  | Some e => Some (RMatch pos (m_pos e) (firstn (m_pos e - pos) rest) (m_caps e))
  | None => None
  end.

(** The leftmost match at or after a position: every start is tried in
    turn, the end of input included. *)
Fixpoint search_from (icase : bool) (r : regex) (prev rest : str) (pos : nat)
  : option rmatch_result :=
  match match_here icase r prev rest pos with
  | Some m => Some m
  | None =>
      match rest with
      | [] => None
      | x :: rest' => search_from icase r (x :: prev) rest' (S pos)
      end
  end.

(** [r.test(s)] and [s.match(r)] for a regular expression without the [g]
    flag. *)
Definition search (icase : bool) (r : regex) (s : str) : option rmatch_result :=
  search_from icase r [] s 0.

Definition test (icase : bool) (r : regex) (s : str) : bool :=
  match search icase r s with Some _ => true | None => false end.

(** The text of a replacement: literal pieces and group references
    ([$1], [$2]). *)
Inductive rpiece : Type :=
| RLit (s : str)
| RGrp (i : nat).

Definition expand (tpl : list rpiece) (m : rmatch_result) : str :=
  flat_map (fun p => match p with RLit s => s | RGrp i => group i m end) tpl.

(** [s.replace(r, tpl)] without the [g] flag: the first match only. *)
Definition replace_first (icase : bool) (r : regex) (tpl : list rpiece) (s : str)
  : str :=
  match search icase r s with
  | Some m => firstn (r_index m) s ++ expand tpl m ++ skipn (r_end m) s
  | None => s
  end.

(** [s.replace(r, tpl)] with the [g] flag. [skip] counts the characters
    still covered by the last match; after an empty match the scan moves
    on by one character. *)
Fixpoint replace_loop (icase : bool) (r : regex) (tpl : list rpiece)
         (prev rest : str) (pos skip : nat) : str :=
  match skip with
  | S skip' =>
      match rest with
      | [] => []
      | x :: rest' => replace_loop icase r tpl (x :: prev) rest' (S pos) skip'
      end
  | 0 =>
      match match_here icase r prev rest pos with
      | Some m =>
          expand tpl m ++
          match rest with
          | [] => []
          | x :: rest' =>
              match r_end m - pos with
              | 0 => x :: replace_loop icase r tpl (x :: prev) rest' (S pos) 0
              | S d => replace_loop icase r tpl (x :: prev) rest' (S pos) d
              end
          end
      | None =>
          match rest with
          | [] => []
          | x :: rest' =>
              x :: replace_loop icase r tpl (x :: prev) rest' (S pos) 0
          end
      end
  end.

Definition replace_all (icase : bool) (r : regex) (tpl : list rpiece) (s : str)
  : str :=
  replace_loop icase r tpl [] s 0 0.

(** The successive matches a loop [while ((m = r.exec(s)) !== null)] sees
    for a regular expression with the [g] flag: each search starts at
    [lastIndex], the end of the previous match.  A match that leaves
    [lastIndex] where it was would be found again for ever; [None] stands
    for that divergence.  [n] bounds the number of matches. *)
Fixpoint exec_loop (icase : bool) (r : regex) (n : nat) (prev rest : str)
         (pos : nat) : option (list rmatch_result) :=
  match n with
  | 0 => None
  | S n' =>
      match search_from icase r prev rest pos with
      | None => Some []
      | Some m =>
          if r_end m =? pos then None
          else
            let d := r_end m - pos in
            option_map (cons m)
              (exec_loop icase r n' (rev (firstn d rest) ++ prev)
                 (skipn d rest) (r_end m))
      end
  end.

Definition exec_all (icase : bool) (r : regex) (s : str)
  : option (list rmatch_result) :=
  exec_loop icase r (S (length s)) [] s 0.

(** [s.match(r)] with the [g] flag: the texts of all matches ([[]] when
    there is none, where JavaScript has [null]). *)
Fixpoint match_all_loop (icase : bool) (r : regex) (prev rest : str)
         (pos skip : nat) : list str :=
  match skip with
  | S skip' =>
      match rest with
      | [] => []
      | x :: rest' => match_all_loop icase r (x :: prev) rest' (S pos) skip'
      end
  | 0 =>
      match match_here icase r prev rest pos with
      | Some m =>
          r_text m ::
          match rest with
          | [] => []
          | x :: rest' =>
              match_all_loop icase r (x :: prev) rest' (S pos)
                (pred (r_end m - pos))
          end
      | None =>
          match rest with
          | [] => []
          | x :: rest' => match_all_loop icase r (x :: prev) rest' (S pos) 0
          end
      end
  end.

Definition match_all (icase : bool) (r : regex) (s : str) : list str :=
  match_all_loop icase r [] s 0 0.

(** *** Notation for patterns *)

Fixpoint lit (s : str) : regex :=
  match s with
  | [] => Eps
  | [c] => Chr c
  | c :: s' => Seq (Chr c) (lit s')
  end.

Fixpoint seqs (rs : list regex) : regex :=
  match rs with
  | [] => Eps
  | [r] => r
  | r :: rs' => Seq r (seqs rs')
  end.

Fixpoint alts (rs : list regex) : regex :=
  match rs with
  | [] => Eps
  | [r] => r
  | r :: rs' => Alt r (alts rs')
  end.

Definition star (r : regex) : regex := Rep true 0 r.
Definition plus (r : regex) : regex := Rep true 1 r.
Definition lazy_star (r : regex) : regex := Rep false 0 r.
Definition opt (r : regex) : regex := Alt r Eps.

Definition ws : regex := Cls isSpace.                    (* \s *)
Definition any : regex := Cls (fun _ => true).            (* [\s\S] *)
Definition dot : regex := Cls isDot.                      (* . *)
Definition word : regex := Cls isWord.                    (* \w, [a-zA-Z0-9_] *)
Definition digit : regex := Cls isDigit.                  (* \d *)
Definition one_of (cs : str) : regex := Cls (fun x => existsb (ceq x) cs).
Definition none_of (cs : str) : regex :=
  Cls (fun x => negb (existsb (ceq x) cs)).

End Regex.

(* ================================================================== *)
(** ** The formatter ([src/formatter.ts]) *)
(* ================================================================== *)

Module Formatter.

Import Js Regex.

(** [vscode.FormattingOptions] and the two flags of the extension. *)
Record Config : Type := {
  indentSize : nat;
  useSpaces : bool;
  groupFieldsByType : bool;
  sortFields : bool
}.

Definition indentString (cfg : Config) : str :=
  if useSpaces cfg then Js.repeat " " (indentSize cfg) else [tab].

(** [this.indentString.repeat(n)]. *)
Definition ind (cfg : Config) (n : nat) : str := Js.repeat (indentString cfg) n.

(** An entry of the block stack. *)
Record StackEntry : Type := {
  s_type : str;
  s_indent : nat;
  s_name : str
}.

(** [LookMLBlock]: a field of a view. *)
Record LookMLBlock : Type := {
  b_type : str;
  b_name : str;
  b_startLine : nat;
  b_endLine : option nat;      (* [None] is the initial -1 *)
  b_content : list str;
  b_rawContent : list str;
  b_indent : nat;
  b_comments : list str;
  b_parentBlocks : list StackEntry
}.

(** [LookMLView]; ['f] is what the list of fields holds. *)
Record LookMLViewOf (F : Type) : Type := {
  v_name : str;
  v_startLine : nat;
  v_endLine : option nat;
  v_header : list str;
  v_footer : list str;
  v_fields : list F;
  v_nonFieldBlocks : list str
}.
Arguments v_name {F}. Arguments v_startLine {F}. Arguments v_endLine {F}.
Arguments v_header {F}. Arguments v_footer {F}. Arguments v_fields {F}.
Arguments v_nonFieldBlocks {F}.

Definition LookMLView : Type := LookMLViewOf LookMLBlock.

(** *** Patterns of the source *)

(* /:\s*\{\s*$/ *)
Definition re_block_open : regex :=
  seqs [Chr ":"; star ws; Chr "{"; star ws; Eol].

(* /^([a-zA-Z0-9_]+)\s*:\s*([a-zA-Z0-9_]+)/ *)
Definition re_block_with_name : regex :=
  seqs [Bol; Grp 1 (plus word); star ws; Chr ":"; star ws; Grp 2 (plus word)].

(* /^([a-zA-Z0-9_]+)\s*:\s*\{/ *)
Definition re_block_no_name : regex :=
  seqs [Bol; Grp 1 (plus word); star ws; Chr ":"; star ws; Chr "{"].

(* /^([a-zA-Z0-9_]+)\s*:/ *)
Definition re_block_type : regex :=
  seqs [Bol; Grp 1 (plus word); star ws; Chr ":"].

(* (sql|sql_on|sql_where|sql_always_where|sql_trigger_value|html) *)
Definition sql_props (with_html : bool) : regex :=
  alts ([lit "sql"; lit "sql_on"; lit "sql_where"; lit "sql_always_where";
         lit "sql_trigger_value"] ++ (if with_html then [lit "html"] else [])).

(* /\b(sql|...|html)\s*:\s*$/ *)
Definition re_sql_open_eol (with_html : bool) : regex :=
  seqs [WordB; Grp 1 (sql_props with_html); star ws; Chr ":"; star ws; Eol].

(* /\b(sql|...|html)\s*:/ *)
Definition re_sql_open : regex :=
  seqs [WordB; Grp 1 (sql_props true); star ws; Chr ":"].

(* /\{/ *)
Definition re_brace : regex := Chr "{".

(* /\bhtml\s*:\s*$/ *)
Definition re_html_open : regex :=
  seqs [WordB; lit "html"; star ws; Chr ":"; star ws; Eol].

(* /color:(\w+)/g *)
Definition re_color : regex := seqs [lit "color:"; Grp 1 (plus word)].

(* /^#\s*-----\s*.*\s*-----\s*$/ *)
Definition re_generated_comment : regex :=
  seqs [Bol; Chr "#"; star ws; lit "-----"; star ws; star dot; star ws;
        lit "-----"; star ws; Eol].

(* /^\s*(SELECT|FROM|WHERE|GROUP\s+BY|ORDER\s+BY|HAVING|LIMIT|JOIN|UNION)/i *)
Definition main_keywords_view : list regex :=
  [lit "SELECT"; lit "FROM"; lit "WHERE";
   seqs [lit "GROUP"; plus ws; lit "BY"];
   seqs [lit "ORDER"; plus ws; lit "BY"];
   lit "HAVING"; lit "LIMIT"; lit "JOIN"; lit "UNION"].

Definition re_main_keyword_view : regex :=
  seqs [Bol; star ws; Grp 1 (alts main_keywords_view)].

(* the same with |LEFT JOIN|RIGHT JOIN|INNER JOIN|FULL JOIN|OUTER JOIN *)
Definition re_main_keyword : regex :=
  seqs [Bol; star ws;
        Grp 1 (alts (main_keywords_view ++
                     [lit "LEFT JOIN"; lit "RIGHT JOIN"; lit "INNER JOIN";
                      lit "FULL JOIN"; lit "OUTER JOIN"]))].

(* /([<>=!])([^=<>\s])/g *)
Definition re_op_after : regex :=
  Seq (Grp 1 (one_of "<>=!"))
      (Grp 2 (Cls (fun x => negb (existsb (ceq x) "=<>" || isSpace x)))).

(* /([^\s<>=!])([<>=!])/g *)
Definition re_op_before : regex :=
  Seq (Grp 1 (Cls (fun x => negb (isSpace x || existsb (ceq x) "<>=!"))))
      (Grp 2 (one_of "<>=!")).

(* /\s{2,}/g *)
Definition re_spaces : regex := Rep true 2 ws.

(* /\r?\n/ *)
Definition re_newline : regex := Seq (opt (Chr cr)) (Chr nl).

(** [text.split(/\r?\n/)]; [cur] is the line being read, reversed. *)
Fixpoint split_lines (cur : str) (s : str) : list str :=
  match s with
  | [] => [rev cur]
  | x :: s' =>
      if ceq x nl then rev cur :: split_lines [] s'
      else
        match s' with
        | y :: s'' =>
            if ceq x cr && ceq y nl then rev cur :: split_lines [] s''
            else split_lines (x :: cur) s'
        | [] => [rev (x :: cur)]
        end
  end.

(** *** Line-level formatting *)

(** [formatBlockOpener]. *)
Definition formatBlockOpener (line : str) : str :=
  match indexOf line ":" with
  | Some colonIndex =>
      let blockType := trim (substring 0 colonIndex line) in
      let blockDef := trim (substringFrom (colonIndex + 1) line) in
      blockType ++ ": " ++ blockDef
  | None => line
  end.

(** [isFieldType]. *)
Definition isFieldType (type : str) : bool :=
  seq_eqb type "dimension" || seq_eqb type "dimension_group" ||
  seq_eqb type "measure" || seq_eqb type "parameter" ||
  seq_eqb type "filter".

(** [isFormatterGeneratedComment]. *)
Definition isFormatterGeneratedComment (comment : str) : bool :=
  test false re_generated_comment comment.

(** [formatLookMLProperty]. *)
Definition formatLookMLProperty (line : str) : str :=
  match indexOf line ":" with
  | Some colonIndex =>
      let propName := trim (substring 0 colonIndex line) in
      let propValue := trim (substringFrom (colonIndex + 1) line) in
      let propValue :=
        if endsWith propValue ";;" then
          if negb (endsWith propValue " ;;")
          then trim (dropEnd 2 propValue) ++ " ;;"
          else propValue
        else propValue in
      propName ++ ": " ++ propValue
  | None => line
  end.

(** The keywords of [formatSqlKeywords], in the order of the source. *)
Definition sqlKeywords : list string :=
  ["SELECT"; "FROM"; "WHERE"; "GROUP BY"; "ORDER BY";
   "HAVING"; "JOIN"; "LEFT JOIN"; "RIGHT JOIN"; "INNER JOIN";
   "FULL JOIN"; "OUTER JOIN"; "ON"; "AND"; "OR"; "AS"; "WITH"; "UNION";
   "EXCEPT"; "INTERSECT"; "CASE"; "WHEN"; "THEN"; "ELSE"; "END"; "LIMIT";
   "OFFSET"; "COUNT"; "SUM"; "AVG"; "MIN"; "MAX"; "BETWEEN"; "IN";
   "EXISTS"; "DISTINCT"; "ALL"]%string.

(** [keyword.split(' ')]. *)
Fixpoint split_space (cur : str) (s : str) : list str :=
  match s with
  | [] => [rev cur]
  | x :: s' =>
      if ceq x " " then rev cur :: split_space [] s'
      else split_space (x :: cur) s'
  end.

(** The pattern built for one keyword: [\bK\b], or [\bK1\s+K2\b] for a
    keyword of two words. *)
Definition keyword_regex (keyword : str) : regex :=
  match split_space [] keyword with
  | p0 :: p1 :: _ => seqs [WordB; lit p0; plus ws; lit p1; WordB]
  | _ => seqs [WordB; lit keyword; WordB]
  end.

(** One step of the [forEach] over the keywords: the first match, if any,
    is replaced by [replacement]. *)
Definition replace_keyword (pattern : regex) (replacement : str)
           (formattedLine : str) : str :=
  if test true pattern formattedLine
  then replace_first true pattern [RLit replacement] formattedLine
  else formattedLine.

(** [formatSqlKeywords]. *)
Definition formatSqlKeywords (line : str) : str :=
  let formattedLine :=
    fold_left
      (fun acc (keyword : string) =>
         replace_keyword (keyword_regex keyword) keyword acc)
      sqlKeywords line in
  let formattedLine :=
    replace_all false re_op_after [RGrp 1; RLit " "; RGrp 2] formattedLine in
  let formattedLine :=
    replace_all false re_op_before [RGrp 1; RLit " "; RGrp 2] formattedLine in
  replace_all false re_spaces [RLit " "] formattedLine.

(** The keywords of [formatSqlWithLookMLVars]. *)
Definition lookmlVarKeywords : list string :=
  ["where"; "and"; "or"; "from"; "join"; "group by"; "order by";
   "having"]%string.

(** [formatSqlWithLookMLVars]. *)
Definition formatSqlWithLookMLVars (line : str) : str :=
  fold_left
    (fun acc (keyword : string) =>
       replace_keyword (keyword_regex keyword) (toUpperCase keyword) acc)
    lookmlVarKeywords line.

(** *** [parseViews]

    The loop of [parseViews] keeps a reference [currentField] to an object
    that also sits in the [fields] array of a view, and goes on writing
    through it.  The field objects therefore live in a store [p_fields],
    views hold indices into it, and [currentField] is such an index.
    [inView] holds exactly when [currentView] is not [null], so the state
    has [p_currentView] only. *)

Record PState : Type := {
  p_views : list (LookMLViewOf nat);
  p_currentView : option (LookMLViewOf nat);
  p_blockStack : list StackEntry;
  p_indentLevel : nat;
  p_currentField : option nat;
  p_fields : list LookMLBlock;
  p_pendingComments : list str;
  p_inSqlBlock : bool;
  p_sqlBlockIndent : nat;
  p_hasEncounteredFieldInView : bool
}.

Definition p_init : PState :=
  {| p_views := []; p_currentView := None; p_blockStack := [];
     p_indentLevel := 0; p_currentField := None; p_fields := [];
     p_pendingComments := []; p_inSqlBlock := false; p_sqlBlockIndent := 0;
     p_hasEncounteredFieldInView := false |}.

Definition set_currentView (v : option (LookMLViewOf nat)) (st : PState) :=
  {| p_views := p_views st; p_currentView := v;
     p_blockStack := p_blockStack st; p_indentLevel := p_indentLevel st;
     p_currentField := p_currentField st; p_fields := p_fields st;
     p_pendingComments := p_pendingComments st;
     p_inSqlBlock := p_inSqlBlock st; p_sqlBlockIndent := p_sqlBlockIndent st;
     p_hasEncounteredFieldInView := p_hasEncounteredFieldInView st |}.

Definition set_views (vs : list (LookMLViewOf nat)) (st : PState) :=
  {| p_views := vs; p_currentView := p_currentView st;
     p_blockStack := p_blockStack st; p_indentLevel := p_indentLevel st;
     p_currentField := p_currentField st; p_fields := p_fields st;
     p_pendingComments := p_pendingComments st;
     p_inSqlBlock := p_inSqlBlock st; p_sqlBlockIndent := p_sqlBlockIndent st;
     p_hasEncounteredFieldInView := p_hasEncounteredFieldInView st |}.

Definition set_blockStack (bs : list StackEntry) (st : PState) :=
  {| p_views := p_views st; p_currentView := p_currentView st;
     p_blockStack := bs; p_indentLevel := p_indentLevel st;
     p_currentField := p_currentField st; p_fields := p_fields st;
     p_pendingComments := p_pendingComments st;
     p_inSqlBlock := p_inSqlBlock st; p_sqlBlockIndent := p_sqlBlockIndent st;
     p_hasEncounteredFieldInView := p_hasEncounteredFieldInView st |}.

Definition set_indentLevel (n : nat) (st : PState) :=
  {| p_views := p_views st; p_currentView := p_currentView st;
     p_blockStack := p_blockStack st; p_indentLevel := n;
     p_currentField := p_currentField st; p_fields := p_fields st;
     p_pendingComments := p_pendingComments st;
     p_inSqlBlock := p_inSqlBlock st; p_sqlBlockIndent := p_sqlBlockIndent st;
     p_hasEncounteredFieldInView := p_hasEncounteredFieldInView st |}.

Definition set_currentField (f : option nat) (st : PState) :=
  {| p_views := p_views st; p_currentView := p_currentView st;
     p_blockStack := p_blockStack st; p_indentLevel := p_indentLevel st;
     p_currentField := f; p_fields := p_fields st;
     p_pendingComments := p_pendingComments st;
     p_inSqlBlock := p_inSqlBlock st; p_sqlBlockIndent := p_sqlBlockIndent st;
     p_hasEncounteredFieldInView := p_hasEncounteredFieldInView st |}.

Definition set_fields (fs : list LookMLBlock) (st : PState) :=
  {| p_views := p_views st; p_currentView := p_currentView st;
     p_blockStack := p_blockStack st; p_indentLevel := p_indentLevel st;
     p_currentField := p_currentField st; p_fields := fs;
     p_pendingComments := p_pendingComments st;
     p_inSqlBlock := p_inSqlBlock st; p_sqlBlockIndent := p_sqlBlockIndent st;
     p_hasEncounteredFieldInView := p_hasEncounteredFieldInView st |}.

Definition set_pendingComments (cs : list str) (st : PState) :=
  {| p_views := p_views st; p_currentView := p_currentView st;
     p_blockStack := p_blockStack st; p_indentLevel := p_indentLevel st;
     p_currentField := p_currentField st; p_fields := p_fields st;
     p_pendingComments := cs;
     p_inSqlBlock := p_inSqlBlock st; p_sqlBlockIndent := p_sqlBlockIndent st;
     p_hasEncounteredFieldInView := p_hasEncounteredFieldInView st |}.

Definition set_sql (inSql : bool) (sqlIndent : nat) (st : PState) :=
  {| p_views := p_views st; p_currentView := p_currentView st;
     p_blockStack := p_blockStack st; p_indentLevel := p_indentLevel st;
     p_currentField := p_currentField st; p_fields := p_fields st;
     p_pendingComments := p_pendingComments st;
     p_inSqlBlock := inSql; p_sqlBlockIndent := sqlIndent;
     p_hasEncounteredFieldInView := p_hasEncounteredFieldInView st |}.

Definition set_hasEncounteredFieldInView (b : bool) (st : PState) :=
  {| p_views := p_views st; p_currentView := p_currentView st;
     p_blockStack := p_blockStack st; p_indentLevel := p_indentLevel st;
     p_currentField := p_currentField st; p_fields := p_fields st;
     p_pendingComments := p_pendingComments st;
     p_inSqlBlock := p_inSqlBlock st; p_sqlBlockIndent := p_sqlBlockIndent st;
     p_hasEncounteredFieldInView := b |}.

(** [currentView.nonFieldBlocks.push(x)] *)
Definition push_nonField (x : str) (st : PState) : PState :=
  match p_currentView st with
  | Some v =>
      set_currentView
        (Some {| v_name := v_name v; v_startLine := v_startLine v;
                 v_endLine := v_endLine v; v_header := v_header v;
                 v_footer := v_footer v; v_fields := v_fields v;
                 v_nonFieldBlocks := v_nonFieldBlocks v ++ [x] |}) st
  | None => st
  end.

(** [currentView.fields.push(field)], the field being stored at [id]. *)
Definition push_field (id : nat) (st : PState) : PState :=
  match p_currentView st with
  | Some v =>
      set_currentView
        (Some {| v_name := v_name v; v_startLine := v_startLine v;
                 v_endLine := v_endLine v; v_header := v_header v;
                 v_footer := v_footer v; v_fields := v_fields v ++ [id];
                 v_nonFieldBlocks := v_nonFieldBlocks v |}) st
  | None => st
  end.

Fixpoint update_nth {A : Type} (n : nat) (f : A -> A) (l : list A) : list A :=
  match l, n with
  | [], _ => []
  | x :: l', 0 => f x :: l'
  | x :: l', S n' => x :: update_nth n' f l'
  end.

(** Writes through the reference [currentField]. *)
Definition field_push (id : nat) (comment : option str) (content raw : option str)
           (endLine : option nat) (st : PState) : PState :=
  set_fields
    (update_nth id
       (fun b =>
          {| b_type := b_type b; b_name := b_name b;
             b_startLine := b_startLine b;
             b_endLine := match endLine with Some e => Some e
                                           | None => b_endLine b end;
             b_content := b_content b ++
                          match content with Some c => [c] | None => [] end;
             b_rawContent := b_rawContent b ++
                             match raw with Some c => [c] | None => [] end;
             b_indent := b_indent b;
             b_comments := b_comments b ++
                           match comment with Some c => [c] | None => [] end;
             b_parentBlocks := b_parentBlocks b |})
       (p_fields st)) st.

Definition field_indent (id : nat) (st : PState) : nat :=
  match nth_error (p_fields st) id with
  | Some b => b_indent b
  | None => 0
  end.

Definition is_some {A : Type} (o : option A) : bool :=
  match o with Some _ => true | None => false end.

(** [blockStack.some(block => block.type === 'derived_table')] *)
Definition in_derived_table (stack : list StackEntry) : bool :=
  existsb (fun block => seq_eqb (s_type block) "derived_table") stack.

(** The test that opens a SQL or HTML segment. *)
Definition opens_sql (inSqlBlock : bool) (trimmedLine : str) : bool :=
  negb inSqlBlock &&
  (test false (re_sql_open_eol true) trimmedLine ||
   (test false re_sql_open trimmedLine &&
    negb (test false re_brace trimmedLine) && negb inSqlBlock)).

Definition is_block_start (trimmedLine : str) : bool :=
  test false re_block_open trimmedLine || endsWith trimmedLine "{".

Definition is_block_end (trimmedLine : str) : bool :=
  seq_eqb trimmedLine "}" || seq_eqb trimmedLine "} ;;".

(** The block type and name read off an opening line. *)
Definition block_type_and_name (trimmedLine : str) : str * str :=
  match search false re_block_with_name trimmedLine with
  | Some m => (group 1 m, group 2 m)
  | None =>
      match search false re_block_no_name trimmedLine with
      | Some m => (group 1 m, [])
      | None => ([], [])
      end
  end.

Section ParseViews.

Variable cfg : Config.

(** An empty line. *)
Definition parse_empty (line : str) (st : PState) : PState :=
  if is_some (p_currentView st) && negb (is_some (p_currentField st))
  then push_nonField line st
  else st.

(** A comment line. *)
Definition parse_comment (trimmedLine : str) (st : PState) : PState :=
  match p_currentField st with
  | Some id =>
      field_push id (Some trimmedLine)
        (Some (ind cfg (field_indent id st + 1) ++ trimmedLine)) None None st
  | None =>
      if is_some (p_currentView st) then
        if negb (p_hasEncounteredFieldInView st)
        then push_nonField trimmedLine st
        else set_pendingComments (p_pendingComments st ++ [trimmedLine]) st
      else st
  end.

(** A line that opens a block. *)
Definition parse_block_start (i : nat) (line trimmedLine : str) (st : PState)
  : PState :=
  let '(blockType, blockName) := block_type_and_name trimmedLine in
  let indentLevel := p_indentLevel st in
  let st :=
    set_blockStack
      (p_blockStack st ++
       [{| s_type := blockType; s_indent := indentLevel;
           s_name := blockName |}]) st in
  let st :=
    if seq_eqb blockType "view" && negb (is_some (p_currentView st)) then
      let st := set_hasEncounteredFieldInView false st in
      let st :=
        set_currentView
          (Some {| v_name := blockName; v_startLine := i; v_endLine := None;
                   v_header := [line]; v_footer := []; v_fields := [];
                   v_nonFieldBlocks := p_pendingComments st |}) st in
      set_pendingComments [] st
    else if is_some (p_currentView st) && isFieldType blockType then
      let st := set_hasEncounteredFieldInView true st in
      let formattedFieldLine := formatBlockOpener trimmedLine in
      let id := length (p_fields st) in
      let field :=
        {| b_type := blockType; b_name := blockName; b_startLine := i;
           b_endLine := None;
           b_content := [ind cfg indentLevel ++ formattedFieldLine];
           b_rawContent := [trimmedLine];
           b_indent := indentLevel;
           b_comments := p_pendingComments st;
           b_parentBlocks := p_blockStack st |} in
      let st := set_fields (p_fields st ++ [field]) st in
      let st := set_currentField (Some id) st in
      let st := push_field id st in
      set_pendingComments [] st
    else if is_some (p_currentView st) then
      let formattedLine := formatBlockOpener trimmedLine in
      match p_currentField st with
      | Some id =>
          field_push id None (Some (ind cfg indentLevel ++ formattedLine))
            (Some trimmedLine) None st
      | None => push_nonField (ind cfg indentLevel ++ formattedLine) st
      end
    else st in
  set_indentLevel (S indentLevel) st.

(** A line that closes a block. *)
Definition parse_block_end (i : nat) (line trimmedLine : str) (st : PState)
  : PState :=
  let indentLevel := Nat.max 0 (p_indentLevel st - 1) in
  let st := set_indentLevel indentLevel st in
  match rev (p_blockStack st) with
  | [] => st
  | lastBlock :: _ =>
      let st := set_blockStack (removelast (p_blockStack st)) st in
      let closing := Some (ind cfg indentLevel ++ trimmedLine) in
      match p_currentField st, p_currentView st with
      | Some id, _ =>
          if isFieldType (s_type lastBlock) then
            set_currentField None
              (field_push id None closing (Some trimmedLine) (Some i) st)
          else
            match p_currentView st with
            | Some v =>
                if seq_eqb (s_type lastBlock) "view" then
                  let v' :=
                    {| v_name := v_name v; v_startLine := v_startLine v;
                       v_endLine := Some i; v_header := v_header v;
                       v_footer := v_footer v ++ [line];
                       v_fields := v_fields v;
                       v_nonFieldBlocks := v_nonFieldBlocks v |} in
                  set_currentView None (set_views (p_views st ++ [v']) st)
                else field_push id None closing (Some trimmedLine) None st
            | None => st
            end
      | None, Some v =>
          if seq_eqb (s_type lastBlock) "view" then
            let v' :=
              {| v_name := v_name v; v_startLine := v_startLine v;
                 v_endLine := Some i; v_header := v_header v;
                 v_footer := v_footer v ++ [line];
                 v_fields := v_fields v;
                 v_nonFieldBlocks := v_nonFieldBlocks v |} in
            set_currentView None (set_views (p_views st ++ [v']) st)
          else push_nonField line st
      | None, None => st
      end
  end.

(** Any other line inside a view and outside a field. *)
Definition parse_view_content (line trimmedLine : str) (st : PState) : PState :=
  let indentLevel := p_indentLevel st in
  if opens_sql (p_inSqlBlock st) trimmedLine then
    let formattedProperty := formatLookMLProperty trimmedLine in
    set_sql true indentLevel
      (push_nonField (ind cfg indentLevel ++ formattedProperty) st)
  else if p_inSqlBlock st && endsWith trimmedLine ";;" then
    let parts := split2 ";" [] trimmedLine in
    let sqlBlockIndent := p_sqlBlockIndent st in
    let st :=
      if (1 <? length parts) && (0 <? length (trim (hd [] parts))) then
        let sqlContent := trim (hd [] parts) in
        let formattedSql := formatSqlKeywords sqlContent in
        let isDerivedTable := in_derived_table (p_blockStack st) in
        let effectiveIndent :=
          if isDerivedTable then
            if test true re_main_keyword_view formattedSql then 3 else 4
          else sqlBlockIndent + 1 in
        push_nonField (ind cfg effectiveIndent ++ formattedSql ++ " ;;") st
      else push_nonField (ind cfg sqlBlockIndent ++ ";;") st in
    set_sql false sqlBlockIndent st
  else if p_inSqlBlock st then
    let formattedLine := formatSqlKeywords trimmedLine in
    let isDerivedTable := in_derived_table (p_blockStack st) in
    let isMainSqlKeyword := test true re_main_keyword_view formattedLine in
    let sqlBlockIndent := p_sqlBlockIndent st in
    let effectiveIndent :=
      if isDerivedTable then (if isMainSqlKeyword then 3 else 4)
      else if negb isMainSqlKeyword then sqlBlockIndent + 2
      else sqlBlockIndent + 1 in
    push_nonField (ind cfg effectiveIndent ++ trimStart formattedLine) st
  else if includes trimmedLine ":" && negb (endsWith trimmedLine "{") then
    push_nonField (ind cfg indentLevel ++ formatLookMLProperty trimmedLine) st
  else push_nonField line st.

(** Any other line. *)
Definition parse_content (line trimmedLine : str) (st : PState) : PState :=
  if is_some (p_currentView st) then
    match p_currentField st with
    | Some id =>
        let formattedLine :=
          if includes trimmedLine ":" && negb (endsWith trimmedLine "{")
          then formatLookMLProperty trimmedLine
          else trimmedLine in
        field_push id None (Some (ind cfg (p_indentLevel st) ++ formattedLine))
          (Some trimmedLine) None st
    | None => parse_view_content line trimmedLine st
    end
  else st.

(** The body of the loop of [parseViews] for line [i]. *)
Definition parse_line (i : nat) (line : str) (st : PState) : PState :=
  let trimmedLine := trim line in
  if length trimmedLine =? 0 then parse_empty line st
  else if startsWith trimmedLine "#" then parse_comment trimmedLine st
  else if is_block_start trimmedLine then parse_block_start i line trimmedLine st
  else if is_block_end trimmedLine then parse_block_end i line trimmedLine st
  else parse_content line trimmedLine st.

Fixpoint parse_lines (i : nat) (lines : list str) (st : PState) : PState :=
  match lines with
  | [] => st
  | line :: rest => parse_lines (S i) rest (parse_line i line st)
  end.

(** The field objects a view refers to, as they are when the loop ends. *)
Definition resolve (fields : list LookMLBlock) (v : LookMLViewOf nat)
  : LookMLView :=
  {| v_name := v_name v; v_startLine := v_startLine v;
     v_endLine := v_endLine v; v_header := v_header v;
     v_footer := v_footer v;
     v_fields :=
       flat_map (fun id => match nth_error fields id with
                           | Some b => [b]
                           | None => []
                           end) (v_fields v);
     v_nonFieldBlocks := v_nonFieldBlocks v |}.

(** [parseViews]. *)
Definition parseViews (lines : list str) : list LookMLView :=
  let st := parse_lines 0 lines p_init in
  map (resolve (p_fields st)) (p_views st).

End ParseViews.

(** *** Emitting a view *)

Section Emit.

Variable cfg : Config.

(** [a.name.localeCompare(b.name)]: the collation of the JavaScript
    runtime is not part of the repository and is a parameter here. *)
Variable localeCompare : str -> str -> comparison.

(** [fields.sort((a, b) => a.name.localeCompare(b.name))]; the sort of
    the runtime is stable. *)
Fixpoint sort_insert (x : LookMLBlock) (l : list LookMLBlock)
  : list LookMLBlock :=
  match l with
  | [] => [x]
  | y :: l' =>
      match localeCompare (b_name x) (b_name y) with
      | Gt => y :: sort_insert x l'
      | _ => x :: y :: l'
      end
  end.

Fixpoint sort_by_name (l : list LookMLBlock) : list LookMLBlock :=
  match l with
  | [] => []
  | x :: l' => sort_insert x (sort_by_name l')
  end.

(** The state of the loop of [addFormattedFieldContent]. *)
Record EmitState : Type := {
  e_output : list str;
  e_nestedIndentLevel : nat;
  e_inSqlBlock : bool
}.

(** The body of that loop for one raw line of the field.  The nesting
    level never falls below [blockIndent], which is positive, so the
    decrement is exact. *)
Definition emit_line (field : LookMLBlock) (line : str) (st : EmitState)
  : EmitState :=
  let blockIndent := b_indent field + 1 in
  let output := e_output st in
  let nestedIndentLevel := e_nestedIndentLevel st in
  let inSqlBlock := e_inSqlBlock st in
  let trimmedLine := trim line in
  if is_block_start trimmedLine then
    {| e_output := output ++
                   [ind cfg nestedIndentLevel ++ formatBlockOpener trimmedLine];
       e_nestedIndentLevel := S nestedIndentLevel;
       e_inSqlBlock := inSqlBlock |}
  else if is_block_end trimmedLine then
    let nestedIndentLevel := nestedIndentLevel - 1 in
    if nestedIndentLevel <? blockIndent then
      {| e_output := output ++ [ind cfg (b_indent field) ++ trimmedLine];
         e_nestedIndentLevel := blockIndent;
         e_inSqlBlock := false |}
    else
      {| e_output := output ++ [ind cfg nestedIndentLevel ++ trimmedLine];
         e_nestedIndentLevel := nestedIndentLevel;
         e_inSqlBlock := false |}
  else if opens_sql inSqlBlock trimmedLine then
    {| e_output := output ++
                   [ind cfg nestedIndentLevel ++ formatLookMLProperty trimmedLine];
       e_nestedIndentLevel := nestedIndentLevel;
       e_inSqlBlock := true |}
  else if inSqlBlock && (seq_eqb trimmedLine ";;" || endsWith trimmedLine ";;")
  then
    let out :=
      if seq_eqb trimmedLine ";;" || seq_eqb trimmedLine "; ;" then
        ind cfg nestedIndentLevel ++ ";;"
      else
        let parts := split2 ";" [] trimmedLine in
        let sqlContent := trim (hd [] parts) in
        ind cfg nestedIndentLevel ++ formatSqlKeywords sqlContent ++ ";;" in
    {| e_output := output ++ [out];
       e_nestedIndentLevel := nestedIndentLevel;
       e_inSqlBlock := false |}
  else if inSqlBlock then
    let isHtmlContent :=
      existsb (fun l => test false re_html_open (trim l)) (b_rawContent field) in
    let formattedLine :=
      if isHtmlContent then
        if includes trimmedLine "color:"
        then replace_all false re_color [RLit "color: "; RGrp 1] trimmedLine
        else trimmedLine
      else if negb (includes trimmedLine "{%") &&
              negb (includes trimmedLine "{{") &&
              negb (includes trimmedLine "${")
      then formatSqlKeywords trimmedLine
      else if includes trimmedLine "${"
      then formatSqlWithLookMLVars trimmedLine
      else trimmedLine in
    let isDerivedTable := in_derived_table (b_parentBlocks field) in
    let isMainSqlKeyword := test true re_main_keyword formattedLine in
    let sqlIndent :=
      if isDerivedTable then (if isMainSqlKeyword then 3 else 4)
      else if negb isMainSqlKeyword then nestedIndentLevel + 2
      else nestedIndentLevel + 1 in
    {| e_output := output ++ [ind cfg sqlIndent ++ trimStart formattedLine];
       e_nestedIndentLevel := nestedIndentLevel;
       e_inSqlBlock := inSqlBlock |}
  else
    let out :=
      if length trimmedLine =? 0 then []
      else if startsWith trimmedLine "#" then
        ind cfg nestedIndentLevel ++ trimmedLine
      else if includes trimmedLine ":" && negb (endsWith trimmedLine "{") then
        ind cfg nestedIndentLevel ++ formatLookMLProperty trimmedLine
      else ind cfg nestedIndentLevel ++ trimmedLine in
    {| e_output := output ++ [out];
       e_nestedIndentLevel := nestedIndentLevel;
       e_inSqlBlock := inSqlBlock |}.

(** [addFormattedFieldContent]. *)
Definition addFormattedFieldContent (output : list str) (field : LookMLBlock)
  : list str :=
  let blockStart := hd [] (b_content field) in
  let blockStart :=
    if groupFieldsByType cfg then ind cfg 1 ++ trimStart blockStart
    else blockStart in
  let output := output ++ [blockStart] in
  let blockIndent := b_indent field + 1 in
  e_output
    (fold_left (fun st line => emit_line field line st)
       (tl (b_rawContent field))
       {| e_output := output; e_nestedIndentLevel := blockIndent;
          e_inSqlBlock := false |}).

(** A blank line, the comments of the field, then the field. *)
Definition add_field (indentLevel : nat) (output : list str)
           (field : LookMLBlock) : list str :=
  let output := output ++ [[]] in
  let output :=
    output ++ map (fun comment => ind cfg indentLevel ++ comment)
                  (b_comments field) in
  addFormattedFieldContent output field.

(** [output.some(line => line.trim() === text)] *)
Definition already_present (output : list str) (text : str) : bool :=
  existsb (fun line => seq_eqb (trim line) text) output.

(** [addFieldSection]. *)
Definition addFieldSection (output : list str) (fields : list LookMLBlock)
           (sectionName : str) (indentLevel : nat) : list str :=
  match fields with
  | [] => output
  | _ :: _ =>
      let sectionHeader := "# ----- " ++ sectionName ++ " -----" in
      let indentedSectionHeader := ind cfg indentLevel ++ sectionHeader in
      let isHeaderAlreadyPresent := already_present output sectionHeader in
      let output :=
        if groupFieldsByType cfg && negb isHeaderAlreadyPresent
        then output ++ [indentedSectionHeader] else output in
      let output := fold_left (add_field indentLevel) fields output in
      if groupFieldsByType cfg then
        let sectionFooter := "# ----- End of " ++ sectionName ++ " -----" in
        let indentedSectionFooter := ind cfg indentLevel ++ sectionFooter in
        if negb (already_present output sectionFooter)
        then output ++ [indentedSectionFooter] else output
      else output
  end.

Definition of_type (type : str) (fields : list LookMLBlock) : list LookMLBlock :=
  filter (fun f => seq_eqb (b_type f) type) fields.

(** One of the four sections of [organizeViewFields]: the blank line that
    precedes the first section, then the section. *)
Definition add_section (fields : list LookMLBlock) (sectionName : str)
           (fieldIndent : nat) (acc : list str * bool) : list str * bool :=
  let '(output, hasAddedFirstSection) := acc in
  match fields with
  | [] => acc
  | _ :: _ =>
      let output := if hasAddedFirstSection then output else output ++ [[]] in
      (addFieldSection output fields sectionName fieldIndent, true)
  end.

(** [organizeViewFields]. *)
Definition organizeViewFields (view : LookMLView) (output : list str)
  : list str :=
  let fields := v_fields view in
  let filters := of_type "filter" fields in
  let parameters := of_type "parameter" fields in
  let dimensions := of_type "dimension" fields in
  let dimensionGroups := of_type "dimension_group" fields in
  let measures := of_type "measure" fields in
  let others := filter (fun f => negb (isFieldType (b_type f))) fields in
  let sorted l := if sortFields cfg then sort_by_name l else l in
  let filters := sorted filters in
  let parameters := sorted parameters in
  let dimensions := sorted dimensions in
  let dimensionGroups := sorted dimensionGroups in
  let measures := sorted measures in
  let fieldIndent :=
    match fields with
    | f :: _ => b_indent f
    | [] => 1
    end in
  let acc := (output, false) in
  let acc := add_section filters "Filters" fieldIndent acc in
  let acc := add_section parameters "Parameters" fieldIndent acc in
  let acc := add_section (dimensions ++ dimensionGroups) "Dimensions"
                         fieldIndent acc in
  let acc := add_section measures "Measures" fieldIndent acc in
  fold_left (add_field fieldIndent) others (fst acc).

(** The lines of [nonFieldBlocks] as [formatView] emits them. *)
Definition emit_nonField (line : str) : str :=
  let trimmedLine := trim line in
  if startsWith trimmedLine "#" then ind cfg 1 ++ trimmedLine
  else if includes trimmedLine ":" && negb (includes trimmedLine "{")
  then ind cfg 1 ++ trimmedLine
  else line.

(** [formatView]. *)
Definition formatView (view : LookMLView) (output : list str) : list str :=
  let output := output ++ v_header view in
  let nonEmptyNonFieldBlocks :=
    filter (fun line =>
              let trimmed := trim line in
              (0 <? length trimmed) &&
              negb (isFormatterGeneratedComment trimmed))
           (v_nonFieldBlocks view) in
  let output := output ++ map emit_nonField nonEmptyNonFieldBlocks in
  let output :=
    if groupFieldsByType cfg || sortFields cfg
    then organizeViewFields view output
    else
      fold_left (fun out field => out ++ b_content field ++ [[]])
                (v_fields view) output in
  output ++ v_footer view.

End Emit.

(** *** The simple formatter and the entry point *)

Section Format.

Variable cfg : Config.
Variable localeCompare : str -> str -> comparison.

(** The state of the loop of [formatLines]; the block stack keeps the
    types only, the indent stored with them is never read. *)
Record LState : Type := {
  l_formattedLines : list str;
  l_indentLevel : nat;
  l_inSqlBlock : bool;
  l_sqlBlockIndent : nat;
  l_blockStack : list str
}.

Definition l_emit (x : str) (st : LState) : LState :=
  {| l_formattedLines := l_formattedLines st ++ [x];
     l_indentLevel := l_indentLevel st; l_inSqlBlock := l_inSqlBlock st;
     l_sqlBlockIndent := l_sqlBlockIndent st;
     l_blockStack := l_blockStack st |}.

Definition l_set_sql (inSql : bool) (sqlIndent : nat) (st : LState) : LState :=
  {| l_formattedLines := l_formattedLines st;
     l_indentLevel := l_indentLevel st; l_inSqlBlock := inSql;
     l_sqlBlockIndent := sqlIndent; l_blockStack := l_blockStack st |}.

Definition l_set_block (indentLevel : nat) (stack : list str) (st : LState)
  : LState :=
  {| l_formattedLines := l_formattedLines st;
     l_indentLevel := indentLevel; l_inSqlBlock := l_inSqlBlock st;
     l_sqlBlockIndent := l_sqlBlockIndent st; l_blockStack := stack |}.

(** The body of the loop of [formatLines]. *)
Definition format_line (line : str) (st : LState) : LState :=
  let trimmedLine := trim line in
  let indentLevel := l_indentLevel st in
  if length trimmedLine =? 0 then l_emit [] st
  else if is_block_start trimmedLine then
    let blockType :=
      match search false re_block_type trimmedLine with
      | Some m => group 1 m
      | None => "unknown" : str
      end in
    let trimmedLine :=
      match indexOf trimmedLine ":" with
      | Some colonIndex =>
          let blockName := trim (substring 0 colonIndex trimmedLine) in
          let restOfLine := trim (substringFrom (colonIndex + 1) trimmedLine) in
          blockName ++ ": " ++ restOfLine
      | None => trimmedLine
      end in
    l_set_block (S indentLevel) (l_blockStack st ++ [blockType])
      (l_emit (ind cfg indentLevel ++ trimmedLine) st)
  else if is_block_end trimmedLine then
    let indentLevel := Nat.max 0 (indentLevel - 1) in
    l_emit (ind cfg indentLevel ++ trimmedLine)
      (l_set_block indentLevel (removelast (l_blockStack st)) st)
  else if opens_sql (l_inSqlBlock st) trimmedLine then
    let trimmedLine := formatLookMLProperty trimmedLine in
    l_set_sql true indentLevel (l_emit (ind cfg indentLevel ++ trimmedLine) st)
  else if l_inSqlBlock st &&
          (seq_eqb trimmedLine ";;" || endsWith trimmedLine ";;") then
    let out :=
      if seq_eqb trimmedLine ";;" || seq_eqb trimmedLine "; ;" then
        ind cfg indentLevel ++ ";;"
      else
        let parts := split2 ";" [] trimmedLine in
        let sqlContent := trim (hd [] parts) in
        ind cfg (l_sqlBlockIndent st) ++ formatSqlKeywords sqlContent ++ " ;;" in
    l_set_sql false (l_sqlBlockIndent st) (l_emit out st)
  else if l_inSqlBlock st then
    let trimmedLine :=
      if negb (includes trimmedLine "{%") &&
         negb (includes trimmedLine "{{") &&
         negb (includes trimmedLine "${")
      then formatSqlKeywords trimmedLine
      else if includes trimmedLine "${"
      then formatSqlWithLookMLVars trimmedLine
      else trimmedLine in
    let isMainSqlKeyword := test true re_main_keyword trimmedLine in
    let isDerivedTable :=
      (0 <? length (l_blockStack st)) &&
      existsb (fun type => seq_eqb type "derived_table") (l_blockStack st) in
    let sqlBlockIndent := l_sqlBlockIndent st in
    let effectiveIndent :=
      if isDerivedTable then (if isMainSqlKeyword then 3 else 4)
      else if negb isMainSqlKeyword then sqlBlockIndent + 2
      else sqlBlockIndent + 1 in
    l_emit (ind cfg effectiveIndent ++ trimStart trimmedLine) st
  else if includes trimmedLine ":" && negb (endsWith trimmedLine "{") then
    let formattedLine := formatLookMLProperty trimmedLine in
    let formattedLine :=
      if endsWith formattedLine ";;" && negb (endsWith formattedLine " ;;")
      then trim (hd [] (split2 ";" [] formattedLine)) ++ " ;;"
      else formattedLine in
    let st :=
      if test false (re_sql_open_eol false) formattedLine
      then l_set_sql true indentLevel st else st in
    l_emit (ind cfg indentLevel ++ formattedLine) st
  else l_emit (ind cfg indentLevel ++ trimmedLine) st.

(** [formatLines]. *)
Definition formatLines (lines : list str) : list str :=
  l_formattedLines
    (fold_left (fun st line => format_line line st) lines
       {| l_formattedLines := []; l_indentLevel := 0; l_inSqlBlock := false;
          l_sqlBlockIndent := 0; l_blockStack := [] |}).

(** [lines[a]], ..., [lines[b - 1]]. *)
Definition lines_between (a b : nat) (lines : list str) : list str :=
  firstn (b - a) (skipn a lines).

Definition endLine_of (view : LookMLView) : nat :=
  match v_endLine view with
  | Some e => e
  | None => 0
  end.

(** The loop over the views of [formatWithAdvancedOptions]; every view
    returned by [parseViews] has been closed and has its [endLine]. *)
Fixpoint format_views (lines : list str) (views : list LookMLView)
         (currentLine : nat) (formattedLines : list str) : list str :=
  match views with
  | [] => formattedLines ++ skipn currentLine lines
  | view :: rest =>
      let formattedLines :=
        formattedLines ++ lines_between currentLine (v_startLine view) lines in
      format_views lines rest (endLine_of view + 1)
        (formatView cfg localeCompare view formattedLines)
  end.

(** [formatWithAdvancedOptions]. *)
Definition formatWithAdvancedOptions (lines : list str) : list str :=
  match parseViews cfg lines with
  | [] => formatLines lines
  | views => format_views lines views 0 []
  end.

(** The text [format] computes for a document. *)
Definition formatText (text : str) : str :=
  let lines := split_lines [] text in
  if negb (groupFieldsByType cfg) && negb (sortFields cfg)
  then join [nl] (formatLines lines)
  else join [nl] (formatWithAdvancedOptions lines).

(** [vscode.TextEdit.replace(range, newText)], the range given by the two
    offsets handed to [positionAt]. *)
Record TextEdit : Type := {
  e_start : nat;
  e_end : nat;
  e_newText : str
}.

(** [format]. *)
Definition format (text : str) : list TextEdit :=
  let formattedText := formatText text in
  if negb (seq_eqb formattedText text)
  then [{| e_start := 0; e_end := length text; e_newText := formattedText |}]
  else [].

(** The document after the edits of [format] are applied, as the test
    suite applies them. *)
Definition formatDocument (text : str) : str :=
  match format text with
  | [] => text
  | edit :: _ =>
      firstn (e_start edit) text ++ e_newText edit ++ skipn (e_end edit) text
  end.

End Format.

End Formatter.

(* ================================================================== *)
(** ** The parsed model ([src/linter/types.ts]) *)
(* ================================================================== *)

Module Model.

Import Js.

(** A JavaScript object used as a map from names to values: the entries
    in the order [for ... in] and [Object.entries] enumerate them. *)
Definition obj (A : Type) : Type := list (str * A).

Fixpoint obj_get {A : Type} (k : str) (o : obj A) : option A :=
  match o with
  | [] => None
  | (k', v) :: o' => if seq_eqb k k' then Some v else obj_get k o'
  end.

(** The number a key stands for when it is an array index (a canonical
    decimal numeral up to 2^32 - 2); such keys are enumerated first, in
    ascending order. *)
Fixpoint digits_value (acc : N) (s : str) : option N :=
  match s with
  | [] => Some acc
  | c :: s' =>
      if isDigit c
      then digits_value (N.add (N.mul 10 acc) (N.of_nat (code c - 48))) s'
      else None
  end.

Definition array_index (k : str) : option N :=
  match k with
  | [] => None
  | c :: rest =>
      if (code c =? 48) && negb (length rest =? 0) then None
      else if 10 <? length k then None
      else match digits_value 0%N k with
           | Some n => if N.leb n 4294967294%N then Some n else None
           | None => None
           end
  end.

Fixpoint obj_replace {A : Type} (k : str) (v : A) (o : obj A) : obj A :=
  match o with
  | [] => []
  | (k', v') :: o' =>
      if seq_eqb k k' then (k', v) :: o' else (k', v') :: obj_replace k v o'
  end.

Fixpoint obj_insert_index {A : Type} (n : N) (k : str) (v : A) (o : obj A)
  : obj A :=
  match o with
  | [] => [(k, v)]
  | (k', v') :: o' =>
      match array_index k' with
      | Some n' =>
          if N.ltb n n' then (k, v) :: o
          else (k', v') :: obj_insert_index n k v o'
      | None => (k, v) :: o
      end
  end.

(** The entries after [v] is stored under [k]: in the place of the entry
    of that key, or else as a new entry, among the array indices or at
    the end. *)
Definition obj_store {A : Type} (k : str) (v : A) (o : obj A) : obj A :=
  match obj_get k o with
  | Some _ => obj_replace k v o
  | None =>
      match array_index k with
      | Some n => obj_insert_index n k v o
      | None => o ++ [(k, v)]
      end
  end.

(** An object that is filled by assignments [o[k] = v] of objects: the
    entries it owns, and the object that an assignment to the key
    [__proto__] has made its prototype, if there was one. *)
Record dict (A : Type) : Type := {
  own : obj A;
  prototype : option A
}.

Arguments own {A} _.
Arguments prototype {A} _.

(** [{}] *)
Definition empty_object {A : Type} : dict A := {| own := []; prototype := None |}.

(** [o[k] = v], for an object [v].  The key [__proto__] is the accessor
    every object inherits: the assignment makes [v] the prototype of [o]
    and stores no entry.  Any other key gets an entry. *)
Definition obj_set {A : Type} (k : str) (v : A) (o : dict A) : dict A :=
  if seq_eqb k "__proto__"
  then {| own := own o; prototype := Some v |}
  else {| own := obj_store k v (own o); prototype := prototype o |}.

(** [LookMLField]. *)
Record LookMLField : Type := {
  f_name : option str;
  f_type : option str;
  f_sql : option str;
  f_primary_key : option bool;
  f_html : option str;
  f_label : option str;
  f_description : option str
}.

Record DerivedTable : Type := {
  dt_sql : option str
}.

(** [LookMLView]. *)
Record LookMLView : Type := {
  view_name_ : option str;
  sql_table_name : option str;
  derived_table : option DerivedTable;
  dimensions : option (obj LookMLField);
  dimension_groups : option (obj LookMLField);
  measures : option (obj LookMLField);
  filters : option (obj LookMLField)
}.

(** [LookMLJoin]. *)
Record LookMLJoin : Type := {
  j_name : option str;
  sql_on : option str;
  relationship : option str;
  view_label : option str
}.

(** [LookMLExplore]. *)
Record LookMLExplore : Type := {
  e_name : option str;
  view_name : option str;
  joins : option (obj LookMLJoin)
}.

(** [LookMLModel]. *)
Record LookMLModel : Type := {
  m_name : option str;
  connection : option str;
  includes_ : option (list str)
}.

(** [ParsedLookML]: each collection may be absent. *)
Record ParsedLookML : Type := {
  views : option (obj LookMLView);
  explores : option (obj LookMLExplore);
  models : option (obj LookMLModel)
}.

(** [RuleViolation]; the rules never set [line] or [data]. *)
Record RuleViolation : Type := {
  ruleId : str;
  message : str;
  severity : str;
  path : list str
}.

(** Truthiness of an optional string: present and not empty. *)
Definition truthy (s : option str) : bool :=
  match s with
  | Some (_ :: _) => true
  | _ => false
  end.

Definition present {A : Type} (o : option A) : bool :=
  match o with Some _ => true | None => false end.

(** [o || {}] *)
Definition or_empty {A : Type} (o : option (obj A)) : obj A :=
  match o with Some x => x | None => [] end.

End Model.

(* ================================================================== *)
(** ** The fallback parser ([src/linter/parser.ts]) *)
(* ================================================================== *)

Module Parser.

Import Js Regex Model.

(** Loops over [exec] may fail to end; [None] is that outcome. *)
Definition bind {A B : Type} (a : option A) (f : A -> option B) : option B :=
  match a with
  | Some x => f x
  | None => None
  end.

Notation "x <- a ;; b" := (bind a (fun x => b))
  (at level 61, a at next level, right associativity).

(** A loop [while ((match = r.exec(s)) !== null) body], the body being a
    function of the match and the state it updates. *)
Definition for_each_exec {S : Type} (icase : bool) (r : regex) (s : str)
           (body : rmatch_result -> S -> S) (init : S) : option S :=
  ms <- exec_all icase r s ;;
  Some (fold_left (fun st m => body m st) ms init).

(** [s.match(r)] for a pattern whose first group holds the value: the
    trimmed group, when there is a match. *)
Definition match_group (icase : bool) (r : regex) (s : str) : option str :=
  option_map (group 1) (search icase r s).

Definition not_newline : regex := none_of [nl].
Definition not_quote : regex := none_of [dq].
Definition letter_ : regex := Cls (fun c => isLower c || isUpper c || (code c =? 95)).

(* (?=\n\s*view:|\n\s*explore:|\n\s*model:|\s*$) *)
Definition until_next_declaration : regex :=
  Look (alts [seqs [Chr nl; star ws; lit "view:"];
              seqs [Chr nl; star ws; lit "explore:"];
              seqs [Chr nl; star ws; lit "model:"];
              seqs [star ws; Eol]]).

(* /kind:\s+([a-zA-Z0-9_]+)\s*\{([\s\S]*?)(?=...)/g for kind in view,
   explore, model *)
Definition declaration_regex (kind : str) : regex :=
  seqs [lit kind; Chr ":"; plus ws; Grp 1 (plus word); star ws; Chr "{";
        Grp 2 (lazy_star any); until_next_declaration].

Definition viewRegex : regex := declaration_regex "view".
Definition exploreRegex : regex := declaration_regex "explore".
Definition modelRegex : regex := declaration_regex "model".

(* /name:\s*([^\n]+)/ *)
Definition line_property (name : str) : regex :=
  seqs [lit name; Chr ":"; star ws; Grp 1 (plus not_newline)].

(* /name:\s*Q([^Q]+)Q/ where Q is the double quote *)
Definition quoted_property (name : str) : regex :=
  seqs [lit name; Chr ":"; star ws; Chr dq; Grp 1 (plus not_quote); Chr dq].

(* /name:\s*([\s\S]*?)(?=\n\s*[a-zA-Z_]+:|$)/ *)
Definition text_property (name : str) : regex :=
  seqs [lit name; Chr ":"; star ws; Grp 1 (lazy_star any);
        Look (Alt (seqs [Chr nl; star ws; plus letter_; Chr ":"]) Eol)].

(* /derived_table:\s*\{([\s\S]*?)(?=\n\s*\})/ *)
Definition derivedTableRegex : regex :=
  seqs [lit "derived_table:"; star ws; Chr "{"; Grp 1 (lazy_star any);
        Look (seqs [Chr nl; star ws; Chr "}"])].

(* /sql:\s*([\s\S]*?)(?=\n\s*;;\s*|$)/ *)
Definition derivedSqlRegex : regex :=
  seqs [lit "sql:"; star ws; Grp 1 (lazy_star any);
        Look (Alt (seqs [Chr nl; star ws; lit ";;"; star ws]) Eol)].

(* /primary_key:\s*(yes|true|no|false)/i *)
Definition primaryKeyRegex : regex :=
  seqs [lit "primary_key:"; star ws;
        Grp 1 (alts [lit "yes"; lit "true"; lit "no"; lit "false"])].

(* /join:\s+([a-zA-Z0-9_]+)\s*\{([\s\S]*?)(?=\n\s*join:|\n\s*\})/g *)
Definition joinRegex : regex :=
  seqs [lit "join:"; plus ws; Grp 1 (plus word); star ws; Chr "{";
        Grp 2 (lazy_star any);
        Look (Alt (seqs [Chr nl; star ws; lit "join:"])
                  (seqs [Chr nl; star ws; Chr "}"]))].

(* the pattern [extractFields] builds from [fieldType] *)
Definition fieldRegex (fieldType : str) : regex :=
  seqs [lit fieldType; Chr ":"; plus ws; Grp 1 (plus word); star ws; Chr "{";
        Grp 2 (lazy_star any);
        Look (alts [seqs [Chr nl; star ws; lit fieldType; Chr ":"];
                    seqs [Chr nl; star ws; lit "dimension:"];
                    seqs [Chr nl; star ws; lit "dimension_group:"];
                    seqs [Chr nl; star ws; lit "measure:"];
                    seqs [Chr nl; star ws; lit "filter:"];
                    seqs [Chr nl; star ws; Chr "}"]])].

(** The objects of the parser.  [SimpleField], [SimpleJoin] and
    [SimpleModel] have the members of [LookMLField], [LookMLJoin] and
    [LookMLModel], whose records stand for them. *)

(** [SimpleView]. *)
Record SimpleView : Type := {
  v_name : str;
  v_sql_table_name : option str;
  v_derived_table : option DerivedTable;
  v_dimensions : dict LookMLField;
  v_dimension_groups : dict LookMLField;
  v_measures : dict LookMLField;
  v_filters : dict LookMLField
}.

(** [SimpleExplore]. *)
Record SimpleExplore : Type := {
  x_name : str;
  x_view_name : option str;
  x_joins : dict LookMLJoin
}.

(** The [result] the parser fills. *)
Record SimpleLookML : Type := {
  s_views : option (dict SimpleView);
  s_explores : option (dict SimpleExplore);
  s_models : option (dict LookMLModel)
}.

(** The field built by the body of the loop of [extractFields]. *)
Definition make_field (fieldName fieldContent : str) : LookMLField :=
  {| f_name := Some fieldName;
     f_type := option_map trim (match_group false (line_property "type") fieldContent);
     f_sql := option_map trim (match_group false (text_property "sql") fieldContent);
     f_primary_key :=
       option_map
         (fun v => seq_eqb (toLowerCase v) "yes" || seq_eqb (toLowerCase v) "true")
         (match_group true primaryKeyRegex fieldContent);
     f_html := option_map trim (match_group false (text_property "html") fieldContent);
     f_label := match_group false (quoted_property "label") fieldContent;
     f_description :=
       match_group false (quoted_property "description") fieldContent |}.

(** [extractFields]. *)
Definition extractFields (content fieldType : str) : option (dict LookMLField) :=
  for_each_exec false (fieldRegex fieldType) content
    (fun m fields =>
       let fieldName := group 1 m in
       let fieldContent := group 2 m in
       obj_set fieldName (make_field fieldName fieldContent) fields)
    empty_object.

(** The [derived_table] entry of a view. *)
Definition make_derived_table (viewContent : str) : option DerivedTable :=
  match search false derivedTableRegex viewContent with
  | Some m =>
      Some {| dt_sql :=
                match match_group false derivedSqlRegex (group 1 m) with
                | Some sql => Some (trim sql)
                | None => Some []
                end |}
  | None => None
  end.

(** [result.views[viewName] = view], done when [result.views] is there. *)
Definition store_view (viewName : str) (view : SimpleView) (result : SimpleLookML)
  : SimpleLookML :=
  match s_views result with
  | Some vs =>
      {| s_views := Some (obj_set viewName view vs);
         s_explores := s_explores result; s_models := s_models result |}
  | None => result
  end.

Definition store_explore (exploreName : str) (explore : SimpleExplore)
           (result : SimpleLookML) : SimpleLookML :=
  match s_explores result with
  | Some es =>
      {| s_views := s_views result;
         s_explores := Some (obj_set exploreName explore es);
         s_models := s_models result |}
  | None => result
  end.

Definition store_model (modelName : str) (model : LookMLModel)
           (result : SimpleLookML) : SimpleLookML :=
  match s_models result with
  | Some ms =>
      {| s_views := s_views result; s_explores := s_explores result;
         s_models := Some (obj_set modelName model ms) |}
  | None => result
  end.

(** The body of the loop of [extractViews]. *)
Definition extract_view (m : rmatch_result) (result : SimpleLookML)
  : option SimpleLookML :=
  let viewName := group 1 m in
  let viewContent := group 2 m in
  ds <- extractFields viewContent "dimension" ;;
  dgs <- extractFields viewContent "dimension_group" ;;
  ms <- extractFields viewContent "measure" ;;
  fs <- extractFields viewContent "filter" ;;
  Some (store_view viewName
          {| v_name := viewName;
             v_sql_table_name :=
               option_map trim
                 (match_group false (line_property "sql_table_name") viewContent);
             v_derived_table := make_derived_table viewContent;
             v_dimensions := ds;
             v_dimension_groups := dgs;
             v_measures := ms;
             v_filters := fs |} result).

Fixpoint fold_opt {A S : Type} (body : A -> S -> option S) (l : list A) (st : S)
  : option S :=
  match l with
  | [] => Some st
  | x :: l' => st' <- body x st ;; fold_opt body l' st'
  end.

(** [extractViews]. *)
Definition extractViews (content : str) (result : SimpleLookML)
  : option SimpleLookML :=
  ms <- exec_all false viewRegex content ;;
  fold_opt extract_view ms result.

(** [extractJoins]. *)
Definition extractJoins (content : str) : option (dict LookMLJoin) :=
  for_each_exec false joinRegex content
    (fun m joins =>
       let joinName := group 1 m in
       let joinContent := group 2 m in
       obj_set joinName
         {| j_name := Some joinName;
            sql_on := option_map trim
                        (match_group false (text_property "sql_on") joinContent);
            relationship :=
              option_map trim
                (match_group false (line_property "relationship") joinContent);
            view_label := None |} joins)
    empty_object.

(** [extractExplores]. *)
Definition extractExplores (content : str) (result : SimpleLookML)
  : option SimpleLookML :=
  ms <- exec_all false exploreRegex content ;;
  fold_opt
    (fun m result =>
       let exploreName := group 1 m in
       let exploreContent := group 2 m in
       js <- extractJoins exploreContent ;;
       Some (store_explore exploreName
               {| x_name := exploreName;
                  x_view_name :=
                    option_map trim
                      (match_group false (line_property "view_name")
                                   exploreContent);
                  x_joins := js |} result))
    ms result.

(** The [includes] entry of a model. *)
Definition make_includes (modelContent : str) : option (list str) :=
  match match_all false (quoted_property "include") modelContent with
  | [] => None
  | includesMatch =>
      Some (map (fun include =>
                   match search false (quoted_property "include") include with
                   | Some m => group 1 m
                   | None => []
                   end) includesMatch)
  end.

(** [extractModels]. *)
Definition extractModels (content : str) (result : SimpleLookML)
  : option SimpleLookML :=
  for_each_exec false modelRegex content
    (fun m result =>
       let modelName := group 1 m in
       let modelContent := group 2 m in
       store_model modelName
         {| m_name := Some modelName;
            connection :=
              option_map trim
                (match_group false (line_property "connection") modelContent);
            includes_ := make_includes modelContent |} result)
    result.

(** [parseLookMLSync].  None of the three steps raises an exception on a
    string, so the handler of the [try], which returns the same [result]
    object, has nothing to catch. *)
Definition parseLookMLSync (lookmlContent : str) : option SimpleLookML :=
  let result := {| s_views := Some empty_object;
                   s_explores := Some empty_object;
                   s_models := Some empty_object |} in
  result <- extractViews lookmlContent result ;;
  result <- extractExplores lookmlContent result ;;
  extractModels lookmlContent result.

(** *** The result as the rules read it

    The rules go through an object with [for ... in] and read its
    members by name.  For an object whose prototype is the one it was
    created with these are the entries it owns, and the object is the
    [obj] of them.  An object whose prototype was replaced has the
    members of that prototype too, which are no views, fields or joins;
    the model of the rules does not cover it. *)

(** A [dict] with the entries only. *)
Definition entries {A B : Type} (value : A -> B) (o : dict A) : obj B :=
  map (fun entry => (fst entry, value (snd entry))) (own o).

Definition view_entries (view : SimpleView) : LookMLView :=
  {| view_name_ := Some (v_name view);
     sql_table_name := v_sql_table_name view;
     derived_table := v_derived_table view;
     dimensions := Some (entries (fun field => field) (v_dimensions view));
     dimension_groups :=
       Some (entries (fun field => field) (v_dimension_groups view));
     measures := Some (entries (fun field => field) (v_measures view));
     filters := Some (entries (fun field => field) (v_filters view)) |}.

Definition explore_entries (explore : SimpleExplore) : LookMLExplore :=
  {| e_name := Some (x_name explore);
     view_name := x_view_name explore;
     joins := Some (entries (fun join => join) (x_joins explore)) |}.

(** The entries of the result, down to fields and joins. *)
Definition entries_of (result : SimpleLookML) : ParsedLookML :=
  {| views := option_map (entries view_entries) (s_views result);
     explores := option_map (entries explore_entries) (s_explores result);
     models := option_map (entries (fun model => model)) (s_models result) |}.

(** No prototype was replaced: in the object, and in those of its
    entries for which [inside] tells. *)
Definition plain_object {A : Type} (inside : A -> bool) (o : dict A) : bool :=
  match prototype o with
  | Some _ => false
  | None => forallb (fun entry => inside (snd entry)) (own o)
  end.

Definition plain_view (view : SimpleView) : bool :=
  plain_object (fun _ => true) (v_dimensions view) &&
  plain_object (fun _ => true) (v_dimension_groups view) &&
  plain_object (fun _ => true) (v_measures view) &&
  plain_object (fun _ => true) (v_filters view).

Definition plain_explore (explore : SimpleExplore) : bool :=
  plain_object (fun _ => true) (x_joins explore).

Definition plain_collection {A : Type} (inside : A -> bool)
           (collection : option (dict A)) : bool :=
  match collection with
  | Some o => plain_object inside o
  | None => true
  end.

Definition plain (result : SimpleLookML) : bool :=
  plain_collection plain_view (s_views result) &&
  plain_collection plain_explore (s_explores result) &&
  plain_collection (fun _ => true) (s_models result).

(** The model the rules are given when the fallback parser is used:
    [None] when the parser does not return, or returns an object whose
    prototype it has replaced. *)
Definition fallback (lookmlContent : str) : option ParsedLookML :=
  result <- parseLookMLSync lookmlContent ;;
  if plain result then Some (entries_of result) else None.

End Parser.

(* ================================================================== *)
(** ** The rules ([src/linter/rules.ts]) *)
(* ================================================================== *)

Module Rules.

Import Js Regex Model.

(** [a + q(b) + c], with [q(b)] the text [b] between double quotes. *)
Definition quoted (s : str) : str := [dq] ++ s ++ [dq].

(* /^pk\d*$/i *)
Definition pkNamePattern : regex :=
  seqs [Bol; lit "pk"; star digit; Eol].

(* /\${[^}]+}/g *)
Definition substitutionPattern : regex :=
  seqs [lit "${"; plus (none_of "}"); Chr "}"].

(* /\{\{[^}]+\}\}/g *)
Definition liquidOutputPattern : regex :=
  seqs [lit "{{"; plus (none_of "}"); lit "}}"].

(* /\{%[^%]+%\}/g *)
Definition liquidTagPattern : regex :=
  seqs [lit "{%"; plus (none_of "%"); lit "%}"].

(* /[a-zA-Z0-9._]+\.[a-zA-Z0-9 ._]+/g *)
Definition directTablePattern : regex :=
  seqs [plus (Cls (fun c => isWord c || ceq c "."));
        Chr ".";
        plus (Cls (fun c => isWord c || ceq c " " || ceq c "."))].

(* /\${([a-zA-Z0-9_]+)\.([a-zA-Z0-9_]+)}/g *)
Definition crossViewPattern : regex :=
  seqs [lit "${"; Grp 1 (plus word); Chr "."; Grp 2 (plus word); Chr "}"].

(** The matches a loop over [pattern.exec(text)] goes through.  Neither
    of the two patterns used this way matches the empty string, so the
    loop ends on every text and the default is never taken (lemmas
    [directTablePattern_total] and [crossViewPattern_total]). *)
Definition exec_matches (pattern : regex) (text : str) : list rmatch_result :=
  match exec_all false pattern text with
  | Some ms => ms
  | None => []
  end.

(** The test that skips a view: no derived table and no table name. *)
Definition has_table (view : LookMLView) : bool :=
  negb (negb (present (derived_table view)) && negb (truthy (sql_table_name view))).

(** The violations of rule K1 for one view. *)
Definition k1_missing (viewName : str) : RuleViolation :=
  {| ruleId := "k1";
     message := "View " ++ quoted viewName ++ " is missing a primary key dimension";
     severity := "warning";
     path := ["views" : str; viewName] |}.

Definition k1_naming (viewName dimName : str) : RuleViolation :=
  {| ruleId := "k1";
     message := "Primary key dimension " ++ quoted dimName ++ " in view " ++
                quoted viewName ++ " should follow naming convention (pk)";
     severity := "warning";
     path := ["views" : str; viewName; "dimensions" : str; dimName] |}.

Definition is_primary_key (dim : LookMLField) : bool :=
  match f_primary_key dim with
  | Some true => true
  | _ => false
  end.

(** The body of the loop over the views of [checkPrimaryKeys]. *)
Definition k1_view (viewName : str) (view : LookMLView)
           (violations : list RuleViolation) : list RuleViolation :=
  if negb (has_table view) then violations
  else
    let pkDimensions :=
      filter (fun entry => is_primary_key (snd entry))
             (or_empty (dimensions view)) in
    if length pkDimensions =? 0 then violations ++ [k1_missing viewName]
    else
      fold_left
        (fun violations entry =>
           let dimName := fst entry in
           if negb (test true pkNamePattern dimName)
           then violations ++ [k1_naming viewName dimName]
           else violations)
        pkDimensions violations.

(** [checkPrimaryKeys]. *)
Definition checkPrimaryKeys (lookml : ParsedLookML) : list RuleViolation :=
  match views lookml with
  | None => []
  | Some vs =>
      fold_left (fun violations entry => k1_view (fst entry) (snd entry) violations)
                vs []
  end.

Definition e1_violation (exploreName joinName reference : str) : RuleViolation :=
  {| ruleId := "e1";
     message := "Join " ++ quoted joinName ++ " in explore " ++
                quoted exploreName ++ " uses direct table reference " ++
                quoted reference ++ " - use ${} substitution instead";
     severity := "warning";
     path := ["explores" : str; exploreName; "joins" : str; joinName;
              "sql_on" : str] |}.

(** [sql_on] without its substitutions and liquid tags. *)
Definition cleanSql (sql : str) : str :=
  replace_all false liquidTagPattern []
    (replace_all false liquidOutputPattern []
       (replace_all false substitutionPattern [] sql)).

(** The body of the loop over the joins of [checkJoinReferences]. *)
Definition e1_join (exploreName joinName : str) (join : LookMLJoin)
           (violations : list RuleViolation) : list RuleViolation :=
  match sql_on join with
  | Some (c :: sql) =>
      let cleanedSql := cleanSql (c :: sql) in
      fold_left
        (fun violations m =>
           let reference := r_text m in
           if startsWith reference "safe." then violations
           else violations ++ [e1_violation exploreName joinName reference])
        (exec_matches directTablePattern cleanedSql) violations
  | _ => violations
  end.

(** [checkJoinReferences]. *)
Definition checkJoinReferences (lookml : ParsedLookML) : list RuleViolation :=
  match explores lookml with
  | None => []
  | Some es =>
      fold_left
        (fun violations entry =>
           let exploreName := fst entry in
           match joins (snd entry) with
           | None => violations
           | Some js =>
               fold_left
                 (fun violations jentry =>
                    e1_join exploreName (fst jentry) (snd jentry) violations)
                 js violations
           end)
        es []
  end.

(** [extractCrossViewReferences]. *)
Definition extractCrossViewReferences (text currentViewName : str) : list str :=
  fold_left
    (fun references m =>
       let refViewName := group 1 m in
       let refFieldName := group 2 m in
       if seq_eqb refViewName currentViewName then references
       else if seq_eqb refViewName "TABLE" then references
       else references ++ [refViewName ++ "." ++ refFieldName])
    (exec_matches crossViewPattern text) [].

Definition f1_sql (fieldType fieldName viewName ref : str) : RuleViolation :=
  {| ruleId := "f1";
     message := fieldType ++ " " ++ quoted fieldName ++ " in view " ++
                quoted viewName ++ " references another view via " ++ quoted ref;
     severity := "warning";
     path := ["views" : str; viewName; fieldType ++ "s"; fieldName; "sql" : str] |}.

Definition f1_html (fieldType fieldName viewName ref : str) : RuleViolation :=
  {| ruleId := "f1";
     message := fieldType ++ " " ++ quoted fieldName ++ " in view " ++
                quoted viewName ++ " references another view in HTML via " ++
                quoted ref;
     severity := "warning";
     path := ["views" : str; viewName; fieldType ++ "s"; fieldName; "html" : str] |}.

(** The body of the loop of [checkFieldsForCrossReferences]. *)
Definition f1_field (viewName fieldType fieldName : str) (field : LookMLField)
           (violations : list RuleViolation) : list RuleViolation :=
  let violations :=
    match f_sql field with
    | Some (c :: sql) =>
        fold_left
          (fun violations ref =>
             violations ++ [f1_sql fieldType fieldName viewName ref])
          (extractCrossViewReferences (c :: sql) viewName)
          violations
    | _ => violations
    end in
  match f_html field with
  | Some (c :: html) =>
      fold_left
        (fun violations ref =>
           violations ++ [f1_html fieldType fieldName viewName ref])
        (extractCrossViewReferences (c :: html) viewName)
        violations
  | _ => violations
  end.

(** [checkFieldsForCrossReferences]. *)
Definition checkFieldsForCrossReferences (fields : obj LookMLField)
           (viewName fieldType : str) (violations : list RuleViolation)
  : list RuleViolation :=
  fold_left
    (fun violations entry =>
       f1_field viewName fieldType (fst entry) (snd entry) violations)
    fields violations.

(** The body of the loop over the views of [checkCrossViewReferences]. *)
Definition f1_view (viewName : str) (view : LookMLView)
           (violations : list RuleViolation) : list RuleViolation :=
  if negb (has_table view) then violations
  else
    let violations :=
      checkFieldsForCrossReferences (or_empty (dimensions view)) viewName
        "dimension" violations in
    let violations :=
      checkFieldsForCrossReferences (or_empty (dimension_groups view)) viewName
        "dimension_group" violations in
    let violations :=
      checkFieldsForCrossReferences (or_empty (measures view)) viewName
        "measure" violations in
    checkFieldsForCrossReferences (or_empty (filters view)) viewName
      "filter" violations.

(** [checkCrossViewReferences]. *)
Definition checkCrossViewReferences (lookml : ParsedLookML) : list RuleViolation :=
  match views lookml with
  | None => []
  | Some vs =>
      fold_left (fun violations entry => f1_view (fst entry) (snd entry) violations)
                vs []
  end.

(** *** The rule table and [applyRules] *)

(** What calling [rule.check(lookml)] comes to: a list of violations, or
    an exception. *)
Inductive outcome : Type :=
| Returns (violations : list RuleViolation)
| Throws.

(** [LookMLRule]. *)
Record LookMLRule : Type := {
  id : str;
  description : str;
  check : ParsedLookML -> outcome
}.

(** What [table[id]] evaluates to: a rule of the table, a member
    inherited from [Object.prototype] (truthy, without a [check]), or
    [undefined]. *)
Inductive lookup : Type :=
| Rule (rule : LookMLRule)
| Inherited
| Undefined.

(** The property names every object inherits. *)
Definition objectPrototypeKeys : list string :=
  ["constructor"; "__defineGetter__"; "__defineSetter__"; "hasOwnProperty";
   "__lookupGetter__"; "__lookupSetter__"; "isPrototypeOf";
   "propertyIsEnumerable"; "toString"; "valueOf"; "__proto__";
   "toLocaleString"]%string.

Definition k1 : LookMLRule :=
  {| id := "k1";
     description := "Primary keys should be explicitly defined and follow naming conventions";
     check := fun lookml => Returns (checkPrimaryKeys lookml) |}.

Definition e1 : LookMLRule :=
  {| id := "e1";
     description := "Explore joins should use substitution operators instead of direct table references";
     check := fun lookml => Returns (checkJoinReferences lookml) |}.

Definition f1 : LookMLRule :=
  {| id := "f1";
     description := "Fields should not reference other views directly";
     check := fun lookml => Returns (checkCrossViewReferences lookml) |}.

(** [ALL_RULES[id]]. *)
Definition ALL_RULES (ruleName : str) : lookup :=
  if seq_eqb ruleName "k1" then Rule k1
  else if seq_eqb ruleName "e1" then Rule e1
  else if seq_eqb ruleName "f1" then Rule f1
  else if existsb (fun k : string => seq_eqb ruleName k) objectPrototypeKeys
  then Inherited
  else Undefined.

Section ApplyRules.

(** The engine is stated for any table of rules; [applyRules] is its
    instance at [ALL_RULES]. *)
Variable table : str -> lookup.

Definition is_defined (l : lookup) : bool :=
  match l with
  | Undefined => false
  | _ => true
  end.

(** The state of the loop: the violations, and the rules whose failure
    went to [console.error] ([None] for a value without an [id]). *)
Definition run_state : Type := (list RuleViolation * list (option str))%type.

(** The body of the loop of [applyRules]: the [try] around one rule. *)
Definition apply_rule (lookml : ParsedLookML) (st : run_state) (rule : lookup)
  : run_state :=
  let '(violations, errors) := st in
  match rule with
  | Rule r =>
      match check r lookml with
      | Returns ruleViolations => (violations ++ ruleViolations, errors)
      | Throws => (violations, errors ++ [Some (id r)])
      end
  | Inherited => (violations, errors ++ [None])
  | Undefined => st
  end.

Definition applyRules_run (lookml : ParsedLookML) (enabledRuleIds : list str)
  : run_state :=
  let rulesToApply :=
    map table (filter (fun ruleName => is_defined (table ruleName)) enabledRuleIds) in
  fold_left (apply_rule lookml) rulesToApply ([], []).

Definition applyRulesIn (lookml : ParsedLookML) (enabledRuleIds : list str)
  : list RuleViolation :=
  fst (applyRules_run lookml enabledRuleIds).

End ApplyRules.

(** [applyRules]. *)
Definition applyRules (lookml : ParsedLookML) (enabledRuleIds : list str)
  : list RuleViolation :=
  applyRulesIn ALL_RULES lookml enabledRuleIds.

End Rules.

(* ================================================================== *)
(** ** Diagnostics ([src/linter/diagnostics.ts]) *)
(* ================================================================== *)

Module Diagnostics.

Import Js Model Rules.

Section Lint.

(** [parseLookML], the call into the [lookml-parser] package, which is
    not part of the repository: [None] is a rejected or [null] result. *)
Variable parseLookML : str -> option ParsedLookML.

(** [enabledRules.filter(rule => !disabledRules.includes(rule))] *)
Definition activeRules (enabledRules disabledRules : list str) : list str :=
  filter (fun rule => negb (existsb (seq_eqb rule) disabledRules)) enabledRules.

(** The violations [getLookMLDiagnostics] turns into diagnostics, one
    diagnostic for each; [None] when the model of the fallback parser is
    needed and [Parser.fallback] has none. *)
Definition getLookMLViolations (content : str)
           (enabledRules disabledRules : list str)
  : option (list RuleViolation) :=
  let active := activeRules enabledRules disabledRules in
  match parseLookML content with
  | Some lookmlData => Some (applyRules lookmlData active)
  | None =>
      match Parser.fallback content with
      | Some fallbackData => Some (applyRules fallbackData active)
      | None => None
      end
  end.

End Lint.

Import Regex Parser.

(** [text.split('\n')]; [cur] is the line being read, reversed. *)
Fixpoint split_char (c : ascii) (cur : str) (s : str) : list str :=
  match s with
  | [] => [rev cur]
  | x :: s' =>
      if ceq x c then rev cur :: split_char c [] s'
      else split_char c (x :: cur) s'
  end.

(** [new RegExp(`kind:\\s+${name}\\s*\\{`)].  The name is spliced into
    the source of the pattern: a name of word characters stands for
    itself; any other name is read as pattern syntax, which is left out
    of the model ([None]). *)
Definition declarationPattern (kind name : str) : option regex :=
  if forallb isWord name
  then Some (seqs [lit (kind ++ ":"); plus ws; lit name; star ws; Chr "{"])
  else None.

(** The pattern for the member [p3] of the collection [p2], when
    [findLineByPath] looks for members of [p2]. *)
Definition memberPattern (members : list (string * string)) (rest : list str)
  : option (list regex) :=
  match rest with
  | p2 :: p3 :: _ =>
      match find (fun m : string * string => seq_eqb p2 (fst m)) members with
      | Some m => p <- declarationPattern (snd m) p3 ;; Some [p]
      | None => Some []
      end
  | _ => Some []
  end.

(** The patterns [findLineByPath] builds from a path. *)
Definition pathPatterns (path : list str) : option (list regex) :=
  match path with
  | p0 :: p1 :: rest =>
      if seq_eqb p0 "views" then
        first <- declarationPattern "view" p1 ;;
        second <- memberPattern [("dimensions", "dimension");
                                 ("measures", "measure");
                                 ("filters", "filter")]%string rest ;;
        Some (first :: second)
      else if seq_eqb p0 "explores" then
        first <- declarationPattern "explore" p1 ;;
        second <- memberPattern [("joins", "join")]%string rest ;;
        Some (first :: second)
      else Some []
  | _ => Some []
  end.

(** The loop of [findLineByPath] from line [i] on: [matches] holds the
    lines matched so far, [currentDepth] is their number.  The assignment
    to [i] after a match leaves [i] as it is. *)
Fixpoint find_lines (patterns : list regex) (lines : list str)
         (i currentDepth : nat) (matches : list nat) : nat :=
  match lines with
  | [] => hd 0 matches
  | line :: rest =>
      match nth_error patterns currentDepth with
      | Some pattern =>
          if test false pattern line then
            let matches := matches ++ [i] in
            let currentDepth := S currentDepth in
            if length patterns <=? currentDepth then last matches 0
            else find_lines patterns rest (S i) currentDepth matches
          else find_lines patterns rest (S i) currentDepth matches
      | None => 0
      end
  end.

(** [findLineByPath], on the text of the document. *)
Definition findLineByPath (text : str) (path : list str) : option nat :=
  let lines := split_char nl [] text in
  patterns <- pathPatterns path ;;
  Some (if 0 <? length patterns then find_lines patterns lines 0 0 [] else 0).

(** [vscode.DiagnosticSeverity]. *)
Inductive DiagnosticSeverity : Type :=
| Error
| Warning
| Information
| Hint.

(** [mapSeverity]. *)
Definition mapSeverity (severity : str) : DiagnosticSeverity :=
  if seq_eqb severity "error" then Error
  else if seq_eqb severity "warning" then Warning
  else if seq_eqb severity "info" then Information
  else if seq_eqb severity "hint" then Hint
  else Warning.

(** [vscode.Diagnostic], with the two positions of its range. *)
Record Diagnostic : Type := {
  d_startLine : nat;
  d_startCharacter : nat;
  d_endLine : nat;
  d_endCharacter : nat;
  d_message : str;
  d_severity : DiagnosticSeverity;
  d_code : str;
  d_source : str
}.

(** [l.map(f)], for an [f] that may leave the model. *)
Fixpoint map_opt {A B : Type} (f : A -> option B) (l : list A)
  : option (list B) :=
  match l with
  | [] => Some []
  | x :: l' => y <- f x ;; ys <- map_opt f l' ;; Some (y :: ys)
  end.

Section Document.

(** The lines of the document as the editor counts them
    ([document.lineCount], at least one, and [document.lineAt(n).text]). *)
Variable lineCount : nat.
Variable lineAt : nat -> str.

(** [createDiagnosticFromViolation] for a violation without a [line],
    which no rule sets. *)
Definition createDiagnosticFromViolation (text : str) (violation : RuleViolation)
  : option Diagnostic :=
  line <- match path violation with
          | [] => Some 0
          | _ :: _ => findLineByPath text (path violation)
          end ;;
  Some {| d_startLine := line;
          d_startCharacter := 0;
          d_endLine := line;
          d_endCharacter := length (lineAt (Nat.min line (lineCount - 1)));
          d_message := message violation;
          d_severity := mapSeverity (severity violation);
          d_code := ruleId violation;
          d_source := "LookML Linter" |}.

(** [processRulesAndCreateDiagnostics]. *)
Definition processRulesAndCreateDiagnostics (text : str)
           (parsedLookML : ParsedLookML) (enabledRules : list str)
  : option (list Diagnostic) :=
  map_opt (createDiagnosticFromViolation text)
          (applyRules parsedLookML enabledRules).

(** [parseLookML], the call into the [lookml-parser] package: [None] is
    a rejected or [null] result. *)
Variable parseLookML : str -> option ParsedLookML.

(** [getLookMLDiagnostics], the two lists of rule names being those of
    the configuration; [None] when the model of the fallback parser is
    needed and [Parser.fallback] has none, or a path is read as pattern
    syntax. *)
Definition getLookMLDiagnostics (content : str)
           (enabledRules disabledRules : list str) : option (list Diagnostic) :=
  let active := activeRules enabledRules disabledRules in
  match parseLookML content with
  | Some lookmlData => processRulesAndCreateDiagnostics content lookmlData active
  | None =>
      fallbackData <- Parser.fallback content ;;
      processRulesAndCreateDiagnostics content fallbackData active
  end.

End Document.

End Diagnostics.

(* ================================================================== *)
(** * Notions used to state the properties *)
(* ================================================================== *)

Module Spec.

Import Js Regex Model Rules.

(** The least number of characters a match of [r] consumes. *)
Fixpoint min_length (r : regex) : nat :=
  match r with
  | Eps | Look _ | Bol | Eol | WordB => 0
  | Chr _ | Cls _ => 1
  | Seq r1 r2 => min_length r1 + min_length r2
  | Alt r1 r2 => Nat.min (min_length r1) (min_length r2)
  | Rep _ min r1 => min * min_length r1
  | Grp _ r1 => min_length r1
  end.

(** [reaches n s s']: [s'] lies at least [n] characters after [s] in the
    same input. *)
Definition reaches (n : nat) (s s' : mstate) : Prop :=
  exists taken,
    m_rest s = taken ++ m_rest s' /\
    m_pos s' = m_pos s + length taken /\
    n <= length taken.

(** What a matcher owes: whenever it succeeds, its continuation succeeded
    at a state at least [n] characters further. *)
Definition forward (n : nat)
           (m : (mstate -> option mstate) -> mstate -> option mstate) : Prop :=
  forall k s e, m k s = Some e -> exists s', reaches n s s' /\ k s' = Some e.


Definition succeeds {A : Type} (o : option A) : bool :=
  match o with Some _ => true | None => false end.

(** *** Rule K1 *)

(** A name of the form [pk], [pk1], [pk22], ... in any letter case: what
    [^pk\d*$] with the [i] flag stands for. *)
Definition is_pk_name (name : str) : bool :=
  match name with
  | p :: k :: ds =>
      (ceq p "p" || ceq p "P") && (ceq k "k" || ceq k "K") && forallb isDigit ds
  | _ => false
  end.

(** The names of the dimensions of a view marked as primary key. *)
Definition primary_key_names (view : LookMLView) : list str :=
  map fst (filter (fun entry => is_primary_key (snd entry))
                  (or_empty (dimensions view))).

(** What rule K1 has to report for one view. *)
Definition k1_expected (viewName : str) (view : LookMLView) : list RuleViolation :=
  if has_table view then
    match primary_key_names view with
    | [] => [k1_missing viewName]
    | names =>
        map (k1_naming viewName) (filter (fun n => negb (is_pk_name n)) names)
    end
  else [].

(** The text of an optional property, empty when it is absent. *)
Definition content_of (s : option str) : str :=
  match s with Some text => text | None => [] end.

(** *** Rule E1 *)

(** The texts [checkJoinReferences] takes for direct table references in
    the [sql_on] of a join: the matches of its pattern in the cleaned text
    that do not start with [safe.]. *)
Definition direct_references (sql : str) : list str :=
  filter (fun reference => negb (startsWith reference "safe."))
         (map r_text (exec_matches directTablePattern (cleanSql sql))).

Definition e1_join_expected (exploreName joinName : str) (join : LookMLJoin)
  : list RuleViolation :=
  map (e1_violation exploreName joinName)
      (direct_references (content_of (sql_on join))).

Definition e1_expected (exploreName : str) (explore : LookMLExplore)
  : list RuleViolation :=
  flat_map (fun entry => e1_join_expected exploreName (fst entry) (snd entry))
           (or_empty (joins explore)).

(** The pattern [identifier.identifier] of the specification, an
    identifier being a run of letters, digits and underscores. *)
Definition identifierPairPattern : regex :=
  seqs [plus word; Chr "."; plus word].

(** *** Rule F1 *)

(** The references [${view.field}] of a text to another view, as pairs. *)
Definition cross_references (text viewName : str) : list (str * str) :=
  filter (fun r => negb (seq_eqb (fst r) viewName) &&
                   negb (seq_eqb (fst r) "TABLE"))
         (map (fun m => (group 1 m, group 2 m))
              (exec_matches crossViewPattern text)).

Definition dotted (r : str * str) : str := fst r ++ "." ++ snd r.

(** What rule F1 has to report for one field: first the references of its
    [sql], then those of its [html]. *)
Definition f1_field_expected (viewName fieldType fieldName : str)
           (field : LookMLField) : list RuleViolation :=
  map (fun r => f1_sql fieldType fieldName viewName (dotted r))
      (cross_references (content_of (f_sql field)) viewName) ++
  map (fun r => f1_html fieldType fieldName viewName (dotted r))
      (cross_references (content_of (f_html field)) viewName).

Definition f1_fields_expected (viewName fieldType : str)
           (fields : option (obj LookMLField)) : list RuleViolation :=
  flat_map (fun entry => f1_field_expected viewName fieldType (fst entry) (snd entry))
           (or_empty fields).

Definition f1_expected (viewName : str) (view : LookMLView) : list RuleViolation :=
  if has_table view then
    f1_fields_expected viewName "dimension" (dimensions view) ++
    f1_fields_expected viewName "dimension_group" (dimension_groups view) ++
    f1_fields_expected viewName "measure" (measures view) ++
    f1_fields_expected viewName "filter" (filters view)
  else [].

(** *** The rule engine *)

(** What one entry of the list of enabled rules adds to the result. *)
Definition contribution (table : str -> lookup) (lookml : ParsedLookML)
           (ruleName : str) : list RuleViolation :=
  match table ruleName with
  | Rule r =>
      match check r lookml with
      | Returns violations => violations
      | Throws => []
      end
  | Inherited | Undefined => []
  end.

(** The three collections of the result of the fallback parser are
    there. *)
Definition collections_present (result : Parser.SimpleLookML) : Prop :=
  exists vs es ms,
    result = {| Parser.s_views := Some vs; Parser.s_explores := Some es;
                Parser.s_models := Some ms |}.

(** How many times a name occurs in a list of names. *)
Definition occurrences (ruleName : str) (ruleNames : list str) : nat :=
  length (filter (seq_eqb ruleName) ruleNames).

(** *** Examples of the specification *)

(** A view [users] on a table, with one dimension marked as primary
    key. *)
Definition view_with_primary_key (dimName : str) : ParsedLookML :=
  {| views :=
       Some [("users" : str,
              {| view_name_ := Some ("users" : str);
                 sql_table_name := Some ("public.users" : str);
                 derived_table := None;
                 dimensions :=
                   Some [(dimName,
                          {| f_name := Some dimName;
                             f_type := Some ("number" : str);
                             f_sql := Some ("${TABLE}.id" : str);
                             f_primary_key := Some true;
                             f_html := None; f_label := None;
                             f_description := None |})];
                 dimension_groups := None; measures := None;
                 filters := None |})];
     explores := None; models := None |}.

(** An explore [orders] with one join [users]. *)
Definition explore_with_join (sqlOn : str) : ParsedLookML :=
  {| views := None;
     explores :=
       Some [("orders" : str,
              {| e_name := Some ("orders" : str); view_name := None;
                 joins :=
                   Some [("users" : str,
                          {| j_name := None; sql_on := Some sqlOn;
                             relationship := Some ("many_to_one" : str);
                             view_label := None |})] |})];
     models := None |}.

(** A view [orders] on a table, with one dimension [user_name]. *)
Definition view_with_dimension_sql (sql : str) : ParsedLookML :=
  {| views :=
       Some [("orders" : str,
              {| view_name_ := Some ("orders" : str);
                 sql_table_name := Some ("public.orders" : str);
                 derived_table := None;
                 dimensions :=
                   Some [("user_name" : str,
                          {| f_name := Some ("user_name" : str);
                             f_type := Some ("string" : str);
                             f_sql := Some sql;
                             f_primary_key := None;
                             f_html := None; f_label := None;
                             f_description := None |})];
                 dimension_groups := None; measures := None;
                 filters := None |})];
     explores := None; models := None |}.

(** *** The SQL normalizer, step by step *)

Definition is_space_at (s : str) : bool :=
  match s with
  | c :: _ => isSpace c
  | [] => false
  end.

(** [s] starts with [K], letter case apart. *)
Fixpoint ci_prefix (K s : str) : bool :=
  match K, s with
  | [], _ => true
  | k :: K', x :: s' => ceq (upper k) (upper x) && ci_prefix K' s'
  | _ :: _, [] => false
  end.

(** The first occurrence of the word [K] in [s], in any letter case and
    not next to another word character, is replaced by [K]; [prevWord]
    tells whether the character before [s] is a word character. *)
Fixpoint upcase_word (K : str) (prevWord : bool) (s : str) : str :=
  match s with
  | [] => []
  | c :: s' =>
      if negb prevWord && ci_prefix K s &&
         negb (is_word_at (skipn (length K) s))
      then K ++ skipn (length K) s
      else c :: upcase_word K (isWord c) s'
  end.

(** The same for two words [K1] and [K2] separated by white space, which
    are replaced by [K1], one space, [K2]. *)
Fixpoint upcase_pair (K1 K2 : str) (prevWord : bool) (s : str) : str :=
  match s with
  | [] => []
  | c :: s' =>
      let after1 := skipn (length K1) s in
      let after2 := skipn (length K2) (trimStart after1) in
      if negb prevWord && ci_prefix K1 s && is_space_at after1 &&
         ci_prefix K2 (trimStart after1) && negb (is_word_at after2)
      then K1 ++ " " ++ K2 ++ after2
      else c :: upcase_pair K1 K2 (isWord c) s'
  end.

(** The step of the normalizer for one keyword of the list. *)
Definition upcase_keyword (keyword : str) (s : str) : str :=
  match Formatter.split_space [] keyword with
  | K1 :: K2 :: _ => upcase_pair K1 K2 false s
  | _ => upcase_word keyword false s
  end.

Definition isOp (c : ascii) : bool := existsb (ceq c) "<>=!".

(** [<], [>] and [=]: the operator characters that may follow an
    operator character without a space. *)
Definition isCmp (c : ascii) : bool := existsb (ceq c) "=<>".

(** A space is put after an operator character followed by anything but
    [=], [<], [>] and white space; the character after the space is not
    looked at again. *)
Fixpoint space_after (s : str) : str :=
  match s with
  | [] => []
  | c :: s' =>
      match s' with
      | [] => [c]
      | d :: rest =>
          if isOp c && negb (isCmp d || isSpace d)
          then c :: " "%char :: d :: space_after rest
          else c :: space_after s'
      end
  end.

(** A space is put before an operator character that follows a character
    which is neither white space nor an operator character. *)
Fixpoint space_before (s : str) : str :=
  match s with
  | [] => []
  | x :: s' =>
      match s' with
      | [] => [x]
      | o :: rest =>
          if negb (isSpace x || isOp x) && isOp o
          then x :: " "%char :: o :: space_before rest
          else x :: space_before s'
      end
  end.

(** A run of two or more white space characters becomes one space;
    [inRun] holds inside a run that is being replaced. *)
Fixpoint collapse (inRun : bool) (s : str) : str :=
  match s with
  | [] => []
  | c :: s' =>
      if inRun then
        if isSpace c then collapse true s' else c :: collapse false s'
      else if isSpace c && is_space_at s' then " "%char :: collapse true s'
      else c :: collapse false s'
  end.

(** What the normalizer does to a line, told step by step. *)
Definition normalize_sql (line : str) : str :=
  collapse false
    (space_before
       (space_after
          (fold_left (fun s (keyword : string) => upcase_keyword keyword s)
                     Formatter.sqlKeywords line))).




(** [s] cut at every character that is not a word character: the
    maximal runs of word characters, the empty ones included. *)
Fixpoint fields (s : str) : list str :=
  match s with
  | [] => [[]]
  | c :: s' =>
      if isWord c then
        match fields s' with
        | w :: ws => (c :: w) :: ws
        | [] => [[c]]
        end
      else [] :: fields s'
  end.

Definition nonempty (w : str) : bool :=
  match w with
  | [] => false
  | _ :: _ => true
  end.

(** The words of a line: what a pattern between two word boundaries can
    match as a whole. *)
Definition words (s : str) : list str := filter nonempty (fields s).

(** The run of word characters at the start of [s]. *)
Definition first_field (s : str) : str := hd [] (fields s).

(** The words of [s] that start after its first character that is not a
    word character. *)
Definition later_words (s : str) : list str :=
  filter nonempty (tl (fields s)).

(** The words of [s] that start in [s]: the first run is left out when
    the character before [s] is a word character. *)
Definition open_words (prevWord : bool) (s : str) : list str :=
  (if prevWord then [] else filter nonempty [first_field s]) ++ later_words s.

(** [w'] is [w], or [w] in upper case. *)
Definition upcased (w w' : str) : Prop := w' = w \/ w' = toUpperCase w.

(** [t] has the words of [s], some of them in upper case. *)
Definition same_words (s t : str) : Prop :=
  Forall2 upcased (words s) (words t).

(** The same, the first run of word characters being compared also when
    it is empty, and unchanged when [locked]. *)
Definition same_fields (locked : bool) (s t : str) : Prop :=
  (if locked then first_field t = first_field s
   else upcased (first_field s) (first_field t)) /\
  Forall2 upcased (later_words s) (later_words t).

Definition is_single_word (keyword : str) : bool :=
  negb (existsb (ceq " ") keyword).

Definition single_word_keywords : list str :=
  filter is_single_word (strs Formatter.sqlKeywords).



(** *** The patterns of the normalizer, read as functions *)

(** The matcher state after [n] more characters have been consumed. *)
Definition advance_by (n : nat) (s : mstate) : mstate :=
  MState (rev (firstn n (m_rest s)) ++ m_prev s) (skipn n (m_rest s))
         (m_pos s + n) (m_caps s).

(** A word of a keyword: upper case letters, at least one. *)
Definition keyword_word (K : str) : bool :=
  negb (length K =? 0) && forallb isUpper K.

(** Where a match starts and where it ends. *)
Definition ends (m : rmatch_result) : nat * nat := (r_index m, r_end m).

(** The length of the match of the word [K] between two word boundaries
    at the start of [rest], [prev] being the text before it, last
    character first. *)
Definition word_match (K prev rest : str) : option nat :=
  if negb (is_word_at prev) && ci_prefix K rest &&
     negb (is_word_at (skipn (length K) rest))
  then Some (length K) else None.

(** The leftmost place where [found] answers is replaced by [repl]. *)
Fixpoint first_replace (found : str -> str -> option nat) (repl : str)
         (prev rest : str) : str :=
  match found prev rest with
  | Some n => repl ++ skipn n rest
  | None =>
      match rest with
      | [] => []
      | c :: rest' => c :: first_replace found repl (c :: prev) rest'
      end
  end.

(** The length of the white space at the start of [s]. *)
Fixpoint ws_run (s : str) : nat :=
  match s with
  | c :: s' => if isSpace c then S (ws_run s') else 0
  | [] => 0
  end.

(** The same for the words [K1] and [K2] with white space between them. *)
Definition pair_match (K1 K2 prev rest : str) : option nat :=
  let after1 := skipn (length K1) rest in
  if negb (is_word_at prev) && ci_prefix K1 rest && is_space_at after1 &&
     ci_prefix K2 (trimStart after1) &&
     negb (is_word_at (skipn (length K2) (trimStart after1)))
  then Some (length K1 + ws_run after1 + length K2) else None.

(** What the keywords of the list have in common: one or two words in
    upper case, two words being separated by one space. *)
Definition keyword_ok (keyword : str) : bool :=
  match Formatter.split_space [] keyword with
  | K1 :: K2 :: _ =>
      keyword_word K1 && keyword_word K2 && seq_eqb keyword (K1 ++ " " ++ K2)
  | _ => keyword_word keyword
  end.

(** *** The words of a line and what stands between them *)
















(** The replacement of the two operator patterns: the two groups with a
    space between them. *)
Definition spaced : list rpiece := [RGrp 1; RLit " "; RGrp 2].

(** *** Documents *)

(** Four spaces for a level, fields grouped and sorted: the configuration
    of the test suite of the formatter. *)
Definition grouped_and_sorted : Formatter.Config :=
  {| Formatter.indentSize := 4; Formatter.useSpaces := true;
     Formatter.groupFieldsByType := true; Formatter.sortFields := true |}.

(** A collation for the examples: code unit order, the first difference
    deciding. *)
Fixpoint codeUnitCompare (a b : str) : comparison :=
  match a, b with
  | [], [] => Eq
  | [], _ :: _ => Lt
  | _ :: _, [] => Gt
  | x :: a', y :: b' =>
      match Nat.compare (code x) (code y) with
      | Eq => codeUnitCompare a' b'
      | c => c
      end
  end.

(** A collation that orders [apple] before [zebra] and follows
    [localeCompare] on every other pair. *)
Definition apple_before_zebra (localeCompare : str -> str -> comparison)
           (a b : str) : comparison :=
  if seq_eqb a "apple" && seq_eqb b "zebra" then Lt
  else if seq_eqb a "zebra" && seq_eqb b "apple" then Gt
  else localeCompare a b.

(** A view with a measure and a dimension, from the test suite. *)
Definition measure_then_dimension : str :=
  "view: multiple_format_test {
measure: count {
type:count
}
dimension: id {
type:number
}
}".

Definition measure_then_dimension_formatted : str :=
  "view: multiple_format_test {

    # ----- Dimensions -----

    dimension: id {
        type: number
    }
    # ----- End of Dimensions -----
    # ----- Measures -----

    measure: count {
        type: count
    }
    # ----- End of Measures -----
}".

Definition measure_then_dimension_formatted_twice : str :=
  "view: multiple_format_test {

    # ----- Dimensions -----

    dimension: id {
        type: number
    }
    # ----- End of Dimensions -----
    # ----- Measures -----

    # ----- End of Dimensions -----
    # ----- Measures -----
    measure: count {
        type: count
    }
    # ----- End of Measures -----
}".

(** A derived table whose SQL has liquid tags, from the test suite. *)
Definition liquid_in_derived_table : str :=
  "view: liquid_template_test {
derived_table: {
sql:
select
orders.id,
orders.created_at
from orders
where 
{% if order_date._is_filtered %}
${TABLE}.created_at >= {% date_start order_date %} 
and ${TABLE}.created_at <= {% date_end order_date %}
{% else %}
${TABLE}.created_at >= dateadd(month, -1, current_date())
{% endif %}
;;
}

dimension: id {
type: number
sql: ${TABLE}.id ;;
}
}".

Definition liquid_in_derived_table_formatted : str :=
  "view: liquid_template_test {
    derived_table: {
    sql:
            SELECT
                orders.id,
                orders.created_at
            FROM orders
            WHERE
                {% if order_date._is_filtered %}
                ${TABLE}.created_at >= {% date_start order_date %}
                AND ${TABLE}.created_at <= {% date_end order_date %}
                {% ELSE %}
                ${TABLE}.created_at >= dateadd(month, -1, current_date())
                {% endif %}
        ;;
}

    # ----- Dimensions -----

    dimension: id {
        type: number
        sql: ${TABLE}.id ;;
    }
    # ----- End of Dimensions -----
}".

(** A dimension whose SQL refers to a field named [from]. *)
Definition substitution_in_dimension : str :=
  "view: v {
dimension: d {
sql:
${orders.from} = 1
;;
}
}".

Definition substitution_in_dimension_formatted : str :=
  "view: v {

    # ----- Dimensions -----

    dimension: d {
        sql: 
                ${orders.FROM} = 1
        ;;
    }
    # ----- End of Dimensions -----
}".

(** The three fields of the grouping example, and the view made of a
    list of fields. *)
Definition total_sales_measure : list str :=
  strs ["measure: total_sales {"; "type: sum"; "}"]%string.

Definition zebra_dimension : list str :=
  strs ["dimension: zebra {"; "type: string"; "}"]%string.

Definition apple_dimension : list str :=
  strs ["dimension: apple {"; "type: string"; "}"]%string.

Definition sales_view (fields : list (list str)) : str :=
  join [nl] (("view: sales {" : str) :: concat fields ++ [("}" : str)]).

Definition sales_view_formatted : str :=
  "view: sales {

    # ----- Dimensions -----

    dimension: apple {
        type: string
    }

    dimension: zebra {
        type: string
    }
    # ----- End of Dimensions -----
    # ----- Measures -----

    measure: total_sales {
        type: sum
    }
    # ----- End of Measures -----
}".

(** A view with a field of each kind, the kinds in reverse order. *)
Definition every_kind_of_field : str :=
  "view: all {
measure: m {
type: sum
}
dimension_group: created {
type: time
}
dimension: zebra {
type: string
}
parameter: p {
type: string
}
filter: f {
type: string
}
}".

Definition every_kind_of_field_formatted : str :=
  "view: all {

    # ----- Filters -----

    filter: f {
        type: string
    }
    # ----- End of Filters -----
    # ----- Parameters -----

    parameter: p {
        type: string
    }
    # ----- End of Parameters -----
    # ----- Dimensions -----

    dimension: zebra {
        type: string
    }

    dimension_group: created {
        type: time
    }
    # ----- End of Dimensions -----
    # ----- Measures -----

    measure: m {
        type: sum
    }
    # ----- End of Measures -----
}".

(** A view with one dimension, to stand before the view [sales]. *)
Definition customers_view : str :=
  "view: customers {
dimension: id {
type: number
}
}".

Definition customers_view_formatted : str :=
  "view: customers {

    # ----- Dimensions -----

    dimension: id {
        type: number
    }
    # ----- End of Dimensions -----
}".

(** The view [sales] as it is written after the view [customers]. *)
Definition sales_view_after_customers : str :=
  "view: sales {


    dimension: apple {
        type: string
    }

    dimension: zebra {
        type: string
    }
    # ----- Measures -----

    measure: total_sales {
        type: sum
    }
    # ----- End of Measures -----
}".

(** A dimension group whose name comes first, and a dimension. *)
Definition group_and_dimension : str :=
  "view: events {
dimension_group: alpha {
type: time
}
dimension: beta {
type: string
}
}".

Definition group_and_dimension_formatted : str :=
  "view: events {

    # ----- Dimensions -----

    dimension: beta {
        type: string
    }

    dimension_group: alpha {
        type: time
    }
    # ----- End of Dimensions -----
}".

End Spec.


(* ================================================================== *)
(** * Notions used to state what the formatter keeps *)
(* ================================================================== *)

Module FormatterShapes.

Import Js Regex Formatter Spec.

(** The characters of [s] other than white space, in upper case. *)
Definition visible (s : str) : str :=
  toUpperCase (filter (fun c => negb (isSpace c)) s).

(** [r] with its literal characters in upper case. *)
Fixpoint upper_regex (r : regex) : regex :=
  match r with
  | Chr c => Chr (upper c)
  | Seq r1 r2 => Seq (upper_regex r1) (upper_regex r2)
  | Alt r1 r2 => Alt (upper_regex r1) (upper_regex r2)
  | Rep greedy min r1 => Rep greedy min (upper_regex r1)
  | Grp i r1 => Grp i (upper_regex r1)
  | Look r1 => Look (upper_regex r1)
  | Eps | Cls _ | Bol | Eol | WordB => r
  end.

(** A line of white space only. *)
Definition blank (s : str) : bool := forallb isSpace s.

(** What the simple formatter makes of one line: the empty line of a
    blank line, and a line that is not blank of any other. *)
Definition line_kept (line out : str) : Prop :=
  if blank line then out = [] else blank out = false.

(** The rewriting of a property value ending in the SQL terminator, as
    [formatLookMLProperty] does it. *)
Definition spaced_terminator (propValue : str) : str :=
  if endsWith propValue ";;" then
    if negb (endsWith propValue " ;;")
    then trim (dropEnd 2 propValue) ++ " ;;"
    else propValue
  else propValue.

(** A line that opens a block of type [view], as [parseViews] reads it. *)
Definition opens_view (line : str) : bool :=
  let trimmedLine := trim line in
  negb (length trimmedLine =? 0) && negb (startsWith trimmedLine "#") &&
  is_block_start trimmedLine &&
  seq_eqb (fst (block_type_and_name trimmedLine)) "view".

(** The views lie one after the other between the lines [from] and
    [bound] of the document: each has its end line, after its start line,
    the line it starts on for header and the line it ends on for footer,
    and the next one starts after that end. *)
Fixpoint view_ranges {F : Type} (lines : list str) (from : nat)
         (views : list (LookMLViewOf F)) (bound : nat) : Prop :=
  match views with
  | [] => from <= bound
  | view :: rest =>
      exists e, v_endLine view = Some e /\ from <= v_startLine view /\
                v_startLine view < e /\
                v_header view = [nth (v_startLine view) lines []] /\
                v_footer view = [nth e lines []] /\
                view_ranges lines (S e) rest bound
  end.

(** What the loop of [parseViews] knows of the views: those it has
    closed, and the start, the header and the footer of the one it is
    in. *)
Definition headline (st : PState)
  : list (LookMLViewOf nat) * option (nat * list str * list str) :=
  (p_views st,
   option_map (fun v => (v_startLine v, v_header v, v_footer v))
              (p_currentView st)).

(** A field as [parseViews] builds it from the [lines] of the document:
    of a field type, opened by one of the lines, which is the first it
    keeps, as it stands and with its opener formatted. *)
Definition proper_field (cfg : Config) (lines : list str) (field : LookMLBlock)
  : Prop :=
  isFieldType (b_type field) = true /\
  exists line rest restRaw,
    In line lines /\ is_block_start (trim line) = true /\
    b_type field = fst (block_type_and_name (trim line)) /\
    b_rawContent field = trim line :: restRaw /\
    b_content field =
      (ind cfg (b_indent field) ++ formatBlockOpener (trim line)) :: rest.

(** The line that opens a field, as [addFormattedFieldContent] writes
    it. *)
Definition opening_line (cfg : Config) (field : LookMLBlock) : str :=
  if groupFieldsByType cfg
  then ind cfg 1 ++ trimStart (hd [] (b_content field))
  else hd [] (b_content field).

(** [out] is what is written from line [currentLine] of the document on:
    for each view in turn the lines between the view before and this one
    as they stand, then the header of the view, what its body is
    formatted into, and its footer; at the end, the lines that follow the
    last view, as they stand. *)
Fixpoint outside_kept (lines : list str) (views : list LookMLView)
         (currentLine : nat) (out : list str) : Prop :=
  match views with
  | [] => out = skipn currentLine lines
  | view :: rest =>
      exists body out',
        out = lines_between currentLine (v_startLine view) lines ++
              v_header view ++ body ++ v_footer view ++ out' /\
        outside_kept lines rest (endLine_of view + 1) out'
  end.

End FormatterShapes.

(* ================================================================== *)
(** * Notions used to state what the linter reports *)
(* ================================================================== *)

Module LinterShapes.

Import Js Regex Model Rules Parser Diagnostics Spec.

(** The characters a match of [r] can go over. *)
Fixpoint allowed (icase : bool) (r : regex) (x : ascii) : Prop :=
  match r with
  | Chr c => char_eq icase c x = true
  | Cls p => p x = true
  | Seq r1 r2 | Alt r1 r2 => allowed icase r1 x \/ allowed icase r2 x
  | Rep _ _ r1 | Grp _ r1 => allowed icase r1 x
  | Eps | Look _ | Bol | Eol | WordB => False
  end.

(** [v] can be what group [j] holds after a match of [r]: the text one of
    the groups numbered [j] went over. *)
Fixpoint captured (icase : bool) (r : regex) (j : nat) (v : str) : Prop :=
  match r with
  | Grp i r1 =>
      (j = i /\ Forall (allowed icase r1) v /\ min_length r1 <= length v) \/
      captured icase r1 j v
  | Seq r1 r2 | Alt r1 r2 => captured icase r1 j v \/ captured icase r2 j v
  | Rep _ _ r1 | Look r1 => captured icase r1 j v
  | Eps | Chr _ | Cls _ | Bol | Eol | WordB => False
  end.

(** [s'] comes after [s] in the same input: the text between them is at
    least [n] characters of [P], and the captures added are of [C]. *)
Definition follows (P : ascii -> Prop) (C : nat -> str -> Prop) (n : nat)
           (s s' : mstate) : Prop :=
  exists taken added,
    m_rest s = taken ++ m_rest s' /\
    m_pos s' = m_pos s + length taken /\
    n <= length taken /\ Forall P taken /\
    m_caps s' = added ++ m_caps s /\
    Forall (fun entry => C (fst entry) (snd entry)) added.

(** What a match result owes to its pattern. *)
Definition match_of (icase : bool) (r : regex) (m : rmatch_result) : Prop :=
  Forall (allowed icase r) (r_text m) /\ min_length r <= length (r_text m) /\
  forall j v, get_cap j (r_caps m) = Some v -> captured icase r j v.

(** Every match of [r] leaves group [j] set. *)
Fixpoint sets (r : regex) (j : nat) : bool :=
  match r with
  | Grp i r1 => (j =? i) || sets r1 j
  | Seq r1 r2 => sets r1 j || sets r2 j
  | Alt r1 r2 => sets r1 j && sets r2 j
  | Rep _ min r1 => (0 <? min) && sets r1 j
  | Look r1 => sets r1 j
  | Eps | Chr _ | Cls _ | Bol | Eol | WordB => false
  end.

(** Group [j] is set at [s]. *)
Definition has_cap (j : nat) (s : mstate) : Prop :=
  get_cap j (m_caps s) <> None.

(** A name as the patterns of the parser read it: one word character or
    more. *)
Definition identifier (name : str) : Prop :=
  name <> [] /\ Forall (fun c => isWord c = true) name.

(** The entries of an object are stored under identifiers, no two under
    the same one, each value carrying the name it is stored under, and
    satisfying [P]. *)
Definition named {A : Type} (name_of : A -> option str) (P : A -> Prop)
           (o : obj A) : Prop :=
  NoDup (map fst o) /\
  Forall (fun entry => identifier (fst entry) /\
                       name_of (snd entry) = Some (fst entry) /\
                       P (snd entry)) o.

Definition fields_named (fields : option (obj LookMLField)) : Prop :=
  named f_name (fun _ => True) (or_empty fields).

(** The names of a parsed model, down to fields and joins. *)
Definition well_named (result : ParsedLookML) : Prop :=
  named view_name_
        (fun view =>
           fields_named (dimensions view) /\
           fields_named (dimension_groups view) /\
           fields_named (measures view) /\ fields_named (filters view))
        (or_empty (views result)) /\
  named e_name
        (fun explore => named j_name (fun _ => True) (or_empty (joins explore)))
        (or_empty (explores result)) /\
  named m_name (fun _ => True) (or_empty (models result)).

(** The four kinds of fields of a view the rules go through, each with
    the name the rules give it. *)
Definition field_kinds (view : LookMLView)
  : list (str * option (obj LookMLField)) :=
  [("dimension" : str, dimensions view);
   ("dimension_group" : str, dimension_groups view);
   ("measure" : str, measures view);
   ("filter" : str, filters view)].

(** The places of a model a path can name: a view, a dimension of a view,
    the [sql] or [html] of a field of a view, the [sql_on] of a join of
    an explore. *)
Inductive located (lookml : ParsedLookML) : list str -> Prop :=
| located_view viewName view :
    In (viewName, view) (or_empty (views lookml)) ->
    located lookml ["views" : str; viewName]
| located_dimension viewName view dimName :
    In (viewName, view) (or_empty (views lookml)) ->
    In dimName (map fst (or_empty (dimensions view))) ->
    located lookml ["views" : str; viewName; "dimensions" : str; dimName]
| located_property viewName view fieldType fields fieldName property :
    In (viewName, view) (or_empty (views lookml)) ->
    In (fieldType, fields) (field_kinds view) ->
    In fieldName (map fst (or_empty fields)) ->
    In property (strs ["sql"; "html"]%string) ->
    located lookml
            ["views" : str; viewName; fieldType ++ "s"; fieldName; property]
| located_join exploreName explore joinName :
    In (exploreName, explore) (or_empty (explores lookml)) ->
    In joinName (map fst (or_empty (joins explore))) ->
    located lookml
            ["explores" : str; exploreName; "joins" : str; joinName;
             "sql_on" : str].

(** What [createDiagnosticFromViolation] makes of a violation, but for
    the line, which [on_line] is about. *)
Definition reports (v : RuleViolation) (d : Diagnostic) : Prop :=
  d_message d = message v /\ d_code d = ruleId v /\
  d_severity d = mapSeverity (severity v) /\
  d_source d = ("LookML Linter" : str).

(** The range of the diagnostic is the whole of one line of the text. *)
Definition on_line (lineCount : nat) (lineAt : nat -> str) (text : str)
           (d : Diagnostic) : Prop :=
  d_startLine d < length (split_char nl [] text) /\
  d_endLine d = d_startLine d /\ d_startCharacter d = 0 /\
  d_endCharacter d = length (lineAt (Nat.min (d_startLine d) (lineCount - 1))).

End LinterShapes.

(* ================================================================== *)
(** * Properties *)
(* ================================================================== *)

(** ** The matcher only moves forward *)

Module RegexFacts.

Import Js Regex Spec.

Lemma reaches_refl s : reaches 0 s s.
Proof. exists []. simpl. repeat split; lia. Qed.

Lemma reaches_trans n1 n2 s1 s2 s3 :
  reaches n1 s1 s2 -> reaches n2 s2 s3 -> reaches (n1 + n2) s1 s3.
Proof.
  intros (t1 & R1 & P1 & L1) (t2 & R2 & P2 & L2).
  exists (t1 ++ t2). rewrite length_app, <- app_assoc, <- R2.
  repeat split; [assumption | lia | lia].
Qed.

Lemma reaches_weaken n m s s' : m <= n -> reaches n s s' -> reaches m s s'.
Proof. intros Hle (t & R & P & L). exists t. repeat split; [assumption | assumption | lia]. Qed.

Lemma reaches_advance x rest s :
  m_rest s = x :: rest -> reaches 1 s (advance x rest s).
Proof. intros H. exists [x]. simpl. rewrite H. repeat split; lia. Qed.

Lemma rep_loop_forward body greedy n0 :
  forward n0 body ->
  forall n need k s e,
    rep_loop body greedy k n need s = Some e ->
    exists s', reaches (need * n0) s s' /\ k s' = Some e.
Proof.
  intros Hbody. induction n as [| n IH]; intros need k s e H; [discriminate |].
  simpl in H. destruct need as [| need].
  - assert (Hagain :
      body (fun s1 => if m_pos s1 =? m_pos s then None
                      else rep_loop body greedy k n 0 s1) s = Some e ->
      exists s', reaches 0 s s' /\ k s' = Some e).
    { intros Ha. apply Hbody in Ha. destruct Ha as (s1 & R1 & K1).
      destruct (m_pos s1 =? m_pos s); [discriminate |].
      apply IH in K1. destruct K1 as (s2 & R2 & K2).
      exists s2. split; [| exact K2].
      apply (reaches_weaken (n0 + 0)); [lia |].
      eapply reaches_trans; eassumption. }
    assert (Hstop : k s = Some e -> exists s', reaches 0 s s' /\ k s' = Some e).
    { intros Hk. exists s. split; [apply reaches_refl | exact Hk]. }
    destruct greedy; unfold orelse in H.
    + destruct (body _ s) eqn:E; [inversion H; subst; auto | auto].
    + destruct (k s) eqn:E; [inversion H; subst; auto | auto].
  - apply Hbody in H. destruct H as (s1 & R1 & K1).
    apply IH in K1. destruct K1 as (s2 & R2 & K2).
    exists s2. split; [| exact K2].
    simpl. eapply reaches_trans; eassumption.
Qed.

Lemma rmatch_forward icase r : forward (min_length r) (rmatch icase r).
Proof.
  induction r as [| c | p | r1 IH1 r2 IH2 | r1 IH1 r2 IH2 | g min r1 IH1
                  | i r1 IH1 | r1 IH1 | | |];
    intros k s e H; cbn [rmatch] in H; cbn [min_length].
  - exists s. split; [apply reaches_refl | exact H].
  - destruct (m_rest s) as [| x rest] eqn:E; [discriminate |].
    destruct (char_eq icase c x); [| discriminate].
    exists (advance x rest s). split; [apply reaches_advance; exact E | exact H].
  - destruct (m_rest s) as [| x rest] eqn:E; [discriminate |].
    destruct (p x); [| discriminate].
    exists (advance x rest s). split; [apply reaches_advance; exact E | exact H].
  - apply IH1 in H. destruct H as (s1 & R1 & K1).
    apply IH2 in K1. destruct K1 as (s2 & R2 & K2).
    exists s2. split; [eapply reaches_trans; eassumption | exact K2].
  - unfold orelse in H. destruct (rmatch icase r1 k s) eqn:E.
    + inversion H; subst. apply IH1 in E. destruct E as (s1 & R1 & K1).
      exists s1. split; [| exact K1]. eapply reaches_weaken; [| exact R1]. lia.
    + apply IH2 in H. destruct H as (s1 & R1 & K1).
      exists s1. split; [| exact K1]. eapply reaches_weaken; [| exact R1]. lia.
  - exact (rep_loop_forward _ g _ IH1 _ _ _ _ _ H).
  - apply IH1 in H. destruct H as (s1 & R1 & K1).
    eexists. split; [| exact K1].
    destruct R1 as (t & R & P & L). exists t. simpl. auto.
  - destruct (rmatch icase r1 Some s) as [s1 |]; [| discriminate].
    eexists. split; [| exact H]. exists []. simpl. repeat split; lia.
  - destruct (m_prev s); [| discriminate].
    exists s. split; [apply reaches_refl | exact H].
  - destruct (m_rest s); [| discriminate].
    exists s. split; [apply reaches_refl | exact H].
  - destruct (xorb _ _); [| discriminate].
    exists s. split; [apply reaches_refl | exact H].
Qed.

(** A match found at a position ends no earlier than [min_length r]
    characters later, and inside the input. *)
Lemma match_here_bounds icase r prev rest pos m :
  match_here icase r prev rest pos = Some m ->
  r_index m = pos /\ pos + min_length r <= r_end m /\
  r_end m <= pos + length rest.
Proof.
  unfold match_here. intros H.
  destruct (rmatch icase r Some _) as [e |] eqn:E; [| discriminate].
  inversion H; subst; clear H. simpl.
  apply rmatch_forward in E. destruct E as (s' & (t & R & P & L) & K).
  inversion K; subst. simpl in *. rewrite P.
  assert (length rest = length t + length (m_rest e))
    by (rewrite R, length_app; reflexivity).
  repeat split; lia.
Qed.

Lemma search_from_bounds icase r rest : forall prev pos m,
  search_from icase r prev rest pos = Some m ->
  pos <= r_index m /\ r_index m + min_length r <= r_end m /\
  r_end m <= pos + length rest.
Proof.
  induction rest as [| x rest IH]; intros prev pos m H;
    cbn [search_from] in H.
  - destruct (match_here icase r prev [] pos) eqn:E; [| discriminate].
    inversion H; subst. apply match_here_bounds in E. cbn [length] in *. lia.
  - destruct (match_here icase r prev (x :: rest) pos) eqn:E.
    + inversion H; subst. apply match_here_bounds in E. cbn [length] in *. lia.
    + apply IH in H. cbn [length]. lia.
Qed.

(** A loop over [exec] ends when the pattern cannot match the empty
    string. *)
Lemma exec_loop_total icase r :
  1 <= min_length r ->
  forall n prev rest pos,
    length rest < n -> exec_loop icase r n prev rest pos <> None.
Proof.
  intros Hmin. induction n as [| n IH]; intros prev rest pos Hn; [lia |].
  cbn [exec_loop]. destruct (search_from icase r prev rest pos) as [m |] eqn:E;
    [| discriminate].
  apply search_from_bounds in E.
  destruct (r_end m =? pos) eqn:Epos; [apply Nat.eqb_eq in Epos; lia |].
  specialize (IH (rev (firstn (r_end m - pos) rest) ++ prev)
                 (skipn (r_end m - pos) rest) (r_end m)).
  destruct (exec_loop icase r n _ _ _); [discriminate |].
  exfalso. apply IH; [| reflexivity].
  rewrite length_skipn. lia.
Qed.

Lemma exec_all_total icase r s :
  1 <= min_length r -> exists ms, exec_all icase r s = Some ms.
Proof.
  intros Hmin. unfold exec_all.
  destruct (exec_loop icase r (S (length s)) [] s 0) eqn:E; [eauto |].
  exfalso. revert E. apply exec_loop_total; [exact Hmin | lia].
Qed.

Lemma min_length_seqs_cons r rs :
  min_length r <= min_length (seqs (r :: rs)).
Proof. destruct rs; simpl; lia. Qed.

Lemma min_length_seqs_skip r r' rs :
  min_length (seqs (r' :: rs)) <= min_length (seqs (r :: r' :: rs)).
Proof. simpl. lia. Qed.

End RegexFacts.

(** ** Patterns anchored at both ends *)

Module AnchoredFacts.

Import Js Regex Spec.

(** With the [i] flag a lower-case ASCII letter of a pattern stands for
    itself and its capital. *)
Lemma char_eq_icase_p x : char_eq true "p" x = ceq x "p" || ceq x "P".
Proof. destruct x as [[] [] [] [] [] [] [] []]; reflexivity. Qed.

Lemma char_eq_icase_k x : char_eq true "k" x = ceq x "k" || ceq x "K".
Proof. destruct x as [[] [] [] [] [] [] [] []]; reflexivity. Qed.

(** [^] fails everywhere but at the start of the input. *)
Lemma search_from_bol_later icase r rest : forall x prev pos,
  search_from icase (Seq Bol r) (x :: prev) rest pos = None.
Proof.
  induction rest as [| y rest IH]; intros x prev pos.
  - reflexivity.
  - cbn [search_from]. unfold match_here at 1. cbn [rmatch m_prev]. apply IH.
Qed.

Lemma test_anchored icase r s :
  test icase (Seq Bol r) s = succeeds (rmatch icase r Some (MState [] s 0 [])).
Proof.
  unfold test, search. destruct s as [| x s].
  - cbn [search_from]. unfold match_here. cbn [rmatch m_prev].
    destruct (rmatch icase r Some _); reflexivity.
  - cbn [search_from]. unfold match_here at 1. cbn [rmatch m_prev].
    destruct (rmatch icase r Some _); [reflexivity |].
    rewrite search_from_bol_later. reflexivity.
Qed.

(** A greedy [p*] followed by [$] succeeds exactly when all that is left
    is in [p]. *)
Lemma star_class_eol icase p rest : forall prev pos caps n,
  length rest < n ->
  succeeds (rep_loop (rmatch icase (Cls p)) true (rmatch icase Eol Some) n 0
              (MState prev rest pos caps)) = forallb p rest.
Proof.
  induction rest as [| x rest IH]; intros prev pos caps n Hn;
    (destruct n as [| n]; [cbn [length] in Hn; lia |]).
  - reflexivity.
  - cbn [rep_loop rmatch m_rest m_pos advance forallb length] in *.
    destruct (p x); cbn [andb orelse].
    + replace (S pos =? pos) with false by (symmetry; apply Nat.eqb_neq; lia).
      specialize (IH (x :: prev) (S pos) caps n ltac:(lia)).
      unfold advance; cbn [m_prev m_caps m_pos].
      destruct (rep_loop _ _ _ _ _ _); exact IH.
    + reflexivity.
Qed.

End AnchoredFacts.

(** ** Loops that push onto an array *)

Module LoopFacts.

(** A loop whose body appends to the accumulator appends the pieces in
    turn. *)
Lemma fold_left_appends {A B : Type} (step : list B -> A -> list B)
      (piece : A -> list B) :
  (forall acc x, step acc x = acc ++ piece x) ->
  forall l acc, fold_left step l acc = acc ++ flat_map piece l.
Proof.
  intros Hstep. induction l as [| x l IH]; intros acc; cbn [fold_left flat_map].
  - symmetry. apply app_nil_r.
  - rewrite IH, Hstep, app_assoc. reflexivity.
Qed.

Lemma fold_left_push_if {A B : Type} (keep : A -> bool) (item : A -> B) l :
  forall acc,
    fold_left (fun acc x => if keep x then acc ++ [item x] else acc) l acc =
    acc ++ map item (filter keep l).
Proof.
  induction l as [| x l IH]; intros acc; cbn [fold_left filter].
  - symmetry. apply app_nil_r.
  - rewrite IH. destruct (keep x); [| reflexivity].
    cbn [map]. rewrite <- app_assoc. reflexivity.
Qed.

Lemma filter_map_swap {A B : Type} (f : A -> B) (keep : B -> bool) l :
  filter keep (map f l) = map f (filter (fun x => keep (f x)) l).
Proof.
  induction l as [| x l IH]; cbn [map filter]; [reflexivity |].
  destruct (keep (f x)); cbn [map]; rewrite IH; reflexivity.
Qed.

Lemma fold_left_ext {A B : Type} (f g : B -> A -> B) :
  (forall acc x, f acc x = g acc x) ->
  forall l acc, fold_left f l acc = fold_left g l acc.
Proof.
  intros H. induction l as [| x l IH]; intros acc; cbn [fold_left];
    [reflexivity | rewrite H; apply IH].
Qed.

Lemma flat_map_singleton {A B : Type} (f : A -> B) l :
  flat_map (fun x => [f x]) l = map f l.
Proof.
  induction l as [| x l IH]; cbn [flat_map map app];
    [reflexivity | rewrite IH; reflexivity].
Qed.

Lemma flat_map_nil {A B : Type} (f : A -> list B) l :
  (forall x, In x l -> f x = []) -> flat_map f l = [].
Proof.
  induction l as [| x l IH]; intros H; cbn [flat_map]; [reflexivity |].
  rewrite (H x (or_introl eq_refl)), IH; [reflexivity |].
  intros y Hy. apply H. right. exact Hy.
Qed.

End LoopFacts.

(** ** The rules *)

Module RulesFacts.

Import Js Regex Model Rules Spec RegexFacts AnchoredFacts LoopFacts.

Lemma seq_eqb_eq a : forall b, seq_eqb a b = true <-> a = b.
Proof.
  induction a as [| x a IH]; intros [| y b]; cbn [seq_eqb]; split;
    try discriminate; try reflexivity.
  - intros H. apply andb_true_iff in H. destruct H as [Hc Ha].
    apply Ascii.eqb_eq in Hc. apply IH in Ha. subst. reflexivity.
  - intros H. inversion H; subst. apply andb_true_iff. split.
    + apply Ascii.eqb_refl.
    + apply IH. reflexivity.
Qed.

Lemma seq_eqb_refl a : seq_eqb a a = true.
Proof. apply seq_eqb_eq. reflexivity. Qed.

(** The pattern of rule K1 accepts the names [pk], [pk1], ... in any
    letter case and nothing else. *)
Lemma pkNamePattern_spec name : test true pkNamePattern name = is_pk_name name.
Proof.
  unfold pkNamePattern. cbn [seqs lit list_ascii_of_string].
  rewrite test_anchored.
  destruct name as [| p [| k ds]]; [reflexivity | |].
  - cbn [rmatch m_rest is_pk_name]. destruct (char_eq true "p" p); reflexivity.
  - cbn [rmatch m_rest advance m_prev m_pos m_caps is_pk_name].
    rewrite char_eq_icase_p. destruct (ceq p "p" || ceq p "P"); [| reflexivity].
    rewrite char_eq_icase_k. destruct (ceq k "k" || ceq k "K"); [| reflexivity].
    cbn [andb].
    change (succeeds
              (rep_loop (rmatch true (Cls isDigit)) true (rmatch true Eol Some)
                 (S (length ds)) 0 (MState [k; p] ds 2 [])) =
            forallb isDigit ds).
    apply star_class_eol. lia.
Qed.

(** *** K1 *)

Lemma k1_view_appends viewName view violations :
  k1_view viewName view violations = violations ++ k1_expected viewName view.
Proof.
  unfold k1_view, k1_expected, primary_key_names.
  destruct (has_table view); cbn [negb]; [| symmetry; apply app_nil_r].
  destruct (filter _ (or_empty (dimensions view))) as [| e pks] eqn:E.
  - reflexivity.
  - cbn [length Nat.eqb].
    change (map fst (e :: pks)) with (fst e :: map fst pks).
    rewrite (fold_left_push_if
               (fun entry => negb (test true pkNamePattern (fst entry)))
               (fun entry => k1_naming viewName (fst entry))).
    f_equal.
    change (fst e :: map fst pks) with (map fst (e :: pks)).
    rewrite filter_map_swap, map_map.
    f_equal. apply filter_ext. intros a. rewrite pkNamePattern_spec. reflexivity.
Qed.

Lemma checkPrimaryKeys_spec lookml :
  checkPrimaryKeys lookml =
  flat_map (fun entry => k1_expected (fst entry) (snd entry))
           (or_empty (views lookml)).
Proof.
  unfold checkPrimaryKeys. destruct (views lookml) as [vs |]; [| reflexivity].
  cbn [or_empty].
  rewrite (fold_left_appends _ (fun entry => k1_expected (fst entry) (snd entry))).
  - reflexivity.
  - intros acc x. apply k1_view_appends.
Qed.

(** *** F1 *)

Lemma extractCrossViewReferences_spec text viewName :
  extractCrossViewReferences text viewName =
  map dotted (cross_references text viewName).
Proof.
  unfold extractCrossViewReferences, cross_references.
  rewrite filter_map_swap, map_map. cbn [fst snd].
  rewrite (fold_left_ext _
             (fun refs m =>
                if negb (seq_eqb (group 1 m) viewName) &&
                   negb (seq_eqb (group 1 m) "TABLE")
                then refs ++ [dotted (group 1 m, group 2 m)] else refs)).
  - rewrite fold_left_push_if. reflexivity.
  - intros refs m. unfold dotted. cbn [fst snd].
    destruct (seq_eqb (group 1 m) viewName); [reflexivity |].
    destruct (seq_eqb (group 1 m) "TABLE"); reflexivity.
Qed.

Lemma no_reference_in_empty_text viewName :
  extractCrossViewReferences [] viewName = [].
Proof. reflexivity. Qed.

Lemma f1_field_appends viewName fieldType fieldName field violations :
  f1_field viewName fieldType fieldName field violations =
  violations ++ f1_field_expected viewName fieldType fieldName field.
Proof.
  unfold f1_field, f1_field_expected.
  assert (Hsql :
    match f_sql field with
    | Some (c :: sql) =>
        fold_left
          (fun violations ref =>
             violations ++ [f1_sql fieldType fieldName viewName ref])
          (extractCrossViewReferences (c :: sql) viewName) violations
    | _ => violations
    end =
    violations ++
    map (fun r => f1_sql fieldType fieldName viewName (dotted r))
        (cross_references (content_of (f_sql field)) viewName)).
  { destruct (f_sql field) as [[| c sql] |]; cbn [content_of];
      try (symmetry; apply app_nil_r).
    rewrite (fold_left_appends _
               (fun ref => [f1_sql fieldType fieldName viewName ref]))
      by reflexivity.
    rewrite extractCrossViewReferences_spec, flat_map_singleton, map_map.
    reflexivity. }
  rewrite Hsql. clear Hsql.
  destruct (f_html field) as [[| c html] |]; cbn [content_of];
    try (cbn [map]; rewrite app_nil_r; reflexivity).
  rewrite (fold_left_appends _
             (fun ref => [f1_html fieldType fieldName viewName ref]))
    by reflexivity.
  rewrite extractCrossViewReferences_spec, flat_map_singleton, map_map.
  rewrite <- app_assoc. reflexivity.
Qed.

Lemma checkFields_appends fields viewName fieldType violations :
  checkFieldsForCrossReferences (or_empty fields) viewName fieldType violations =
  violations ++ f1_fields_expected viewName fieldType fields.
Proof.
  unfold checkFieldsForCrossReferences, f1_fields_expected.
  apply fold_left_appends. intros acc x. apply f1_field_appends.
Qed.

Lemma f1_view_appends viewName view violations :
  f1_view viewName view violations = violations ++ f1_expected viewName view.
Proof.
  unfold f1_view, f1_expected.
  destruct (has_table view); cbn [negb]; [| symmetry; apply app_nil_r].
  rewrite !checkFields_appends, <- !app_assoc. reflexivity.
Qed.

Lemma checkCrossViewReferences_spec lookml :
  checkCrossViewReferences lookml =
  flat_map (fun entry => f1_expected (fst entry) (snd entry))
           (or_empty (views lookml)).
Proof.
  unfold checkCrossViewReferences.
  destruct (views lookml) as [vs |]; [| reflexivity].
  cbn [or_empty].
  rewrite (fold_left_appends _ (fun entry => f1_expected (fst entry) (snd entry))).
  - reflexivity.
  - intros acc x. apply f1_view_appends.
Qed.

(** *** E1 *)

Lemma nothing_direct_in_empty_text : direct_references [] = [].
Proof. reflexivity. Qed.

Lemma e1_join_appends exploreName joinName join violations :
  e1_join exploreName joinName join violations =
  violations ++ e1_join_expected exploreName joinName join.
Proof.
  unfold e1_join, e1_join_expected.
  destruct (sql_on join) as [[| c sql] |]; cbn [content_of];
    try (rewrite nothing_direct_in_empty_text; symmetry; apply app_nil_r).
  unfold direct_references.
  rewrite (fold_left_ext _
             (fun violations m =>
                if negb (startsWith (r_text m) "safe.")
                then violations ++ [e1_violation exploreName joinName (r_text m)]
                else violations)).
  - rewrite fold_left_push_if, filter_map_swap, map_map. reflexivity.
  - intros acc m. destruct (startsWith (r_text m) "safe."); reflexivity.
Qed.

Lemma checkJoinReferences_spec lookml :
  checkJoinReferences lookml =
  flat_map (fun entry => e1_expected (fst entry) (snd entry))
           (or_empty (explores lookml)).
Proof.
  unfold checkJoinReferences.
  destruct (explores lookml) as [es |]; [| reflexivity].
  cbn [or_empty].
  rewrite (fold_left_appends _ (fun entry => e1_expected (fst entry) (snd entry))).
  - reflexivity.
  - intros acc [exploreName explore]. cbn [fst snd]. unfold e1_expected.
    destruct (joins explore) as [js |]; cbn [or_empty flat_map].
    + apply fold_left_appends. intros acc' x. apply e1_join_appends.
    + symmetry. apply app_nil_r.
Qed.

(** *** The violations of a rule carry its identifier *)

Lemma k1_ruleId lookml v :
  In v (checkPrimaryKeys lookml) -> ruleId v = ("k1" : str).
Proof.
  rewrite checkPrimaryKeys_spec. intros H.
  apply in_flat_map in H. destruct H as ([viewName view] & _ & H).
  unfold k1_expected in H. cbn [fst snd] in H.
  destruct (has_table view); [| contradiction].
  destruct (primary_key_names view) as [| n names].
  - destruct H as [H | []]. subst. reflexivity.
  - apply in_map_iff in H. destruct H as (name & H & _). subst. reflexivity.
Qed.

Lemma e1_ruleId lookml v :
  In v (checkJoinReferences lookml) -> ruleId v = ("e1" : str).
Proof.
  rewrite checkJoinReferences_spec. intros H.
  apply in_flat_map in H. destruct H as ([exploreName explore] & _ & H).
  apply in_flat_map in H. destruct H as ([joinName join] & _ & H).
  apply in_map_iff in H. destruct H as (reference & H & _). subst. reflexivity.
Qed.

Lemma f1_ruleId lookml v :
  In v (checkCrossViewReferences lookml) -> ruleId v = ("f1" : str).
Proof.
  rewrite checkCrossViewReferences_spec. intros H.
  apply in_flat_map in H. destruct H as ([viewName view] & _ & H).
  unfold f1_expected in H. cbn [fst snd] in H.
  destruct (has_table view); [| contradiction].
  assert (Hfields : forall fieldType fields,
            In v (f1_fields_expected viewName fieldType fields) ->
            ruleId v = ("f1" : str)).
  { intros fieldType fields Hin. apply in_flat_map in Hin.
    destruct Hin as ([fieldName field] & _ & Hin).
    apply in_app_or in Hin. destruct Hin as [Hin | Hin];
      apply in_map_iff in Hin; destruct Hin as (r & Hin & _); subst;
      reflexivity. }
  repeat (apply in_app_or in H; destruct H as [H | H]); eauto.
Qed.

(** *** The engine *)

Lemma apply_rule_violations table lookml ruleNames : forall st,
  fst (fold_left (apply_rule lookml) (map table ruleNames) st) =
  fst st ++ flat_map (contribution table lookml) ruleNames.
Proof.
  induction ruleNames as [| ruleName ruleNames IH]; intros [violations errors];
    cbn [map fold_left flat_map fst].
  - symmetry. apply app_nil_r.
  - rewrite IH. unfold contribution at 2, apply_rule.
    destruct (table ruleName) as [r | |]; cbn [fst];
      [destruct (check r lookml); cbn [fst] | |];
      rewrite ?app_nil_r, <- ?app_assoc; reflexivity.
Qed.

Lemma contribution_undefined table lookml ruleNames :
  flat_map (contribution table lookml)
           (filter (fun ruleName => is_defined (table ruleName)) ruleNames) =
  flat_map (contribution table lookml) ruleNames.
Proof.
  induction ruleNames as [| ruleName ruleNames IH]; cbn [filter flat_map];
    [reflexivity |].
  destruct (is_defined (table ruleName)) eqn:D; cbn [flat_map]; rewrite IH;
    [reflexivity |].
  assert (contribution table lookml ruleName = []) as ->; [| reflexivity].
  unfold contribution. destruct (table ruleName); try discriminate; reflexivity.
Qed.

Lemma applyRulesIn_spec table lookml enabledRuleIds :
  applyRulesIn table lookml enabledRuleIds =
  flat_map (contribution table lookml) enabledRuleIds.
Proof.
  unfold applyRulesIn, applyRules_run.
  rewrite apply_rule_violations. cbn [fst app].
  apply contribution_undefined.
Qed.

Lemma applyRulesIn_app table lookml ids1 ids2 :
  applyRulesIn table lookml (ids1 ++ ids2) =
  applyRulesIn table lookml ids1 ++ applyRulesIn table lookml ids2.
Proof. rewrite !applyRulesIn_spec. apply flat_map_app. Qed.

(** The only names [ALL_RULES] maps to a rule, and the rules they name. *)
Lemma ALL_RULES_rule ruleName rule :
  ALL_RULES ruleName = Rule rule ->
  (ruleName = ("k1" : str) /\ rule = k1) \/
  (ruleName = ("e1" : str) /\ rule = e1) \/
  (ruleName = ("f1" : str) /\ rule = f1).
Proof.
  unfold ALL_RULES. intros H.
  destruct (seq_eqb ruleName "k1") eqn:E1;
    [apply seq_eqb_eq in E1; inversion H; auto |].
  destruct (seq_eqb ruleName "e1") eqn:E2;
    [apply seq_eqb_eq in E2; inversion H; auto |].
  destruct (seq_eqb ruleName "f1") eqn:E3;
    [apply seq_eqb_eq in E3; inversion H; auto |].
  destruct (existsb _ _); discriminate.
Qed.

Lemma contribution_ruleId lookml ruleName v :
  In v (contribution ALL_RULES lookml ruleName) -> ruleId v = ruleName.
Proof.
  unfold contribution. destruct (ALL_RULES ruleName) as [r | |] eqn:E;
    [| contradiction | contradiction].
  apply ALL_RULES_rule in E.
  destruct E as [[-> ->] | [[-> ->] | [-> ->]]]; cbn [check k1 e1 f1].
  - apply k1_ruleId.
  - apply e1_ruleId.
  - apply f1_ruleId.
Qed.

End RulesFacts.

(** ** The fallback parser returns *)

Module ParserFacts.

Import Js Regex Model Parser Spec RegexFacts.

Lemma for_each_exec_total {S : Type} (P : S -> Prop) icase r s
      (body : rmatch_result -> S -> S) init :
  1 <= min_length r ->
  (forall m st, P st -> P (body m st)) ->
  P init ->
  exists st, for_each_exec icase r s body init = Some st /\ P st.
Proof.
  intros Hmin Hbody Hinit. unfold for_each_exec.
  destruct (exec_all_total icase r s Hmin) as (ms & ->). cbn [bind].
  eexists. split; [reflexivity |].
  revert init Hinit. induction ms as [| m ms IH]; intros init Hinit;
    cbn [fold_left]; [exact Hinit | apply IH, Hbody, Hinit].
Qed.

Lemma fold_opt_total {A S : Type} (P : S -> Prop)
      (body : A -> S -> option S) :
  (forall x st, P st -> exists st', body x st = Some st' /\ P st') ->
  forall l st, P st -> exists st', fold_opt body l st = Some st' /\ P st'.
Proof.
  intros Hbody. induction l as [| x l IH]; intros st Hst; cbn [fold_opt].
  - eauto.
  - destruct (Hbody x st Hst) as (st1 & -> & Hst1). cbn [bind]. apply IH, Hst1.
Qed.

Lemma fieldRegex_nonempty fieldType : 1 <= min_length (fieldRegex fieldType).
Proof. unfold fieldRegex. cbn [seqs min_length]. lia. Qed.

Lemma declaration_regex_nonempty kind : 1 <= min_length (declaration_regex kind).
Proof. unfold declaration_regex. cbn [seqs min_length]. lia. Qed.

Lemma joinRegex_nonempty : 1 <= min_length joinRegex.
Proof. vm_compute. lia. Qed.

Lemma extractFields_total content fieldType :
  exists fields, extractFields content fieldType = Some fields.
Proof.
  destruct (for_each_exec_total (fun _ => True) false (fieldRegex fieldType)
              content
              (fun m fields =>
                 obj_set (group 1 m) (make_field (group 1 m) (group 2 m)) fields)
              empty_object (fieldRegex_nonempty fieldType)) as (fields & H & _); auto.
  exists fields. exact H.
Qed.

Lemma extractJoins_total content : exists joins, extractJoins content = Some joins.
Proof.
  unfold extractJoins.
  match goal with
  | |- exists j, for_each_exec ?ic ?r ?s ?body ?init = Some j =>
      destruct (for_each_exec_total (fun _ => True) ic r s body init
                  joinRegex_nonempty) as (j & H & _); auto;
      exists j; exact H
  end.
Qed.

Lemma store_view_present viewName view result :
  collections_present result -> collections_present (store_view viewName view result).
Proof.
  intros (vs & es & ms & ->). unfold store_view. cbn [s_views s_explores s_models].
  do 3 eexists. reflexivity.
Qed.

Lemma store_explore_present exploreName explore result :
  collections_present result ->
  collections_present (store_explore exploreName explore result).
Proof.
  intros (vs & es & ms & ->). unfold store_explore. cbn [s_views s_explores s_models].
  do 3 eexists. reflexivity.
Qed.

Lemma store_model_present modelName model result :
  collections_present result -> collections_present (store_model modelName model result).
Proof.
  intros (vs & es & ms & ->). unfold store_model. cbn [s_views s_explores s_models].
  do 3 eexists. reflexivity.
Qed.

Lemma extractViews_total content result :
  collections_present result ->
  exists result', extractViews content result = Some result' /\
                  collections_present result'.
Proof.
  intros Hres. unfold extractViews, viewRegex.
  destruct (exec_all_total false (declaration_regex "view") content
              (declaration_regex_nonempty _)) as (ms & ->).
  cbn [bind]. apply fold_opt_total; [| exact Hres].
  intros m st Hst. unfold extract_view.
  destruct (extractFields_total (group 2 m) "dimension") as (ds & ->).
  destruct (extractFields_total (group 2 m) "dimension_group") as (dgs & ->).
  destruct (extractFields_total (group 2 m) "measure") as (mes & ->).
  destruct (extractFields_total (group 2 m) "filter") as (fs & ->).
  cbn [bind]. eexists. split; [reflexivity |].
  apply store_view_present, Hst.
Qed.

Lemma extractExplores_total content result :
  collections_present result ->
  exists result', extractExplores content result = Some result' /\
                  collections_present result'.
Proof.
  intros Hres. unfold extractExplores, exploreRegex.
  destruct (exec_all_total false (declaration_regex "explore") content
              (declaration_regex_nonempty _)) as (ms & ->).
  cbn [bind]. apply fold_opt_total; [| exact Hres].
  intros m st Hst.
  destruct (extractJoins_total (group 2 m)) as (js & ->).
  cbn [bind]. eexists. split; [reflexivity |].
  apply store_explore_present, Hst.
Qed.

Lemma extractModels_total content result :
  collections_present result ->
  exists result', extractModels content result = Some result' /\
                  collections_present result'.
Proof.
  intros Hres. unfold extractModels, modelRegex.
  apply for_each_exec_total;
    [apply declaration_regex_nonempty | | exact Hres].
  intros m st Hst. apply store_model_present, Hst.
Qed.

Lemma parseLookMLSync_total content :
  exists result, parseLookMLSync content = Some result /\
                 collections_present result.
Proof.
  unfold parseLookMLSync.
  destruct (extractViews_total content
              {| s_views := Some empty_object; s_explores := Some empty_object;
                 s_models := Some empty_object |})
    as (r1 & -> & H1); [do 3 eexists; reflexivity |].
  cbn [bind].
  destruct (extractExplores_total content r1 H1) as (r2 & -> & H2).
  cbn [bind]. apply extractModels_total, H2.
Qed.

End ParserFacts.

(** ** The normalizer of SQL lines *)

Module NormalizerFacts.

Import Js Regex Formatter Spec RegexFacts.

Lemma advance_by_cons n x rest prev pos caps :
  advance_by (S n) (MState prev (x :: rest) pos caps) =
  advance_by n (advance x rest (MState prev (x :: rest) pos caps)).
Proof.
  unfold advance_by, advance. cbn [m_rest m_prev m_pos m_caps firstn skipn rev].
  rewrite <- app_assoc. cbn [app]. f_equal. lia.
Qed.

Lemma advance_by_one x rest prev pos caps :
  advance_by 1 (MState prev (x :: rest) pos caps) =
  advance x rest (MState prev (x :: rest) pos caps).
Proof.
  unfold advance_by, advance. cbn [m_rest m_prev m_pos m_caps firstn skipn rev app].
  f_equal. lia.
Qed.

Lemma ci_prefix_cons a K x rest :
  ci_prefix (a :: K) (x :: rest) = ceq (upper a) (upper x) && ci_prefix K rest.
Proof. reflexivity. Qed.

Lemma rmatch_lit_ci K : K <> [] -> forall k prev rest pos caps,
  rmatch true (lit K) k (MState prev rest pos caps) =
  if ci_prefix K rest
  then k (advance_by (length K) (MState prev rest pos caps)) else None.
Proof.
  induction K as [| a K IH]; [congruence |]. intros _ k prev rest pos caps.
  destruct K as [| b K].
  - cbn [lit rmatch m_rest].
    destruct rest as [| x rest]; [reflexivity |].
    rewrite ci_prefix_cons. cbn [ci_prefix length].
    unfold char_eq. rewrite andb_true_r.
    destruct (ceq (upper a) (upper x)); [| reflexivity].
    rewrite advance_by_one. reflexivity.
  - change (lit (a :: b :: K)) with (Seq (Chr a) (lit (b :: K))).
    cbn [rmatch m_rest].
    destruct rest as [| x rest]; [reflexivity |].
    rewrite ci_prefix_cons.
    unfold char_eq. destruct (ceq (upper a) (upper x)); cbn [andb]; [| reflexivity].
    unfold advance at 1. cbn [m_prev m_pos m_caps].
    rewrite IH by discriminate.
    destruct (ci_prefix (b :: K) rest); [| reflexivity].
    change (length (a :: b :: K)) with (S (length (b :: K))).
    rewrite advance_by_cons. reflexivity.
Qed.

Lemma upper_of_upper k : isUpper k = true -> upper k = k.
Proof. destruct k as [[] [] [] [] [] [] [] []]; intros H; try discriminate H; reflexivity. Qed.

Lemma word_of_upper x : isUpper (upper x) = true -> isWord x = true.
Proof. destruct x as [[] [] [] [] [] [] [] []]; intros H; try discriminate H; reflexivity. Qed.

Lemma space_not_upper x : isSpace x = true -> isUpper (upper x) = false.
Proof. destruct x as [[] [] [] [] [] [] [] []]; intros H; try discriminate H; reflexivity. Qed.

Lemma ci_letter_word k x :
  isUpper k = true -> ceq (upper k) (upper x) = true -> isWord x = true.
Proof.
  intros Hk H. apply Ascii.eqb_eq in H. apply word_of_upper.
  rewrite <- H, upper_of_upper by exact Hk. exact Hk.
Qed.

Lemma ci_letter_space k x :
  isUpper k = true -> isSpace x = true -> ceq (upper k) (upper x) = false.
Proof.
  intros Hk Hx. destruct (ceq (upper k) (upper x)) eqn:E; [| reflexivity].
  apply Ascii.eqb_eq in E. apply space_not_upper in Hx.
  rewrite <- E, upper_of_upper in Hx by exact Hk. congruence.
Qed.

Lemma keyword_word_cons K :
  keyword_word K = true ->
  exists k K', K = k :: K' /\ isUpper k = true /\ forallb isUpper K' = true.
Proof.
  unfold keyword_word. destruct K as [| k K']; [discriminate |].
  cbn [length Nat.eqb negb andb forallb]. intros H.
  apply andb_true_iff in H. destruct H. eauto.
Qed.

Lemma ci_prefix_word_at K rest :
  keyword_word K = true -> ci_prefix K rest = true -> is_word_at rest = true.
Proof.
  intros HK H. apply keyword_word_cons in HK. destruct HK as (k & K' & -> & Hk & _).
  destruct rest as [| x rest]; [discriminate |].
  rewrite ci_prefix_cons in H. apply andb_true_iff in H. destruct H as [H _].
  cbn [is_word_at]. eapply ci_letter_word; eassumption.
Qed.

Lemma ci_prefix_space_at K rest :
  keyword_word K = true -> is_space_at rest = true -> ci_prefix K rest = false.
Proof.
  intros HK H. apply keyword_word_cons in HK. destruct HK as (k & K' & -> & Hk & _).
  destruct rest as [| x rest]; [discriminate |].
  rewrite ci_prefix_cons. cbn [is_space_at] in H.
  rewrite (ci_letter_space k x Hk H). reflexivity.
Qed.

Lemma ci_prefix_last_word K : forall rest prev,
  K <> [] -> forallb isUpper K = true -> ci_prefix K rest = true ->
  is_word_at (rev (firstn (length K) rest) ++ prev) = true.
Proof.
  induction K as [| a K IH]; intros rest prev Hne HK H; [congruence |].
  destruct rest as [| x rest]; [discriminate |].
  rewrite ci_prefix_cons in H. apply andb_true_iff in H. destruct H as [Hx H].
  cbn [forallb] in HK. apply andb_true_iff in HK. destruct HK as [Ha HK].
  cbn [length firstn rev]. rewrite <- app_assoc. cbn [app].
  destruct K as [| b K].
  - cbn [length firstn rev app is_word_at]. eapply ci_letter_word; eassumption.
  - apply IH; [discriminate | exact HK | exact H].
Qed.

Lemma match_here_word K prev rest pos :
  keyword_word K = true ->
  option_map ends (match_here true (seqs [WordB; lit K; WordB]) prev rest pos) =
  option_map (fun n => (pos, pos + n)) (word_match K prev rest).
Proof.
  intros HK. unfold match_here, word_match. cbn [seqs rmatch m_prev m_rest].
  assert (Hne : K <> []).
  { apply keyword_word_cons in HK. destruct HK as (k & K' & -> & _). discriminate. }
  assert (Hup : forallb isUpper K = true).
  { unfold keyword_word in HK. apply andb_true_iff in HK. apply HK. }
  rewrite rmatch_lit_ci by exact Hne.
  destruct (ci_prefix K rest) eqn:E.
  - rewrite (ci_prefix_word_at K rest HK E). rewrite xorb_true_r.
    destruct (negb (is_word_at prev)); cbn [andb]; [| reflexivity].
    cbn [rmatch]. unfold advance_by at 1 2. cbn [m_prev m_rest m_pos m_caps].
    rewrite (ci_prefix_last_word K rest prev Hne Hup E). rewrite xorb_true_l.
    destruct (negb (is_word_at (skipn (length K) rest))); reflexivity.
  - rewrite andb_false_r. cbn [andb].
    destruct (xorb _ _); reflexivity.
Qed.

Section FirstMatch.

Variables (icase : bool) (r : regex) (found : str -> str -> option nat).

Hypothesis here : forall prev rest pos,
  option_map ends (match_here icase r prev rest pos) =
  option_map (fun n => (pos, pos + n)) (found prev rest).

Lemma search_from_first repl rest : forall prev pos,
  match search_from icase r prev rest pos with
  | Some m => firstn (r_index m - pos) rest ++ repl ++ skipn (r_end m - pos) rest
  | None => rest
  end = first_replace found repl prev rest.
Proof.
  induction rest as [| c rest IH]; intros prev pos;
    cbn [search_from first_replace]; specialize (here prev) as Hh.
  - specialize (Hh [] pos).
    destruct (match_here icase r prev [] pos) as [m |],
             (found prev []) as [n |]; try discriminate Hh; [| reflexivity].
    cbn [option_map ends] in Hh. injection Hh as Hi He.
    rewrite Hi, He, Nat.sub_diag. replace (pos + n - pos) with n by lia.
    reflexivity.
  - specialize (Hh (c :: rest) pos).
    destruct (match_here icase r prev (c :: rest) pos) as [m |],
             (found prev (c :: rest)) as [n |]; try discriminate Hh.
    + cbn [option_map ends] in Hh. injection Hh as Hi He.
      rewrite Hi, He, Nat.sub_diag. replace (pos + n - pos) with n by lia.
      reflexivity.
    + rewrite <- IH with (pos := S pos).
      destruct (search_from icase r (c :: prev) rest (S pos)) as [m |] eqn:E;
        [| reflexivity].
      apply search_from_bounds in E.
      replace (r_index m - pos) with (S (r_index m - S pos)) by lia.
      replace (r_end m - pos) with (S (r_end m - S pos)) by lia.
      reflexivity.
Qed.

Lemma replace_first_spec repl s :
  replace_first icase r [RLit repl] s = first_replace found repl [] s.
Proof.
  unfold replace_first, search. rewrite <- (search_from_first repl s [] 0).
  destruct (search_from icase r [] s 0) as [m |]; [| reflexivity].
  rewrite !Nat.sub_0_r. cbn [expand flat_map]. rewrite app_nil_r. reflexivity.
Qed.

End FirstMatch.

Lemma first_replace_word K rest : forall prev,
  first_replace (word_match K) K prev rest = upcase_word K (is_word_at prev) rest.
Proof.
  induction rest as [| c rest IH]; intros prev; cbn [first_replace upcase_word].
  - unfold word_match.
    destruct (negb (is_word_at prev) && ci_prefix K [] &&
              negb (is_word_at (skipn (length K) []))) eqn:E; [| reflexivity].
    destruct K; [reflexivity | ].
    cbn [ci_prefix] in E. rewrite andb_false_r in E. discriminate E.
  - unfold word_match at 1.
    destruct (negb (is_word_at prev) && ci_prefix K (c :: rest) &&
              negb (is_word_at (skipn (length K) (c :: rest)))); [reflexivity |].
    rewrite IH. reflexivity.
Qed.

Lemma replace_keyword_first r repl s :
  replace_keyword r repl s = replace_first true r [RLit repl] s.
Proof.
  unfold replace_keyword, test, replace_first.
  destruct (search true r s); reflexivity.
Qed.

Lemma skipn_ws_run s : skipn (ws_run s) s = trimStart s.
Proof.
  induction s as [| c s IH]; [reflexivity |].
  cbn [ws_run trimStart]. destruct (isSpace c); [exact IH | reflexivity].
Qed.

Lemma advance_by_zero prev rest pos caps :
  advance_by 0 (MState prev rest pos caps) = MState prev rest pos caps.
Proof. unfold advance_by. cbn. rewrite Nat.add_0_r. reflexivity. Qed.

Lemma orelse_none {A : Type} (a : option A) : orelse a None = a.
Proof. destruct a; reflexivity. Qed.

(** A greedy run of white space before something that cannot start with
    white space takes the whole run. *)

Lemma greedy_spaces k :
  (forall prev rest pos caps,
      is_space_at rest = true -> k (MState prev rest pos caps) = None) ->
  forall rest prev pos caps n,
    length rest < n ->
    rep_loop (rmatch true (Cls isSpace)) true k n 0 (MState prev rest pos caps) =
    k (advance_by (ws_run rest) (MState prev rest pos caps)).
Proof.
  intros Hk. induction rest as [| x rest IH]; intros prev pos caps n Hn;
    (destruct n as [| n]; [cbn [length] in Hn; lia |]).
  - cbn [rep_loop rmatch m_rest orelse ws_run]. rewrite advance_by_zero. reflexivity.
  - cbn [rep_loop rmatch m_rest ws_run]. destruct (isSpace x) eqn:Ex.
    + cbn [m_pos advance]. 
      replace (S pos =? pos) with false by (symmetry; apply Nat.eqb_neq; lia).
      rewrite (Hk prev (x :: rest) pos caps) by (cbn [is_space_at]; exact Ex).
      rewrite orelse_none.
      unfold advance. cbn [m_prev m_caps m_pos].
      rewrite IH by (cbn [length] in Hn; lia).
      rewrite advance_by_cons. reflexivity.
    + cbn [orelse]. rewrite advance_by_zero. reflexivity.
Qed.

Lemma plus_spaces k :
  (forall prev rest pos caps,
      is_space_at rest = true -> k (MState prev rest pos caps) = None) ->
  forall rest prev pos caps,
    rmatch true (plus ws) k (MState prev rest pos caps) =
    if is_space_at rest
    then k (advance_by (ws_run rest) (MState prev rest pos caps)) else None.
Proof.
  intros Hk rest prev pos caps. unfold plus, ws. cbn [rmatch m_rest].
  cbn [rep_loop rmatch m_rest].
  destruct rest as [| x rest]; [reflexivity |].
  cbn [is_space_at ws_run]. destruct (isSpace x); [| reflexivity].
  unfold advance. cbn [m_prev m_caps m_pos].
  rewrite (greedy_spaces k Hk) by (cbn [length]; lia).
  rewrite advance_by_cons. reflexivity.
Qed.

Lemma advance_by_rest n prev rest pos caps :
  m_rest (advance_by n (MState prev rest pos caps)) = skipn n rest.
Proof. reflexivity. Qed.

Lemma match_here_pair K1 K2 prev rest pos :
  keyword_word K1 = true -> keyword_word K2 = true ->
  option_map ends
    (match_here true (seqs [WordB; lit K1; plus ws; lit K2; WordB]) prev rest pos) =
  option_map (fun n => (pos, pos + n)) (pair_match K1 K2 prev rest).
Proof.
  intros HK1 HK2. unfold match_here, pair_match.
  cbn [seqs]. cbn [rmatch m_prev m_rest].
  assert (Hne1 : K1 <> []).
  { apply keyword_word_cons in HK1. destruct HK1 as (k & K' & -> & _). discriminate. }
  assert (Hne2 : K2 <> []).
  { apply keyword_word_cons in HK2. destruct HK2 as (k & K' & -> & _). discriminate. }
  assert (Hup2 : forallb isUpper K2 = true).
  { unfold keyword_word in HK2. apply andb_true_iff in HK2. apply HK2. }
  rewrite rmatch_lit_ci by exact Hne1.
  destruct (ci_prefix K1 rest) eqn:E1.
  2:{ rewrite andb_false_r. cbn [andb]. destruct (xorb _ _); reflexivity. }
  rewrite (ci_prefix_word_at K1 rest HK1 E1), xorb_true_r.
  destruct (negb (is_word_at prev)); cbn [andb]; [| reflexivity].
  unfold advance_by at 1. cbn [m_prev m_rest m_pos m_caps].
  rewrite plus_spaces.
  2:{ intros prev' rest' pos' caps' Hsp. cbn [rmatch].
      rewrite rmatch_lit_ci by exact Hne2.
      rewrite (ci_prefix_space_at K2 rest' HK2 Hsp). reflexivity. }
  destruct (is_space_at (skipn (length K1) rest)); cbn [andb]; [| reflexivity].
  unfold advance_by at 1. cbn [m_prev m_rest m_pos m_caps].
  cbn [rmatch]. rewrite rmatch_lit_ci by exact Hne2.
  rewrite skipn_ws_run.
  destruct (ci_prefix K2 (trimStart (skipn (length K1) rest))) eqn:E2;
    cbn [andb]; [| reflexivity].
  cbn [rmatch]. unfold advance_by at 1 2. cbn [m_prev m_rest m_pos m_caps].
  rewrite (ci_prefix_last_word K2 _ _ Hne2 Hup2 E2), xorb_true_l.
  destruct (negb (is_word_at (skipn (length K2) (trimStart (skipn (length K1) rest)))));
    [| reflexivity].
  cbn [option_map]. unfold ends. cbn [r_index r_end m_pos advance_by].
  f_equal. f_equal. lia.
Qed.

Lemma first_replace_pair K1 K2 rest : forall prev,
  first_replace (pair_match K1 K2) (K1 ++ " " ++ K2) prev rest =
  upcase_pair K1 K2 (is_word_at prev) rest.
Proof.
  induction rest as [| c rest IH]; intros prev; cbn [first_replace upcase_pair].
  - unfold pair_match. rewrite skipn_nil. cbn [is_space_at].
    rewrite !andb_false_r. reflexivity.
  - unfold pair_match at 1.
    destruct (negb (is_word_at prev) && ci_prefix K1 (c :: rest) &&
              is_space_at (skipn (length K1) (c :: rest)) &&
              ci_prefix K2 (trimStart (skipn (length K1) (c :: rest))) &&
              negb (is_word_at
                      (skipn (length K2)
                         (trimStart (skipn (length K1) (c :: rest)))))).
    + rewrite <- !app_assoc. do 3 f_equal.
      rewrite <- skipn_ws_run, !skipn_skipn. f_equal. lia.
    + rewrite IH. reflexivity.
Qed.

Lemma replace_keyword_spec keyword s :
  keyword_ok keyword = true ->
  replace_keyword (keyword_regex keyword) keyword s = upcase_keyword keyword s.
Proof.
  unfold keyword_ok, keyword_regex, upcase_keyword. intros H.
  rewrite replace_keyword_first.
  destruct (split_space [] keyword) as [| K1 [| K2 l]].
  - rewrite (replace_first_spec true _ (word_match keyword))
      by (intros; apply match_here_word; exact H).
    apply first_replace_word.
  - rewrite (replace_first_spec true _ (word_match keyword))
      by (intros; apply match_here_word; exact H).
    apply first_replace_word.
  - apply andb_true_iff in H. destruct H as [H Heq].
    apply andb_true_iff in H. destruct H as [H1 H2].
    apply RulesFacts.seq_eqb_eq in Heq.
    rewrite (replace_first_spec true _ (pair_match K1 K2))
      by (intros; apply match_here_pair; assumption).
    rewrite Heq at 1. apply first_replace_pair.
Qed.

Lemma sqlKeywords_ok : forallb (fun k : string => keyword_ok k) sqlKeywords = true.
Proof. vm_compute. reflexivity. Qed.

Lemma keywords_spec line :
  fold_left (fun acc (keyword : string) =>
               replace_keyword (keyword_regex keyword) keyword acc)
            sqlKeywords line =
  fold_left (fun s (keyword : string) => upcase_keyword keyword s)
            sqlKeywords line.
Proof.
  generalize sqlKeywords_ok. generalize sqlKeywords. intros l.
  revert line. induction l as [| k l IH]; intros line H; cbn [fold_left];
    [reflexivity |].
  cbn [forallb] in H. apply andb_true_iff in H. destruct H as [Hk Hl].
  rewrite replace_keyword_spec by exact Hk. apply IH, Hl.
Qed.

Lemma match_here_op_after prev rest pos :
  option_map (fun m => (r_end m - pos, expand spaced m))
             (match_here false re_op_after prev rest pos) =
  match rest with
  | c :: d :: _ =>
      if isOp c && negb (isCmp d || isSpace d)
      then Some (2, [c; " "%char; d]) else None
  | _ => None
  end.
Proof.
  unfold match_here, re_op_after, one_of, isOp, isCmp.
  cbn [rmatch m_rest list_ascii_of_string].
  destruct rest as [| c [| d rest]]; [reflexivity | |].
  - destruct (existsb (ceq c) _); reflexivity.
  - destruct (existsb (ceq c) _); cbn [andb]; [| reflexivity].
    cbn [advance set_cap m_rest m_pos m_prev m_caps].
    destruct (negb (existsb (ceq d) _ || isSpace d)); [| reflexivity].
    unfold expand, spaced, group.
    cbn [option_map r_end r_caps m_pos m_caps m_rest m_prev advance set_cap].
    replace (S pos - pos) with 1 by lia.
    replace (S (S pos) - S pos) with 1 by lia.
    replace (S (S pos) - pos) with 2 by lia.
    reflexivity.
Qed.

Lemma space_after_spec s : replace_all false re_op_after spaced s = space_after s.
Proof.
  unfold replace_all.
  assert (H : forall rest,
             (forall pos prev,
                 replace_loop false re_op_after spaced prev rest pos 0 =
                 space_after rest) /\
             (forall pos prev,
                 replace_loop false re_op_after spaced prev rest pos 1 =
                 space_after (tl rest))).
  { induction rest as [| c rest [IH0 IH1]].
    - split; reflexivity.
    - split; intros pos prev; [| cbn [replace_loop tl]; apply IH0].
      cbn [replace_loop space_after].
      pose proof (match_here_op_after prev (c :: rest) pos) as Hm.
      destruct (match_here false re_op_after prev (c :: rest) pos) as [m |];
        cbn [option_map] in Hm.
      + destruct rest as [| d rest]; [discriminate Hm |].
        destruct (isOp c && negb (isCmp d || isSpace d)); [| discriminate Hm].
        assert (He : r_end m - pos = 2) by congruence.
        assert (Hx : expand spaced m = [c; " "%char; d]) by congruence.
        rewrite He, Hx, IH1. reflexivity.
      + destruct rest as [| d rest]; [reflexivity |].
        destruct (isOp c && negb (isCmp d || isSpace d)); [discriminate Hm |].
        rewrite IH0. reflexivity. }
  apply H.
Qed.

Lemma match_here_op_before prev rest pos :
  option_map (fun m => (r_end m - pos, expand spaced m))
             (match_here false re_op_before prev rest pos) =
  match rest with
  | x :: o :: _ =>
      if negb (isSpace x || isOp x) && isOp o
      then Some (2, [x; " "%char; o]) else None
  | _ => None
  end.
Proof.
  unfold match_here, re_op_before, one_of, isOp.
  cbn [rmatch m_rest list_ascii_of_string].
  destruct rest as [| x [| o rest]]; [reflexivity | |].
  - destruct (negb (isSpace x || existsb (ceq x) _)); reflexivity.
  - destruct (negb (isSpace x || existsb (ceq x) _)); cbn [andb]; [| reflexivity].
    cbn [advance set_cap m_rest m_pos m_prev m_caps].
    destruct (existsb (ceq o) _); [| reflexivity].
    unfold expand, spaced, group.
    cbn [option_map r_end r_caps m_pos m_caps m_rest m_prev advance set_cap].
    replace (S pos - pos) with 1 by lia.
    replace (S (S pos) - S pos) with 1 by lia.
    replace (S (S pos) - pos) with 2 by lia.
    reflexivity.
Qed.

Lemma space_before_spec s : replace_all false re_op_before spaced s = space_before s.
Proof.
  unfold replace_all.
  assert (H : forall rest,
             (forall pos prev,
                 replace_loop false re_op_before spaced prev rest pos 0 =
                 space_before rest) /\
             (forall pos prev,
                 replace_loop false re_op_before spaced prev rest pos 1 =
                 space_before (tl rest))).
  { induction rest as [| c rest [IH0 IH1]].
    - split; reflexivity.
    - split; intros pos prev; [| cbn [replace_loop tl]; apply IH0].
      cbn [replace_loop space_before].
      pose proof (match_here_op_before prev (c :: rest) pos) as Hm.
      destruct (match_here false re_op_before prev (c :: rest) pos) as [m |];
        cbn [option_map] in Hm.
      + destruct rest as [| d rest]; [discriminate Hm |].
        destruct (negb (isSpace c || isOp c) && isOp d); [| discriminate Hm].
        assert (He : r_end m - pos = 2) by congruence.
        assert (Hx : expand spaced m = [c; " "%char; d]) by congruence.
        rewrite He, Hx, IH1. reflexivity.
      + destruct rest as [| d rest]; [reflexivity |].
        destruct (negb (isSpace c || isOp c) && isOp d); [discriminate Hm |].
        rewrite IH0. reflexivity. }
  apply H.
Qed.

(** A greedy run of white space with nothing required after it takes the
    whole run. *)

Lemma greedy_spaces_all icase : forall rest prev pos caps n,
  length rest < n ->
  rep_loop (rmatch icase (Cls isSpace)) true Some n 0 (MState prev rest pos caps) =
  Some (advance_by (ws_run rest) (MState prev rest pos caps)).
Proof.
  induction rest as [| x rest IH]; intros prev pos caps n Hn;
    (destruct n as [| n]; [cbn [length] in Hn; lia |]).
  - cbn [rep_loop rmatch m_rest orelse ws_run]. rewrite advance_by_zero. reflexivity.
  - cbn [rep_loop rmatch m_rest ws_run]. destruct (isSpace x) eqn:Ex.
    + cbn [m_pos advance].
      replace (S pos =? pos) with false by (symmetry; apply Nat.eqb_neq; lia).
      unfold advance. cbn [m_prev m_caps m_pos].
      rewrite IH by (cbn [length] in Hn; lia).
      cbn [orelse]. rewrite advance_by_cons. reflexivity.
    + cbn [orelse]. rewrite advance_by_zero. reflexivity.
Qed.

Lemma rmatch_rep icase greedy min r k s :
  rmatch icase (Rep greedy min r) k s =
  rep_loop (rmatch icase r) greedy k (S (min + length (m_rest s))) min s.
Proof. reflexivity. Qed.

Lemma rep_loop_owed body greedy k n need s :
  rep_loop body greedy k (S n) (S need) s = body (rep_loop body greedy k n need) s.
Proof. reflexivity. Qed.

Lemma rmatch_class icase p k prev x rest pos caps :
  rmatch icase (Cls p) k (MState prev (x :: rest) pos caps) =
  if p x then k (MState (x :: prev) rest (S pos) caps) else None.
Proof. reflexivity. Qed.

Lemma match_here_spaces prev rest pos :
  option_map (fun m => (r_end m - pos, expand [RLit " "] m))
             (match_here false re_spaces prev rest pos) =
  if 2 <=? ws_run rest then Some (ws_run rest, [" "%char]) else None.
Proof.
  unfold match_here, re_spaces, ws. rewrite rmatch_rep. cbn [m_rest].
  destruct rest as [| x [| y rest]].
  - reflexivity.
  - cbn [Nat.add]. rewrite rep_loop_owed, rmatch_class. cbn [ws_run].
    destruct (isSpace x); reflexivity.
  - cbn [Nat.add length]. rewrite rep_loop_owed, rmatch_class. cbn [ws_run].
    destruct (isSpace x); [| reflexivity].
    rewrite rep_loop_owed, rmatch_class.
    destruct (isSpace y); [| reflexivity].
    rewrite greedy_spaces_all by lia.
    cbn [option_map r_end m_pos advance_by Nat.leb]. unfold expand.
    cbn [flat_map app]. f_equal. f_equal. lia.
Qed.

Lemma collapse_spec s : replace_all false re_spaces [RLit " "] s = collapse false s.
Proof.
  unfold replace_all.
  assert (H : forall rest,
             (forall pos prev,
                 replace_loop false re_spaces [RLit " "] prev rest pos 0 =
                 collapse false rest) /\
             (forall pos prev,
                 replace_loop false re_spaces [RLit " "] prev rest pos (ws_run rest) =
                 collapse true rest)).
  { induction rest as [| c rest [IH0 IH1]].
    - split; reflexivity.
    - assert (H0 : forall pos prev,
                 replace_loop false re_spaces [RLit " "] prev (c :: rest) pos 0 =
                 collapse false (c :: rest)).
      { intros pos prev. cbn [replace_loop collapse].
        pose proof (match_here_spaces prev (c :: rest) pos) as Hm.
        cbn [ws_run] in Hm.
        destruct (match_here false re_spaces prev (c :: rest) pos) as [m |];
          cbn [option_map] in Hm.
        - destruct (isSpace c); [| discriminate Hm].
          destruct rest as [| d rest]; [discriminate Hm |].
          cbn [ws_run is_space_at] in Hm |- *.
          destruct (isSpace d) eqn:Ed; [| discriminate Hm].
          cbn [Nat.leb] in Hm.
          assert (He : r_end m - pos = S (S (ws_run rest))) by congruence.
          assert (Hx : expand [RLit " "] m = [" "%char]) by congruence.
          rewrite He, Hx. cbn [andb app]. f_equal.
          specialize (IH1 (S pos) (c :: prev)). cbn [ws_run] in IH1.
          rewrite Ed in IH1. exact IH1.
        - destruct (isSpace c) eqn:Ec.
          + destruct rest as [| d rest]; [reflexivity |].
            cbn [ws_run is_space_at] in Hm |- *.
            destruct (isSpace d); [discriminate Hm |].
            cbn [andb]. rewrite IH0. reflexivity.
          + cbn [andb]. rewrite IH0. reflexivity. }
      split; [exact H0 |].
      intros pos prev. cbn [ws_run]. destruct (isSpace c) eqn:Ec.
      + cbn [replace_loop collapse]. rewrite Ec. apply IH1.
      + rewrite H0. cbn [collapse]. rewrite Ec. reflexivity. }
  apply H.
Qed.

Theorem formatSqlKeywords_spec line : formatSqlKeywords line = normalize_sql line.
Proof.
  unfold formatSqlKeywords, normalize_sql.
  rewrite keywords_spec.
  change [RGrp 1; RLit " "; RGrp 2] with spaced.
  rewrite space_after_spec, space_before_spec, collapse_spec. reflexivity.
Qed.

(** *** What holds of every normalized line *)





Lemma space_before_step x o rest :
  space_before (x :: o :: rest) =
  if negb (isSpace x || isOp x) && isOp o
  then x :: " "%char :: o :: space_before rest
  else x :: space_before (o :: rest).
Proof. reflexivity. Qed.

Lemma space_after_step c d rest :
  space_after (c :: d :: rest) =
  if isOp c && negb (isCmp d || isSpace d)
  then c :: " "%char :: d :: space_after rest
  else c :: space_after (d :: rest).
Proof. reflexivity. Qed.










(** *** Fields *)
Lemma fields_cons s : exists f fs, fields s = f :: fs.
Proof.
  destruct s as [|c s]; [eexists _, _; reflexivity|].
  cbn [fields]. destruct (isWord c); [|eexists _, _; reflexivity].
  destruct (fields s); eexists _, _; reflexivity.
Qed.

Lemma first_field_word c s :
  isWord c = true -> first_field (c :: s) = c :: first_field s.
Proof.
  intros H. unfold first_field. cbn [fields]. rewrite H.
  destruct (fields_cons s) as (f & fs & ->). reflexivity.
Qed.

Lemma later_words_word c s :
  isWord c = true -> later_words (c :: s) = later_words s.
Proof.
  intros H. unfold later_words. cbn [fields]. rewrite H.
  destruct (fields_cons s) as (f & fs & ->). reflexivity.
Qed.

Lemma first_field_sep c s : isWord c = false -> first_field (c :: s) = [].
Proof. intros H. unfold first_field. cbn [fields]. rewrite H. reflexivity. Qed.

Lemma later_words_sep c s : isWord c = false -> later_words (c :: s) = words s.
Proof. intros H. unfold later_words, words. cbn [fields]. rewrite H. reflexivity. Qed.

Lemma words_open s : words s = open_words false s.
Proof.
  unfold words, open_words, first_field, later_words.
  destruct (fields_cons s) as (f & fs & ->). cbn [hd tl filter].
  destruct (nonempty f); reflexivity.
Qed.

Lemma words_sep c s : isWord c = false -> words (c :: s) = words s.
Proof.
  intros H. rewrite (words_open (c :: s)). unfold open_words.
  rewrite first_field_sep, later_words_sep by exact H. reflexivity.
Qed.

Lemma open_words_sep pw c s :
  isWord c = false -> open_words pw (c :: s) = words s.
Proof.
  intros H. unfold open_words.
  rewrite first_field_sep, later_words_sep by exact H.
  destruct pw; reflexivity.
Qed.

Lemma first_field_start s : is_word_at s = false -> first_field s = [].
Proof.
  destruct s as [|c s]; [reflexivity|]. cbn [is_word_at]. apply first_field_sep.
Qed.

Lemma word_prefix m : forall rest,
  forallb isWord m = true -> is_word_at rest = false ->
  first_field (m ++ rest) = m /\ later_words (m ++ rest) = later_words rest.
Proof.
  induction m as [|c m IH]; intros rest Hm Hr.
  - split; [apply first_field_start, Hr | reflexivity].
  - cbn [forallb] in Hm. apply andb_true_iff in Hm as [Hc Hm].
    destruct (IH rest Hm Hr) as [H1 H2]. cbn [app].
    rewrite first_field_word, later_words_word by exact Hc.
    split; congruence.
Qed.

Lemma field_split s :
  exists rest, s = first_field s ++ rest /\ is_word_at rest = false /\
               forallb isWord (first_field s) = true.
Proof.
  induction s as [|c s (rest & H1 & H2 & H3)].
  - exists []. repeat split.
  - destruct (isWord c) eqn:Hc.
    + exists rest. rewrite first_field_word by exact Hc. cbn [app forallb].
      rewrite Hc, H3. repeat split; [f_equal; exact H1 | exact H2].
    + exists (c :: s). rewrite first_field_sep by exact Hc.
      repeat split. exact Hc.
Qed.

(** *** Upcased *)
Lemma upper_upper c : upper (upper c) = upper c.
Proof. destruct c as [[] [] [] [] [] [] [] []]; reflexivity. Qed.

Lemma toUpperCase_idem w : toUpperCase (toUpperCase w) = toUpperCase w.
Proof.
  unfold toUpperCase. rewrite map_map. apply map_ext. intros; apply upper_upper.
Qed.

Lemma upcased_refl w : upcased w w.
Proof. left; reflexivity. Qed.

Lemma upcased_upper w w' : upcased w w' -> toUpperCase w' = toUpperCase w.
Proof. intros [-> | ->]; [reflexivity | apply toUpperCase_idem]. Qed.

Lemma upcased_trans w1 w2 w3 : upcased w1 w2 -> upcased w2 w3 -> upcased w1 w3.
Proof.
  intros [-> | ->] [-> | ->]; try (left; reflexivity); try (right; reflexivity).
  right. apply toUpperCase_idem.
Qed.

Lemma upcased_nonempty w w' : upcased w w' -> nonempty w' = nonempty w.
Proof. intros [-> | ->]; [reflexivity | destruct w; reflexivity]. Qed.

Lemma Forall2_upcased_refl l : Forall2 upcased l l.
Proof. induction l; constructor; [apply upcased_refl | assumption]. Qed.

Lemma Forall2_upcased_trans l1 : forall l2 l3,
  Forall2 upcased l1 l2 -> Forall2 upcased l2 l3 -> Forall2 upcased l1 l3.
Proof.
  induction l1 as [|a l1 IH]; intros l2 l3 H12 H23; inversion H12; subst;
    inversion H23; subst; constructor.
  - eapply upcased_trans; eassumption.
  - eapply IH; eassumption.
Qed.

Lemma same_words_refl s : same_words s s.
Proof. apply Forall2_upcased_refl. Qed.

Lemma same_words_trans s t u : same_words s t -> same_words t u -> same_words s u.
Proof. apply Forall2_upcased_trans. Qed.

Lemma same_fields_words l s t : same_fields l s t -> same_words s t.
Proof.
  intros [H1 H2]. unfold same_words. rewrite !words_open. unfold open_words.
  assert (H : upcased (first_field s) (first_field t))
    by (destruct l; [rewrite H1; apply upcased_refl | exact H1]).
  cbn [filter]. rewrite (upcased_nonempty _ _ H).
  destruct (nonempty (first_field s)); cbn [app]; [constructor|]; assumption.
Qed.

Lemma same_fields_sep l c c' s t :
  isWord c = false -> isWord c' = false -> same_words s t ->
  same_fields l (c :: s) (c' :: t).
Proof.
  intros Hc Hc' H. unfold same_fields.
  rewrite !first_field_sep, !later_words_sep by assumption.
  split; [destruct l; [reflexivity | apply upcased_refl] | exact H].
Qed.

Lemma same_fields_cons l c s t :
  same_fields true s t -> same_fields l (c :: s) (c :: t).
Proof.
  intros H. destruct (isWord c) eqn:Hc.
  - destruct H as [H1 H2]. unfold same_fields.
    rewrite !first_field_word, !later_words_word by exact Hc. rewrite H1.
    split; [destruct l; [reflexivity | apply upcased_refl] | exact H2].
  - apply same_fields_sep; try exact Hc. eapply same_fields_words, H.
Qed.

Lemma same_fields_refl l s : same_fields l s s.
Proof.
  split; [destruct l; [reflexivity | apply upcased_refl]
         | apply Forall2_upcased_refl].
Qed.

Lemma op_not_word c : isOp c = true -> isWord c = false.
Proof. destruct c as [[] [] [] [] [] [] [] []]; intros H; try discriminate H; reflexivity. Qed.

Lemma space_not_word c : isSpace c = true -> isWord c = false.
Proof. destruct c as [[] [] [] [] [] [] [] []]; intros H; try discriminate H; reflexivity. Qed.

(** *** The passes on operators and white space keep the words *)
Lemma space_after_fields n : forall s,
  length s <= n -> same_fields true s (space_after s).
Proof.
  induction n as [|n IH]; intros s Hl.
  - destruct s; [apply same_fields_refl | simpl in Hl; lia].
  - destruct s as [|c s]; [apply same_fields_refl|].
    destruct s as [|d rest]; [apply same_fields_refl|].
    rewrite space_after_step.
    destruct (isOp c && negb (isCmp d || isSpace d)) eqn:E.
    + apply andb_true_iff in E as [E _]. apply op_not_word in E.
      apply same_fields_sep; try exact E.
      unfold same_words. rewrite (words_sep " "%char) by reflexivity.
      apply (same_fields_words false), same_fields_cons, IH.
      cbn [length] in *; lia.
    + apply same_fields_cons, IH. cbn [length] in *; lia.
Qed.

Lemma space_before_fields n : forall s,
  length s <= n -> same_fields true s (space_before s).
Proof.
  induction n as [|n IH]; intros s Hl.
  - destruct s; [apply same_fields_refl | simpl in Hl; lia].
  - destruct s as [|x s]; [apply same_fields_refl|].
    destruct s as [|o rest]; [apply same_fields_refl|].
    rewrite space_before_step.
    destruct (negb (isSpace x || isOp x) && isOp o) eqn:E.
    + apply andb_true_iff in E as [_ E]. apply op_not_word in E.
      apply same_fields_cons. apply same_fields_sep; [exact E | reflexivity |].
      unfold same_words. rewrite (words_sep o) by exact E.
      apply (same_fields_words true), IH. cbn [length] in *; lia.
    + apply same_fields_cons, IH. cbn [length] in *; lia.
Qed.

Lemma collapse_fields s :
  same_fields true s (collapse false s) /\ same_words s (collapse true s).
Proof.
  induction s as [|c s [IH0 IH1]]; [split; [apply same_fields_refl | apply same_words_refl]|].
  split.
  - cbn [collapse]. destruct (isSpace c && is_space_at s) eqn:E.
    + apply andb_true_iff in E as [E _]. apply space_not_word in E.
      apply same_fields_sep; [exact E | reflexivity | exact IH1].
    + apply same_fields_cons, IH0.
  - cbn [collapse]. destruct (isSpace c) eqn:E.
    + unfold same_words. rewrite (words_sep c) by (apply space_not_word, E).
      exact IH1.
    + apply (same_fields_words false), same_fields_cons, IH0.
Qed.

(** *** Keywords *)
Lemma upcase_word_step K pw c s :
  upcase_word K pw (c :: s) =
  if negb pw && ci_prefix K (c :: s) &&
     negb (is_word_at (skipn (length K) (c :: s)))
  then K ++ skipn (length K) (c :: s)
  else c :: upcase_word K (isWord c) s.
Proof. reflexivity. Qed.

Lemma upcase_pair_step K1 K2 pw c s :
  upcase_pair K1 K2 pw (c :: s) =
  if negb pw && ci_prefix K1 (c :: s) &&
     is_space_at (skipn (length K1) (c :: s)) &&
     ci_prefix K2 (trimStart (skipn (length K1) (c :: s))) &&
     negb (is_word_at (skipn (length K2)
                             (trimStart (skipn (length K1) (c :: s)))))
  then K1 ++ " " ++ K2 ++
       skipn (length K2) (trimStart (skipn (length K1) (c :: s)))
  else c :: upcase_pair K1 K2 (isWord c) s.
Proof. reflexivity. Qed.

Lemma upper_is_word k : isUpper k = true -> isWord k = true.
Proof. destruct k as [[] [] [] [] [] [] [] []]; intros H; try discriminate H; reflexivity. Qed.

Lemma upper_word K : forallb isUpper K = true -> forallb isWord K = true.
Proof.
  intros H. rewrite forallb_forall in *. intros k Hk. apply upper_is_word, H, Hk.
Qed.

Lemma ci_prefix_upper K : forall s,
  forallb isUpper K = true -> ci_prefix K s = true ->
  toUpperCase (firstn (length K) s) = K /\
  forallb isWord (firstn (length K) s) = true.
Proof.
  induction K as [|k K IH]; intros s HK H; [split; reflexivity|].
  destruct s as [|x s]; [discriminate|].
  rewrite ci_prefix_cons in H. apply andb_true_iff in H as [Hx H].
  cbn [forallb] in HK. apply andb_true_iff in HK as [Hk HK].
  destruct (IH s HK H) as [H1 H2].
  cbn [length firstn forallb]. unfold toUpperCase in *. cbn [map].
  rewrite H1, H2, (ci_letter_word k x Hk Hx).
  apply Ascii.eqb_eq in Hx. rewrite <- Hx, (upper_of_upper k Hk).
  split; reflexivity.
Qed.

Lemma ci_prefix_own m r : ci_prefix (toUpperCase m) (m ++ r) = true.
Proof.
  induction m as [|x m IH]; [reflexivity|].
  unfold toUpperCase in *. cbn [map app]. rewrite ci_prefix_cons, IH, upper_upper.
  unfold ceq. rewrite Ascii.eqb_refl. reflexivity.
Qed.

Lemma skipn_own (m r : str) : skipn (length (toUpperCase m)) (m ++ r) = r.
Proof.
  unfold toUpperCase. rewrite length_map, skipn_app, skipn_all, Nat.sub_diag.
  reflexivity.
Qed.

Lemma word_match_fields K s :
  forallb isUpper K = true -> ci_prefix K s = true ->
  is_word_at (skipn (length K) s) = false ->
  first_field s = firstn (length K) s /\
  later_words s = later_words (skipn (length K) s) /\
  first_field (K ++ skipn (length K) s) = K /\
  later_words (K ++ skipn (length K) s) = later_words (skipn (length K) s) /\
  toUpperCase (firstn (length K) s) = K.
Proof.
  intros HK H Hr. destruct (ci_prefix_upper K s HK H) as [H1 H2].
  destruct (word_prefix _ _ H2 Hr) as [H3 H4].
  destruct (word_prefix _ _ (upper_word K HK) Hr) as [H5 H6].
  rewrite firstn_skipn in H3, H4. repeat split; assumption.
Qed.

Lemma upcase_word_fields K : forallb isUpper K = true ->
  forall s pw, same_fields pw s (upcase_word K pw s).
Proof.
  intros HK. induction s as [|c s IH]; intros pw; [apply same_fields_refl|].
  rewrite upcase_word_step.
  destruct (negb pw && ci_prefix K (c :: s) &&
            negb (is_word_at (skipn (length K) (c :: s)))) eqn:E.
  - apply andb_true_iff in E as [E E3]. apply andb_true_iff in E as [E1 E2].
    apply negb_true_iff in E1, E3. subst pw.
    destruct (word_match_fields K _ HK E2 E3) as (H1 & H2 & H3 & H4 & H5).
    split.
    + right. rewrite H1, H3, H5. reflexivity.
    + rewrite H2, H4. apply Forall2_upcased_refl.
  - destruct (isWord c) eqn:Hc.
    + apply same_fields_cons. specialize (IH true). exact IH.
    + apply same_fields_sep; try exact Hc.
      apply (same_fields_words false), IH.
Qed.

Lemma upcase_word_found K : keyword_word K = true ->
  forall s pw, In K (map toUpperCase (open_words pw s)) ->
               In K (open_words pw (upcase_word K pw s)).
Proof.
  intros HK0. assert (HK := HK0). unfold keyword_word in HK.
  apply andb_true_iff in HK as [Hne HK].
  induction s as [|c s IH]; intros pw H.
  - destruct pw; contradiction H.
  - rewrite upcase_word_step.
    destruct (negb pw && ci_prefix K (c :: s) &&
              negb (is_word_at (skipn (length K) (c :: s)))) eqn:E.
    + apply andb_true_iff in E as [E E3]. apply andb_true_iff in E as [E1 E2].
      apply negb_true_iff in E1, E3. subst pw.
      destruct (word_match_fields K _ HK E2 E3) as (H1 & H2 & H3 & H4 & H5).
      unfold open_words. rewrite H3. cbn [filter].
      destruct K; [discriminate Hne|]. left. reflexivity.
    + destruct (isWord c) eqn:Hc.
      * unfold open_words in *.
        rewrite later_words_word in * by exact Hc.
        rewrite first_field_word in * by exact Hc.
        rewrite map_app in H. apply in_app_or in H as [H | H].
        -- exfalso. destruct pw; [contradiction H|].
           cbn [filter nonempty map] in H. destruct H as [H | []].
           cbn [negb andb] in E.
           destruct (field_split (c :: s)) as (rest & Hs & Hr & Hw).
           rewrite first_field_word in Hs, Hw by exact Hc.
           rewrite Hs, <- H, ci_prefix_own, skipn_own, Hr in E. discriminate E.
        -- apply in_or_app. right.
           specialize (IH true). unfold open_words in IH. cbn [app] in IH.
           apply IH, H.
      * rewrite open_words_sep in * by exact Hc.
        rewrite words_open in *. apply IH, H.
Qed.

Lemma words_trimStart s : words (trimStart s) = words s.
Proof.
  induction s as [|c s IH]; [reflexivity|].
  cbn [trimStart]. destruct (isSpace c) eqn:E; [|reflexivity].
  rewrite (words_sep c) by (apply space_not_word, E). exact IH.
Qed.

Lemma space_at_not_word s : is_space_at s = true -> is_word_at s = false.
Proof. destruct s; [reflexivity|]. cbn [is_space_at is_word_at]. apply space_not_word. Qed.

Lemma later_words_start s : is_word_at s = false -> later_words s = words s.
Proof.
  intros H. rewrite words_open. unfold open_words.
  rewrite (first_field_start s H). reflexivity.
Qed.

Lemma pair_match_fields K1 K2 s :
  forallb isUpper K1 = true -> keyword_word K2 = true ->
  ci_prefix K1 s = true ->
  is_space_at (skipn (length K1) s) = true ->
  ci_prefix K2 (trimStart (skipn (length K1) s)) = true ->
  is_word_at (skipn (length K2) (trimStart (skipn (length K1) s))) = false ->
  same_fields false s
    (K1 ++ " " ++ K2 ++ skipn (length K2) (trimStart (skipn (length K1) s))).
Proof.
  intros HK1 HK2 E1 E2 E3 E4.
  unfold keyword_word in HK2. apply andb_true_iff in HK2 as [Hne HK2].
  set (after1 := skipn (length K1) s) in *.
  set (u := trimStart after1) in *.
  set (after2 := skipn (length K2) u) in *.
  destruct (ci_prefix_upper K1 s HK1 E1) as [H1 H2].
  assert (Ha := space_at_not_word _ E2).
  destruct (word_prefix _ _ H2 Ha) as [H3 H4].
  rewrite firstn_skipn in H3, H4.
  destruct (word_match_fields K2 u HK2 E3 E4) as (G1 & G2 & G3 & G4 & G5).
  change (skipn (length K2) u) with after2 in G2, G3, G4.
  change (K1 ++ " " ++ K2 ++ after2) with (K1 ++ " "%char :: K2 ++ after2).
  destruct (word_prefix K1 (" "%char :: K2 ++ after2) (upper_word K1 HK1) eq_refl)
    as [H5 H6].
  split.
  - right. rewrite H3, H5, H1. reflexivity.
  - rewrite H4, H6.
    rewrite (later_words_start after1 Ha), later_words_sep by reflexivity.
    fold after1. rewrite <- (words_trimStart after1). fold u.
    rewrite !words_open. unfold open_words. rewrite G1, G2, G3, G4.
    cbn [filter].
    assert (Hn : nonempty (firstn (length K2) u) = nonempty K2).
    { rewrite <- G5 at 2. destruct (firstn (length K2) u); reflexivity. }
    rewrite Hn. destruct (nonempty K2); cbn [app].
    + constructor; [right; symmetry; exact G5 | apply Forall2_upcased_refl].
    + apply Forall2_upcased_refl.
Qed.

Lemma upcase_pair_fields K1 K2 :
  forallb isUpper K1 = true -> keyword_word K2 = true ->
  forall s pw, same_fields pw s (upcase_pair K1 K2 pw s).
Proof.
  intros HK1 HK2. induction s as [|c s IH]; intros pw; [apply same_fields_refl|].
  rewrite upcase_pair_step.
  match goal with |- same_fields _ _ (if ?b then _ else _) => destruct b eqn:E end.
  - apply andb_true_iff in E as [E E5]. apply andb_true_iff in E as [E E4].
    apply andb_true_iff in E as [E E3]. apply andb_true_iff in E as [E1 E2].
    apply negb_true_iff in E1, E5. subst pw.
    apply pair_match_fields; assumption.
  - destruct (isWord c) eqn:Hc.
    + apply same_fields_cons. specialize (IH true). exact IH.
    + apply same_fields_sep; try exact Hc.
      apply (same_fields_words false), IH.
Qed.

Lemma upcase_keyword_words keyword s :
  keyword_ok keyword = true -> same_words s (upcase_keyword keyword s).
Proof.
  unfold keyword_ok, upcase_keyword. intros H.
  destruct (split_space [] keyword) as [| K1 [| K2 l]].
  - unfold keyword_word in H. apply andb_true_iff in H as [_ H].
    apply (same_fields_words false), upcase_word_fields, H.
  - unfold keyword_word in H. apply andb_true_iff in H as [_ H].
    apply (same_fields_words false), upcase_word_fields, H.
  - apply andb_true_iff in H as [H _]. apply andb_true_iff in H as [H1 H2].
    unfold keyword_word in H1. apply andb_true_iff in H1 as [_ H1].
    apply (same_fields_words false), upcase_pair_fields; assumption.
Qed.

Lemma same_words_upper K s t :
  same_words s t -> In K (map toUpperCase (words s)) ->
  In K (map toUpperCase (words t)).
Proof.
  unfold same_words. intros H. induction H as [|w w' l l' Hw _ IH]; [exact (fun x => x)|].
  cbn [map]. intros [<- | Hin]; [left; apply upcased_upper, Hw | right; apply IH, Hin].
Qed.

Lemma same_words_exact K s t :
  toUpperCase K = K -> same_words s t -> In K (words s) -> In K (words t).
Proof.
  unfold same_words. intros HK H. induction H as [|w w' l l' Hw _ IH]; [exact (fun x => x)|].
  intros [<- | Hin]; [left | right; apply IH, Hin].
  destruct Hw as [-> | ->]; [reflexivity | exact HK].
Qed.

Lemma upper_fixed K : forallb isUpper K = true -> toUpperCase K = K.
Proof.
  induction K as [|k K IH]; [reflexivity|]. cbn [forallb]. intros H.
  apply andb_true_iff in H as [Hk H]. unfold toUpperCase in *. cbn [map].
  rewrite IH, (upper_of_upper k Hk) by exact H. reflexivity.
Qed.

Lemma single_word_keyword K :
  In K single_word_keywords ->
  keyword_word K = true /\ In K (strs sqlKeywords) /\
  forall s, upcase_keyword K s = upcase_word K false s.
Proof.
  intros H.
  assert (Hall : forallb (fun K => keyword_word K &&
                            match split_space [] K with
                            | _ :: _ :: _ => false
                            | _ => true
                            end) single_word_keywords = true)
    by (vm_compute; reflexivity).
  rewrite forallb_forall in Hall. specialize (Hall K H).
  apply andb_true_iff in Hall as [H1 H2].
  split; [exact H1|]. split.
  - revert H. unfold single_word_keywords. intros H.
    exact (proj1 (proj1 (filter_In is_single_word K (strs sqlKeywords)) H)).
  - intros s. unfold upcase_keyword.
    destruct (split_space [] K) as [| K1 [| K2 l]]; [reflexivity.. | discriminate H2].
Qed.

Lemma keywords_found K : forallb isUpper K = true -> keyword_word K = true ->
  (forall s, upcase_keyword K s = upcase_word K false s) ->
  forall (l : list str) s,
    forallb keyword_ok l = true ->
    let out := fold_left (fun s keyword => upcase_keyword keyword s) l s in
    (In K (words s) -> In K (words out)) /\
    (In K l -> In K (map toUpperCase (words s)) -> In K (words out)).
Proof.
  intros HK HK0 Hstep. induction l as [|k l IH]; intros s Hl; cbn [fold_left].
  - split; [exact (fun x => x) | intros []].
  - cbn [forallb] in Hl. apply andb_true_iff in Hl as [Hk Hl].
    destruct (IH (upcase_keyword k s) Hl) as [IH1 IH2].
    pose proof (upcase_keyword_words k s Hk) as Hw.
    split.
    + intros H. apply IH1. eapply same_words_exact; [apply upper_fixed, HK | exact Hw | exact H].
    + intros [-> | Hin] H.
      * apply IH1. rewrite Hstep, words_open. apply upcase_word_found; [exact HK0|].
        rewrite <- words_open. exact H.
      * apply IH2; [exact Hin|]. eapply same_words_upper; eassumption.
Qed.

Lemma fold_left_strs {A : Type} (f : A -> str -> A) (l : list string) a :
  fold_left (fun x (k : string) => f x k) l a = fold_left f (strs l) a.
Proof.
  revert a. induction l as [|k l IH]; intros a; [reflexivity|].
  cbn [strs map fold_left]. apply IH.
Qed.

Lemma normalize_sql_keywords K line :
  In K single_word_keywords ->
  In K (map toUpperCase (words line)) -> In K (words (normalize_sql line)).
Proof.
  intros HK H. destruct (single_word_keyword K HK) as (Hw & Hin & Hstep).
  assert (Hup : forallb isUpper K = true)
    by (unfold keyword_word in Hw; apply andb_true_iff in Hw; apply Hw).
  assert (Hok : forallb keyword_ok (strs sqlKeywords) = true)
    by (vm_compute; reflexivity).
  unfold normalize_sql.
  rewrite (fold_left_strs (fun s keyword => upcase_keyword keyword s)).
  destruct (keywords_found K Hup Hw Hstep (strs sqlKeywords) line Hok) as [_ Hf].
  specialize (Hf Hin H). revert Hf.
  generalize (fold_left (fun s keyword => upcase_keyword keyword s)
                        (strs sqlKeywords) line).
  intros s Hs.
  apply (same_words_exact K (space_before (space_after s)));
    [apply upper_fixed, Hup
    | apply (same_fields_words true), (proj1 (collapse_fields _)) |].
  apply (same_words_exact K (space_after s));
    [apply upper_fixed, Hup
    | apply (same_fields_words true), (space_before_fields _ _ (le_n _)) |].
  apply (same_words_exact K s);
    [apply upper_fixed, Hup
    | apply (same_fields_words true), (space_after_fields _ _ (le_n _))
    | exact Hs].
Qed.









Lemma word_at_first_field s : is_word_at s = true -> first_field s <> [].
Proof.
  destruct s as [|c s]; [discriminate|]. cbn [is_word_at]. intros H.
  rewrite first_field_word by exact H. discriminate.
Qed.




































(** *** The passes on keywords, told on the segments *)

































End NormalizerFacts.

(* ================================================================== *)
(** * The linter *)
(* ================================================================== *)

Module LinterClaims.

Import Js Regex Model Rules Diagnostics Spec.
Import RegexFacts LoopFacts RulesFacts.

(** C5 (rule K1).  [checkPrimaryKeys] reports, view by view in the order
    of the object, what [k1_expected] lists: nothing for a view with
    neither a derived table nor a table name; for a view with one of
    them, one missing-primary-key violation when no dimension has
    [primary_key] equal to [true], and otherwise one naming violation
    for each primary-key dimension whose name is not [pk] followed by
    digits, in any letter case.  A view on a table whose only dimension
    [user_id] is a primary key gets exactly one violation, the naming
    one, and none once the dimension is called [pk]. *)
Theorem k1_primary_key_rule :
  (forall lookml,
      checkPrimaryKeys lookml =
      flat_map (fun entry => k1_expected (fst entry) (snd entry))
               (or_empty (views lookml))) /\
  applyRules (view_with_primary_key "user_id") (strs ["k1"%string]) =
    [k1_naming "users" "user_id"] /\
  applyRules (view_with_primary_key "pk") (strs ["k1"%string]) = [].
Proof.
  split; [exact checkPrimaryKeys_spec |].
  split; vm_compute; reflexivity.
Qed.

(** C6 (rule E1), at an input where the code departs from it.  In the
    join condition [a.x = b.y AND a.z = b.w] the pattern
    [identifier.identifier] has four matches, none of them prefixed by
    [safe.]; [checkJoinReferences] reports three violations, because the
    second part of its pattern also runs over spaces and so takes
    [b.y AND a.z ] for one reference.  The two examples of the
    specification come out as it says: two violations and none. *)
Theorem e1_merges_references_across_spaces :
  let sqlOn : str := "a.x = b.y AND a.z = b.w" in
  match_all false identifierPairPattern (cleanSql sqlOn) =
    strs ["a.x"; "b.y"; "a.z"; "b.w"]%string /\
  applyRules (explore_with_join sqlOn) (strs ["e1"%string]) =
    map (e1_violation "orders" "users")
        (strs ["a.x "; "b.y AND a.z "; "b.w"]%string) /\
  length (applyRules (explore_with_join "orders.user_id = users.id")
                     (strs ["e1"%string])) = 2 /\
  applyRules (explore_with_join "${orders.user_id} = safe.users.id")
             (strs ["e1"%string]) = [].
Proof. repeat split; vm_compute; reflexivity. Qed.

Lemma f1_messages_differ fieldType fieldName viewName ref ref' :
  message (f1_sql fieldType fieldName viewName ref) <>
  message (f1_html fieldType fieldName viewName ref').
Proof.
  cbn [message f1_sql f1_html]. intros H.
  repeat (apply app_inv_head in H).
  cbn in H. inversion H.
Qed.

(** C7 (rule F1).  [checkCrossViewReferences] reports, view by view,
    what [f1_expected] lists: nothing for a view with neither a derived
    table nor a table name; otherwise, for its dimensions, dimension
    groups, measures and filters in turn, one violation for each
    [${view.field}] found in the [sql] of the field and then in its
    [html] whose view is neither the enclosing view nor [TABLE].  The
    message for [sql] is never the message for [html].  A dimension of
    view [orders] with [sql: ${users.name}] gets one violation, and none
    with [sql: ${TABLE}.id]. *)
Theorem f1_cross_view_rule :
  (forall lookml,
      checkCrossViewReferences lookml =
      flat_map (fun entry => f1_expected (fst entry) (snd entry))
               (or_empty (views lookml))) /\
  (forall fieldType fieldName viewName ref ref',
      message (f1_sql fieldType fieldName viewName ref) <>
      message (f1_html fieldType fieldName viewName ref')) /\
  applyRules (view_with_dimension_sql "${users.name}") (strs ["f1"%string]) =
    [f1_sql "dimension" "user_name" "orders" "users.name"] /\
  applyRules (view_with_dimension_sql "${TABLE}.id") (strs ["f1"%string]) = [].
Proof.
  split; [exact checkCrossViewReferences_spec |].
  split; [exact f1_messages_differ |].
  split; vm_compute; reflexivity.
Qed.

Lemma activeRules_In enabled disabled ruleName :
  In ruleName (activeRules enabled disabled) <->
  In ruleName enabled /\ ~ In ruleName disabled.
Proof.
  unfold activeRules. rewrite filter_In.
  split; intros [Hin H]; (split; [exact Hin |]).
  - intros Hd. apply negb_true_iff in H.
    assert (existsb (seq_eqb ruleName) disabled = true); [| congruence].
    apply existsb_exists. exists ruleName. split; [exact Hd | apply seq_eqb_refl].
  - apply negb_true_iff. destruct (existsb _ disabled) eqn:E; [| reflexivity].
    apply existsb_exists in E. destruct E as (x & Hx & Heq).
    apply seq_eqb_eq in Heq. subst. contradiction.
Qed.

Lemma applyRules_run_one table lookml ruleName :
  applyRules_run table lookml [ruleName] =
  match table ruleName with
  | Rule r =>
      match check r lookml with
      | Returns violations => (violations, [])
      | Throws => ([], [Some (id r)])
      end
  | Inherited => ([], [None])
  | Undefined => ([], [])
  end.
Proof.
  unfold applyRules_run. cbn [filter].
  destruct (table ruleName) as [r | |] eqn:E; cbn [is_defined map fold_left];
    rewrite ?E; cbn [apply_rule]; [destruct (check r lookml) | |]; reflexivity.
Qed.

(** C8 (the rule engine), at the names where the code departs from it.
    A name that is no member of the table of rules, such as [zz], is
    dropped by the filter of [applyRules]: nothing is run and nothing is
    logged.  A name that every object inherits from [Object.prototype],
    such as [toString], [constructor] or [__proto__], is no rule either,
    but the filter keeps it: the engine calls its [check], the call
    throws, and the failure is logged.  So such an unknown name is not
    skipped in silence, though it adds no violation: with [toString]
    before [k1] the violations are those of [k1].
    The rest of the claim holds.  The rules applied are those of the
    enabled list that are not in the disabled list.  The result for a
    list of names is the result for its first part followed by the
    result for the rest, so no rule cuts another short.  A single name
    contributes the violations its rule returns, and a rule that throws
    contributes none and is logged.  [getLookMLDiagnostics] collects
    exactly these contributions, from the model of the package parser
    or else of the fallback parser. *)
Theorem rule_engine_runs_inherited_names :
  Forall (fun ruleName =>
            forall lookml,
              applyRules_run ALL_RULES lookml [ruleName] = ([], [None]))
         (strs objectPrototypeKeys) /\
  (forall lookml,
      applyRules_run ALL_RULES lookml [("zz" : str)] = ([], [])) /\
  (forall lookml,
      applyRules_run ALL_RULES lookml (strs ["toString"; "k1"]%string) =
      (checkPrimaryKeys lookml, [None])) /\
  (forall enabled disabled ruleName,
      In ruleName (activeRules enabled disabled) <->
      In ruleName enabled /\ ~ In ruleName disabled) /\
  (forall table lookml ids1 ids2,
      applyRulesIn table lookml (ids1 ++ ids2) =
      applyRulesIn table lookml ids1 ++ applyRulesIn table lookml ids2) /\
  (forall table lookml ruleName,
      applyRules_run table lookml [ruleName] =
      match table ruleName with
      | Rule r =>
          match check r lookml with
          | Returns violations => (violations, [])
          | Throws => ([], [Some (id r)])
          end
      | Inherited => ([], [None])
      | Undefined => ([], [])
      end) /\
  (forall parseLookML content enabled disabled,
      getLookMLViolations parseLookML content enabled disabled =
      option_map
        (fun lookml =>
           flat_map (contribution ALL_RULES lookml) (activeRules enabled disabled))
        (match parseLookML content with
         | Some lookmlData => Some lookmlData
         | None => Parser.fallback content
         end)).
Proof.
  split.
  { unfold objectPrototypeKeys, strs. cbn [map].
    repeat (apply Forall_cons; [intros lookml; reflexivity |]).
    apply Forall_nil. }
  split; [intros lookml; reflexivity |].
  split; [intros lookml; reflexivity |].
  split; [exact activeRules_In |].
  split; [exact applyRulesIn_app |].
  split; [exact applyRules_run_one |].
  intros parseLookML content enabled disabled. unfold getLookMLViolations.
  destruct (parseLookML content) as [lookmlData |]; cbn [option_map].
  - unfold applyRules. rewrite applyRulesIn_spec. reflexivity.
  - destruct (Parser.fallback content); cbn [option_map]; [| reflexivity].
    unfold applyRules. rewrite applyRulesIn_spec. reflexivity.
Qed.

Lemma filter_all {A : Type} (keep : A -> bool) l :
  (forall x, In x l -> keep x = true) -> filter keep l = l.
Proof.
  induction l as [| x l IH]; intros H; cbn [filter]; [reflexivity |].
  rewrite (H x (or_introl eq_refl)), IH; [reflexivity |].
  intros y Hy. apply H. right. exact Hy.
Qed.

Lemma filter_none {A : Type} (keep : A -> bool) l :
  (forall x, In x l -> keep x = false) -> filter keep l = [].
Proof.
  induction l as [| x l IH]; intros H; cbn [filter]; [reflexivity |].
  rewrite (H x (or_introl eq_refl)), IH; [reflexivity |].
  intros y Hy. apply H. right. exact Hy.
Qed.

(** C10 (no deduplication).  In the result of [applyRules] the
    violations that carry the identifier of a rule are the violations
    its check returns, repeated once for each occurrence of the
    identifier in the list of enabled rules, in order; a list that
    repeats one identifier [n] times yields [n] copies. *)
Theorem applyRules_keeps_duplicates :
  forall lookml enabledRuleIds ruleName n,
    filter (fun v => seq_eqb ruleName (ruleId v))
           (applyRules lookml enabledRuleIds) =
    concat (List.repeat (contribution ALL_RULES lookml ruleName)
                        (occurrences ruleName enabledRuleIds)) /\
    applyRules lookml (List.repeat ruleName n) =
    concat (List.repeat (contribution ALL_RULES lookml ruleName) n).
Proof.
  intros lookml enabledRuleIds ruleName n. unfold applyRules.
  rewrite !applyRulesIn_spec. split.
  - unfold occurrences.
    induction enabledRuleIds as [| x ids IH]; cbn [flat_map filter];
      [reflexivity |].
    rewrite filter_app, IH.
    destruct (seq_eqb ruleName x) eqn:E.
    + apply seq_eqb_eq in E. subst x. cbn [length List.repeat concat].
      f_equal. apply filter_all. intros v Hv.
      apply contribution_ruleId in Hv. rewrite Hv. apply seq_eqb_refl.
    + rewrite filter_none; [reflexivity |]. intros v Hv.
      apply contribution_ruleId in Hv. rewrite Hv. exact E.
  - induction n as [| n IH]; cbn [List.repeat flat_map concat];
      [reflexivity | rewrite IH; reflexivity].
Qed.

Lemma no_violation_without_declarations lookml enabledRuleIds :
  or_empty (views lookml) = [] -> or_empty (explores lookml) = [] ->
  applyRules lookml enabledRuleIds = [].
Proof.
  intros Hv He. unfold applyRules. rewrite applyRulesIn_spec.
  apply flat_map_nil. intros ruleName _. unfold contribution.
  destruct (ALL_RULES ruleName) as [r | |] eqn:E; try reflexivity.
  apply ALL_RULES_rule in E.
  destruct E as [[_ ->] | [[_ ->] | [_ ->]]]; cbn [check k1 e1 f1].
  - rewrite checkPrimaryKeys_spec, Hv. reflexivity.
  - rewrite checkJoinReferences_spec, He. reflexivity.
  - rewrite checkCrossViewReferences_spec, Hv. reflexivity.
Qed.

Lemma format_empty cfg localeCompare : Formatter.format cfg localeCompare [] = [].
Proof.
  destruct cfg as [size spaces [|] [|]]; reflexivity.
Qed.

(** C9 (totality).  On every text, well-formed or not, the fallback
    parser returns, and the model it returns has its three collections.
    On the empty text the model is empty, [format] returns no edit, and
    the linter returns no violation, whether the package parser fails on
    it or yields a model without views and explores. *)
Theorem fallback_parser_returns_and_empty_input
        (parseLookML : str -> option ParsedLookML)
        (cfg : Formatter.Config) (localeCompare : str -> str -> comparison)
        (enabledRules disabledRules : list str) (content : str) :
  (forall lookml, parseLookML [] = Some lookml ->
                  or_empty (views lookml) = [] /\
                  or_empty (explores lookml) = []) ->
  (exists vs es ms,
      Parser.parseLookMLSync content =
      Some {| Parser.s_views := Some vs; Parser.s_explores := Some es;
              Parser.s_models := Some ms |}) /\
  Parser.parseLookMLSync [] =
    Some {| Parser.s_views := Some empty_object;
            Parser.s_explores := Some empty_object;
            Parser.s_models := Some empty_object |} /\
  Formatter.format cfg localeCompare [] = [] /\
  getLookMLViolations parseLookML [] enabledRules disabledRules = Some [].
Proof.
  intros Hparse. split; [| split; [| split]].
  - destruct (ParserFacts.parseLookMLSync_total content)
      as (result & -> & vs & es & ms & ->).
    exists vs, es, ms. reflexivity.
  - reflexivity.
  - apply format_empty.
  - unfold getLookMLViolations.
    destruct (parseLookML []) as [lookmlData |] eqn:E.
    + destruct (Hparse lookmlData eq_refl) as [Hv He].
      rewrite no_violation_without_declarations by assumption. reflexivity.
    + assert (Parser.fallback [] =
              Some {| views := Some []; explores := Some []; models := Some [] |})
        as -> by reflexivity.
      rewrite no_violation_without_declarations by reflexivity. reflexivity.
Qed.

(** The same on a text whose view and dimension are never closed, with a
    package parser that fails. *)
Lemma fallback_parser_returns_witness :
  (exists vs es ms,
      Parser.parseLookMLSync
        "view: orders {
  sql_table_name: public.orders ;;
  dimension: id {
    type: number" =
      Some {| Parser.s_views := Some vs; Parser.s_explores := Some es;
              Parser.s_models := Some ms |}) /\
  Parser.parseLookMLSync [] =
    Some {| Parser.s_views := Some empty_object;
            Parser.s_explores := Some empty_object;
            Parser.s_models := Some empty_object |} /\
  Formatter.format
    {| Formatter.indentSize := 2; Formatter.useSpaces := true;
       Formatter.groupFieldsByType := true; Formatter.sortFields := true |}
    (fun _ _ => Eq) [] = [] /\
  getLookMLViolations (fun _ => None) [] (strs ["k1"; "e1"; "f1"]%string) [] =
    Some [].
Proof.
  apply fallback_parser_returns_and_empty_input.
  intros lookml H. discriminate H.
Defined.

End LinterClaims.

(* ================================================================== *)
(** * The formatter *)
(* ================================================================== *)

Module FormatterClaims.

Import Js Regex Formatter Spec.

(** C1 (idempotence), at an input where the code departs from it.  The
    view of the test suite with a measure before a dimension is formatted
    into two marked sections; formatting that text again attaches the
    markers between the two fields to the measure as its comments and
    emits them once more, so the second text differs from the first, and
    the two are what is written here whatever the collation. *)
Theorem formatting_twice_repeats_markers :
  forall localeCompare,
    formatDocument grouped_and_sorted localeCompare measure_then_dimension =
      measure_then_dimension_formatted /\
    formatDocument grouped_and_sorted localeCompare
      measure_then_dimension_formatted =
      measure_then_dimension_formatted_twice /\
    measure_then_dimension_formatted_twice <> measure_then_dimension_formatted.
Proof.
  intros localeCompare. split; [| split].
  - vm_compute. reflexivity.
  - vm_compute. reflexivity.
  - intros H. apply (f_equal (@length ascii)) in H. vm_compute in H.
    discriminate H.
Qed.

(** C2 (opaque atoms), at inputs where the code departs from it.  In the
    SQL of a derived table the tag [{% else %}] comes out as
    [{% ELSE %}], and in the SQL of a dimension the token
    [${orders.from}] comes out as [${orders.FROM}]: the text of neither
    is kept. *)
Theorem formatting_rewrites_inside_atoms :
  forall localeCompare,
    formatText grouped_and_sorted localeCompare liquid_in_derived_table =
      liquid_in_derived_table_formatted /\
    includes liquid_in_derived_table "{% else %}" = true /\
    includes liquid_in_derived_table_formatted "{% else %}" = false /\
    formatText grouped_and_sorted localeCompare substitution_in_dimension =
      substitution_in_dimension_formatted /\
    includes substitution_in_dimension "${orders.from}" = true /\
    includes substitution_in_dimension_formatted "${orders.from}" = false /\
    formatSqlKeywords "{% else %}" = ("{% ELSE %}" : str) /\
    formatSqlWithLookMLVars "${orders.from} = 1" = ("${orders.FROM} = 1" : str).
Proof. intros localeCompare. repeat split; vm_compute; reflexivity. Qed.

Lemma permutation_of_three {A : Type} (a b c : A) l :
  Permutation l [a; b; c] ->
  l = [a; b; c] \/ l = [a; c; b] \/ l = [b; a; c] \/
  l = [b; c; a] \/ l = [c; a; b] \/ l = [c; b; a].
Proof.
  intros H.
  assert (Hin : In a l)
    by (apply (Permutation_in a (Permutation_sym H)); left; reflexivity).
  apply in_split in Hin. destruct Hin as (l1 & l2 & ->).
  apply Permutation_sym, Permutation_cons_app_inv in H.
  apply Permutation_length_2_inv in H.
  destruct l1 as [| x [| y [| z l1]]]; cbn [app] in H |- *;
    destruct H as [H | H]; inversion H; subst; auto 10;
    try (destruct l1; discriminate).
Qed.

(** The formatter depends on the collation through its values only. *)
Section Collation.

Variable cfg : Config.
Variables localeCompare localeCompare' : str -> str -> comparison.
Hypothesis same : forall a b, localeCompare a b = localeCompare' a b.

Lemma sort_by_name_ext l :
  sort_by_name localeCompare l = sort_by_name localeCompare' l.
Proof.
  induction l as [| x l IH]; cbn [sort_by_name]; [reflexivity |].
  rewrite IH. generalize (sort_by_name localeCompare' l). intros sorted.
  induction sorted as [| y sorted IHs]; cbn [sort_insert]; [reflexivity |].
  rewrite same, IHs. reflexivity.
Qed.

Lemma organizeViewFields_ext view output :
  organizeViewFields cfg localeCompare view output =
  organizeViewFields cfg localeCompare' view output.
Proof.
  unfold organizeViewFields. rewrite !sort_by_name_ext. reflexivity.
Qed.

Lemma formatView_ext view output :
  formatView cfg localeCompare view output =
  formatView cfg localeCompare' view output.
Proof. unfold formatView. rewrite organizeViewFields_ext. reflexivity. Qed.

Lemma format_views_ext lines views : forall currentLine formattedLines,
  format_views cfg localeCompare lines views currentLine formattedLines =
  format_views cfg localeCompare' lines views currentLine formattedLines.
Proof.
  induction views as [| view views IH]; intros currentLine formattedLines;
    cbn [format_views]; [reflexivity |].
  rewrite formatView_ext. apply IH.
Qed.

Lemma formatText_ext text :
  formatText cfg localeCompare text = formatText cfg localeCompare' text.
Proof.
  unfold formatText, formatWithAdvancedOptions.
  destruct (parseViews cfg (split_lines [] text)); [reflexivity |].
  rewrite format_views_ext. reflexivity.
Qed.

End Collation.

(** C4 (grouping and sorting), at inputs where the code departs from
    it.  When the view [sales] is the only view of the document, it is
    formatted as the claim says, in whatever order the measure
    [total_sales] and the dimensions [zebra] and [apple] are declared and
    for every collation that puts [apple] before [zebra]: the Dimensions
    section first, with [apple] before [zebra] between its two markers,
    then the Measures section with [total_sales] between its two markers.
    After a view that has a dimension, the same view is written without
    the two markers of its Dimensions section: [addFieldSection] looks
    for a marker among all the lines written so far, those of the
    earlier view included.  And the dimension groups of a view are
    written after its dimensions, not among them in the order of the
    names: [alpha] comes after [beta], and [created] after [zebra] in the
    view with a field of each kind, whose sections are otherwise in the
    order filters, parameters, dimensions, measures. *)
Theorem later_views_lose_section_markers :
  forall (localeCompare : str -> str -> comparison) (fields : list (list str)),
    localeCompare "apple" "zebra" = Lt ->
    localeCompare "zebra" "apple" = Gt ->
    Permutation fields [total_sales_measure; zebra_dimension; apple_dimension] ->
    formatText grouped_and_sorted localeCompare (sales_view fields) =
      sales_view_formatted /\
    formatText grouped_and_sorted localeCompare
      (customers_view ++ [nl] ++ sales_view fields) =
      customers_view_formatted ++ [nl] ++ sales_view_after_customers /\
    includes sales_view_formatted "# ----- Dimensions -----" = true /\
    includes sales_view_after_customers "Dimensions -----" = false /\
    formatText grouped_and_sorted localeCompare group_and_dimension =
      group_and_dimension_formatted /\
    formatText grouped_and_sorted localeCompare every_kind_of_field =
      every_kind_of_field_formatted.
Proof.
  intros localeCompare fields Haz Hza Hperm.
  assert (Hsame : forall a b,
             localeCompare a b = apple_before_zebra localeCompare a b).
  { intros a b. unfold apple_before_zebra.
    destruct (seq_eqb a "apple" && seq_eqb b "zebra") eqn:E1.
    - apply andb_true_iff in E1. destruct E1 as [Ea Eb].
      apply RulesFacts.seq_eqb_eq in Ea, Eb. subst. exact Haz.
    - destruct (seq_eqb a "zebra" && seq_eqb b "apple") eqn:E2;
        [| reflexivity].
      apply andb_true_iff in E2. destruct E2 as [Ea Eb].
      apply RulesFacts.seq_eqb_eq in Ea, Eb. subst. exact Hza. }
  rewrite !(formatText_ext _ _ _ Hsame).
  apply permutation_of_three in Hperm.
  split; [| split; [| repeat split; vm_compute; reflexivity]];
    destruct Hperm as [-> | [-> | [-> | [-> | [-> | ->]]]]];
    vm_compute; reflexivity.
Qed.

(** The declaration order of the specification, under code unit order. *)
Lemma later_views_lose_section_markers_witness :
  let fields := [total_sales_measure; zebra_dimension; apple_dimension] in
  formatText grouped_and_sorted codeUnitCompare (sales_view fields) =
    sales_view_formatted /\
  formatText grouped_and_sorted codeUnitCompare
    (customers_view ++ [nl] ++ sales_view fields) =
    customers_view_formatted ++ [nl] ++ sales_view_after_customers /\
  includes sales_view_formatted "# ----- Dimensions -----" = true /\
  includes sales_view_after_customers "Dimensions -----" = false /\
  formatText grouped_and_sorted codeUnitCompare group_and_dimension =
    group_and_dimension_formatted /\
  formatText grouped_and_sorted codeUnitCompare every_kind_of_field =
    every_kind_of_field_formatted.
Proof.
  intros fields.
  apply later_views_lose_section_markers.
  - reflexivity.
  - reflexivity.
  - apply Permutation_refl.
Defined.




End FormatterClaims.

(* ================================================================== *)
(** * What the formatter keeps *)
(* ================================================================== *)

Module FormatterFacts.

Import Js Regex Formatter Spec FormatterShapes RegexFacts NormalizerFacts.


(** *** Visible characters *)

Lemma visible_app s t : visible (s ++ t) = visible s ++ visible t.
Proof. unfold visible, toUpperCase. rewrite filter_app, map_app. reflexivity. Qed.

Lemma visible_space c s : isSpace c = true -> visible (c :: s) = visible s.
Proof. intros H. unfold visible. cbn [filter]. rewrite H. reflexivity. Qed.

Lemma visible_keep c s :
  isSpace c = false -> visible (c :: s) = upper c :: visible s.
Proof. intros H. unfold visible. cbn [filter]. rewrite H. reflexivity. Qed.

Lemma visible_trimStart s : visible (trimStart s) = visible s.
Proof.
  induction s as [|c s IH]; [reflexivity|]. cbn [trimStart].
  destruct (isSpace c) eqn:E; [|reflexivity].
  rewrite (visible_space c s E). exact IH.
Qed.

Lemma word_not_space c : isWord c = true -> isSpace c = false.
Proof.
  intros H. destruct (isSpace c) eqn:E; [|reflexivity].
  apply space_not_word in E. congruence.
Qed.

Lemma visible_word m : forallb isWord m = true -> visible m = toUpperCase m.
Proof.
  induction m as [|c m IH]; [reflexivity|]. cbn [forallb]. intros H.
  apply andb_true_iff in H as [Hc H].
  rewrite (visible_keep c m (word_not_space c Hc)), (IH H). reflexivity.
Qed.

Lemma visible_match K s :
  forallb isUpper K = true -> ci_prefix K s = true ->
  visible (K ++ skipn (length K) s) = visible s.
Proof.
  intros HK H. destruct (ci_prefix_upper K s HK H) as [H1 H2].
  rewrite <- (firstn_skipn (length K) s) at 2. rewrite !visible_app.
  rewrite (visible_word _ H2), H1, (visible_word K (upper_word K HK)).
  rewrite (upper_fixed K HK). reflexivity.
Qed.

Lemma upcase_word_visible K : forallb isUpper K = true ->
  forall s pw, visible (upcase_word K pw s) = visible s.
Proof.
  intros HK. induction s as [|c s IH]; intros pw; [reflexivity|].
  rewrite upcase_word_step.
  destruct (negb pw && ci_prefix K (c :: s) &&
            negb (is_word_at (skipn (length K) (c :: s)))) eqn:E.
  - apply andb_true_iff in E as [E _]. apply andb_true_iff in E as [_ E].
    apply visible_match; assumption.
  - unfold visible in *. cbn [filter].
    destruct (negb (isSpace c)); unfold toUpperCase in *; cbn [map];
      rewrite IH; reflexivity.
Qed.

Lemma upcase_pair_visible K1 K2 :
  forallb isUpper K1 = true -> forallb isUpper K2 = true ->
  forall s pw, visible (upcase_pair K1 K2 pw s) = visible s.
Proof.
  intros HK1 HK2. induction s as [|c s IH]; intros pw; [reflexivity|].
  rewrite upcase_pair_step.
  match goal with |- visible (if ?b then _ else _) = _ => destruct b eqn:E end.
  - apply andb_true_iff in E as [E _]. apply andb_true_iff in E as [E E4].
    apply andb_true_iff in E as [E _]. apply andb_true_iff in E as [_ E2].
    change (K1 ++ " " ++ K2 ++ ?x) with (K1 ++ " "%char :: K2 ++ x).
    rewrite visible_app, (visible_space " "%char) by reflexivity.
    rewrite (visible_match K2 _ HK2 E4), visible_trimStart.
    rewrite <- visible_app. apply visible_match; assumption.
  - unfold visible in *. cbn [filter].
    destruct (negb (isSpace c)); unfold toUpperCase in *; cbn [map];
      rewrite IH; reflexivity.
Qed.

Lemma upcase_keyword_visible keyword s :
  keyword_ok keyword = true -> visible (upcase_keyword keyword s) = visible s.
Proof.
  unfold keyword_ok, upcase_keyword. intros H.
  destruct (split_space [] keyword) as [| K1 [| K2 l]].
  - unfold keyword_word in H. apply andb_true_iff in H as [_ H].
    apply upcase_word_visible, H.
  - unfold keyword_word in H. apply andb_true_iff in H as [_ H].
    apply upcase_word_visible, H.
  - apply andb_true_iff in H as [H _]. apply andb_true_iff in H as [H1 H2].
    unfold keyword_word in H1, H2.
    apply andb_true_iff in H1 as [_ H1]. apply andb_true_iff in H2 as [_ H2].
    apply upcase_pair_visible; assumption.
Qed.

Lemma space_after_visible n : forall s,
  length s <= n -> visible (space_after s) = visible s.
Proof.
  induction n as [|n IH]; intros s Hl.
  - destruct s; [reflexivity | simpl in Hl; lia].
  - destruct s as [|c s]; [reflexivity|].
    destruct s as [|d rest]; [reflexivity|].
    rewrite space_after_step.
    assert (Hr : visible (space_after rest) = visible rest)
      by (apply IH; cbn [length] in *; lia).
    assert (Hd : visible (space_after (d :: rest)) = visible (d :: rest))
      by (apply IH; cbn [length] in *; lia).
    destruct (isOp c && negb (isCmp d || isSpace d)).
    + unfold visible in *. cbn [filter].
      replace (isSpace " "%char) with true by reflexivity. cbn [negb].
      destruct (negb (isSpace c)), (negb (isSpace d));
        unfold toUpperCase in *; cbn [map]; rewrite Hr; reflexivity.
    + unfold visible in *. cbn [filter] in *.
      destruct (negb (isSpace c)); unfold toUpperCase in *; cbn [map];
        rewrite Hd; reflexivity.
Qed.

Lemma space_before_visible n : forall s,
  length s <= n -> visible (space_before s) = visible s.
Proof.
  induction n as [|n IH]; intros s Hl.
  - destruct s; [reflexivity | simpl in Hl; lia].
  - destruct s as [|c s]; [reflexivity|].
    destruct s as [|d rest]; [reflexivity|].
    rewrite space_before_step.
    assert (Hr : visible (space_before rest) = visible rest)
      by (apply IH; cbn [length] in *; lia).
    assert (Hd : visible (space_before (d :: rest)) = visible (d :: rest))
      by (apply IH; cbn [length] in *; lia).
    destruct (negb (isSpace c || isOp c) && isOp d).
    + unfold visible in *. cbn [filter].
      replace (isSpace " "%char) with true by reflexivity. cbn [negb].
      destruct (negb (isSpace c)), (negb (isSpace d));
        unfold toUpperCase in *; cbn [map]; rewrite Hr; reflexivity.
    + unfold visible in *. cbn [filter] in *.
      destruct (negb (isSpace c)); unfold toUpperCase in *; cbn [map];
        rewrite Hd; reflexivity.
Qed.

Lemma collapse_visible s : forall inRun, visible (collapse inRun s) = visible s.
Proof.
  induction s as [|c s IH]; intros inRun; [destruct inRun; reflexivity|].
  cbn [collapse]. destruct inRun.
  - destruct (isSpace c) eqn:E.
    + rewrite (visible_space c s E). apply IH.
    + rewrite !(visible_keep c _ E), IH. reflexivity.
  - destruct (isSpace c && is_space_at s) eqn:E.
    + apply andb_true_iff in E as [E _].
      rewrite (visible_space c s E), (visible_space " "%char) by reflexivity.
      apply IH.
    + destruct (isSpace c) eqn:Ec.
      * rewrite !(visible_space c _ Ec). apply IH.
      * rewrite !(visible_keep c _ Ec), IH. reflexivity.
Qed.

Lemma keywords_pass_visible (l : list str) : forall s,
  forallb keyword_ok l = true ->
  visible (fold_left (fun s keyword => upcase_keyword keyword s) l s) = visible s.
Proof.
  induction l as [|k l IH]; intros s H; [reflexivity|].
  cbn [forallb] in H. apply andb_true_iff in H as [Hk H].
  cbn [fold_left]. rewrite (IH _ H). apply upcase_keyword_visible, Hk.
Qed.

Lemma keywords_pass_words (l : list str) : forall s,
  forallb keyword_ok l = true ->
  same_words s (fold_left (fun s keyword => upcase_keyword keyword s) l s).
Proof.
  induction l as [|k l IH]; intros s H; [apply same_words_refl|].
  cbn [forallb] in H. apply andb_true_iff in H as [Hk H].
  cbn [fold_left]. eapply same_words_trans; [|apply (IH _ H)].
  apply upcase_keyword_words, Hk.
Qed.

Lemma sqlKeywords_all_ok : forallb keyword_ok (strs sqlKeywords) = true.
Proof. vm_compute. reflexivity. Qed.

Lemma normalize_sql_visible line : visible (normalize_sql line) = visible line.
Proof.
  unfold normalize_sql.
  rewrite (fold_left_strs (fun s keyword => upcase_keyword keyword s)).
  rewrite collapse_visible, (space_before_visible _ _ (le_n _)),
    (space_after_visible _ _ (le_n _)).
  apply keywords_pass_visible, sqlKeywords_all_ok.
Qed.

Lemma normalize_sql_words line : same_words line (normalize_sql line).
Proof.
  unfold normalize_sql.
  rewrite (fold_left_strs (fun s keyword => upcase_keyword keyword s)).
  eapply same_words_trans; [apply keywords_pass_words, sqlKeywords_all_ok|].
  eapply same_words_trans;
    [apply (same_fields_words true), (space_after_fields _ _ (le_n _))|].
  eapply same_words_trans;
    [apply (same_fields_words true), (space_before_fields _ _ (le_n _))|].
  apply (same_fields_words true), collapse_fields.
Qed.


(** *** Patterns with the flag i *)

Lemma rep_loop_congr body body' greedy :
  (forall k k' s, (forall t, k t = k' t) -> body k s = body' k' s) ->
  forall n need k k' s, (forall t, k t = k' t) ->
    rep_loop body greedy k n need s = rep_loop body' greedy k' n need s.
Proof.
  intros Hb. induction n as [|n IH]; intros need k k' s Hk; [reflexivity|].
  cbn [rep_loop]. destruct need as [|need].
  - rewrite (Hk s).
    rewrite (Hb (fun s1 => if m_pos s1 =? m_pos s then None
                           else rep_loop body greedy k n 0 s1)
                (fun s1 => if m_pos s1 =? m_pos s then None
                           else rep_loop body' greedy k' n 0 s1) s).
    + reflexivity.
    + intros t. destruct (m_pos t =? m_pos s); [reflexivity|]. apply IH, Hk.
  - apply Hb. intros t. apply IH, Hk.
Qed.

Lemma rmatch_upper_regex r : forall k k' s,
  (forall t, k t = k' t) ->
  rmatch true r k s = rmatch true (upper_regex r) k' s.
Proof.
  induction r as [| c | p | r1 IH1 r2 IH2 | r1 IH1 r2 IH2 | g min r1 IH1
                  | i r1 IH1 | r1 IH1 | | |];
    intros k k' s Hk; cbn [upper_regex rmatch].
  - apply Hk.
  - destruct (m_rest s) as [|x rest]; [reflexivity|].
    unfold char_eq. rewrite upper_upper.
    destruct (ceq (upper c) (upper x)); [apply Hk | reflexivity].
  - destruct (m_rest s) as [|x rest]; [reflexivity|].
    destruct (p x); [apply Hk | reflexivity].
  - apply IH1. intros t. apply IH2, Hk.
  - rewrite (IH1 k k' s Hk), (IH2 k k' s Hk). reflexivity.
  - apply rep_loop_congr; [|exact Hk]. intros; apply IH1; assumption.
  - apply IH1. intros t. apply Hk.
  - rewrite (IH1 Some Some s (fun t => eq_refl)).
    destruct (rmatch true (upper_regex r1) Some s); [apply Hk | reflexivity].
  - destruct (m_prev s); [apply Hk | reflexivity].
  - destruct (m_rest s); [apply Hk | reflexivity].
  - destruct (xorb _ _); [apply Hk | reflexivity].
Qed.

Lemma match_here_upper_regex r prev rest pos :
  match_here true r prev rest pos = match_here true (upper_regex r) prev rest pos.
Proof.
  unfold match_here.
  rewrite (rmatch_upper_regex r Some Some _ (fun t => eq_refl)). reflexivity.
Qed.

Lemma search_from_upper_regex r rest : forall prev pos,
  search_from true r prev rest pos = search_from true (upper_regex r) prev rest pos.
Proof.
  induction rest as [|x rest IH]; intros prev pos; cbn [search_from];
    rewrite match_here_upper_regex; [reflexivity|].
  destruct (match_here true (upper_regex r) prev (x :: rest) pos);
    [reflexivity | apply IH].
Qed.

Lemma replace_keyword_upper_regex r repl s :
  replace_keyword r repl s = replace_keyword (upper_regex r) repl s.
Proof.
  unfold replace_keyword, test, replace_first, search.
  rewrite search_from_upper_regex. reflexivity.
Qed.

Lemma lookmlVarKeywords_regex :
  forall keyword : string, In keyword lookmlVarKeywords ->
    upper_regex (keyword_regex keyword) = keyword_regex (toUpperCase keyword) /\
    keyword_ok (toUpperCase keyword) = true.
Proof.
  intros keyword H. cbn [lookmlVarKeywords In] in H.
  repeat (destruct H as [<- | H]; [split; reflexivity|]).
  contradiction H.
Qed.

(** [formatSqlWithLookMLVars], step by step. *)
Lemma formatSqlWithLookMLVars_spec line :
  formatSqlWithLookMLVars line =
  fold_left (fun s keyword => upcase_keyword keyword s)
            (map toUpperCase (strs lookmlVarKeywords)) line.
Proof.
  unfold formatSqlWithLookMLVars.
  assert (H := lookmlVarKeywords_regex). revert line H.
  generalize lookmlVarKeywords. intros l.
  induction l as [|k l IH]; intros line H; [reflexivity|].
  cbn [fold_left strs map].
  destruct (H k (or_introl eq_refl)) as [Hr Hok].
  rewrite replace_keyword_upper_regex, Hr, (replace_keyword_spec _ _ Hok).
  apply IH. intros k' Hk'. apply H. right. exact Hk'.
Qed.

Lemma lookmlVarKeywords_all_ok :
  forallb keyword_ok (map toUpperCase (strs lookmlVarKeywords)) = true.
Proof. vm_compute. reflexivity. Qed.


(** *** Blank lines *)

Lemma blank_visible s : blank s = true <-> visible s = [].
Proof.
  induction s as [|c s IH]; [split; reflexivity|].
  unfold blank in *. cbn [forallb]. destruct (isSpace c) eqn:E.
  - rewrite (visible_space c s E). exact IH.
  - rewrite (visible_keep c s E). split; discriminate.
Qed.

Lemma not_blank_visible s : blank s = false <-> visible s <> [].
Proof.
  split.
  - intros H Hv. apply blank_visible in Hv. congruence.
  - intros H. destruct (blank s) eqn:E; [|reflexivity].
    apply blank_visible in E. contradiction.
Qed.

Lemma visible_rev s : visible (rev s) = rev (visible s).
Proof.
  induction s as [|c s IH]; [reflexivity|]. cbn [rev].
  rewrite visible_app, IH. destruct (isSpace c) eqn:E.
  - rewrite !(visible_space c _ E). apply app_nil_r.
  - rewrite !(visible_keep c _ E). reflexivity.
Qed.

Lemma visible_trimEnd s : visible (trimEnd s) = visible s.
Proof.
  unfold trimEnd. rewrite visible_rev, visible_trimStart, visible_rev.
  apply rev_involutive.
Qed.

Lemma visible_trim s : visible (trim s) = visible s.
Proof. unfold trim. rewrite visible_trimEnd. apply visible_trimStart. Qed.

Lemma trimStart_blank s : blank s = true -> trimStart s = [].
Proof.
  induction s as [|c s IH]; [reflexivity|]. unfold blank in *. cbn [forallb].
  intros H. apply andb_true_iff in H as [Hc H]. cbn [trimStart].
  rewrite Hc. apply IH, H.
Qed.

Lemma trim_empty s : (length (trim s) =? 0) = blank s.
Proof.
  destruct (blank s) eqn:E.
  - unfold trim. rewrite (trimStart_blank s E). reflexivity.
  - apply not_blank_visible in E. rewrite <- visible_trim in E.
    destruct (trim s); [contradiction E; reflexivity | reflexivity].
Qed.

Lemma repeat_blank unit n : blank unit = true -> blank (Js.repeat unit n) = true.
Proof.
  intros H. induction n as [|n IH]; [reflexivity|]. cbn [Js.repeat].
  unfold blank in *. rewrite forallb_app, H, IH. reflexivity.
Qed.

Lemma ind_blank cfg n : blank (ind cfg n) = true.
Proof.
  apply repeat_blank. unfold indentString.
  destruct (useSpaces cfg); [|reflexivity].
  apply repeat_blank. reflexivity.
Qed.

Lemma visible_ind cfg n x : visible (ind cfg n ++ x) = visible x.
Proof.
  rewrite visible_app. destruct (blank_visible (ind cfg n)) as [H _].
  rewrite (H (ind_blank cfg n)). reflexivity.
Qed.

Lemma indented_not_blank cfg n x : visible x <> [] -> blank (ind cfg n ++ x) = false.
Proof. intros H. apply not_blank_visible. rewrite visible_ind. exact H. Qed.

Lemma visible_mark a (c : ascii) b : isSpace c = false -> visible (a ++ c :: b) <> [].
Proof.
  intros H. rewrite visible_app, (visible_keep c b H).
  destruct (visible a); discriminate.
Qed.

Lemma formatLookMLProperty_visible line :
  visible line <> [] -> visible (formatLookMLProperty line) <> [].
Proof.
  intros H. unfold formatLookMLProperty.
  destruct (indexOf line ":"); [|exact H].
  apply (visible_mark _ ":"%char). reflexivity.
Qed.

Lemma formatSqlKeywords_visible line :
  visible (formatSqlKeywords line) = visible line.
Proof. rewrite formatSqlKeywords_spec. apply normalize_sql_visible. Qed.

Lemma formatSqlWithLookMLVars_visible line :
  visible (formatSqlWithLookMLVars line) = visible line.
Proof.
  rewrite formatSqlWithLookMLVars_spec.
  apply keywords_pass_visible, lookmlVarKeywords_all_ok.
Qed.

Section SimpleFormatter.

Variable cfg : Config.

Lemma format_line_emits line st :
  exists out,
    l_formattedLines (format_line cfg line st) = l_formattedLines st ++ [out] /\
    line_kept line out.
Proof.
  unfold format_line, line_kept. rewrite trim_empty.
  destruct (blank line) eqn:Hb.
  { eexists. split; reflexivity. }
  assert (Hv : visible (trim line) <> [])
    by (rewrite visible_trim; apply not_blank_visible, Hb).
  set (t := trim line) in *.
  destruct (is_block_start t).
  { eexists. split; [reflexivity|]. apply indented_not_blank.
    destruct (indexOf t ":"); [|exact Hv].
    apply (visible_mark _ ":"%char). reflexivity. }
  destruct (is_block_end t).
  { eexists. split; [reflexivity|]. apply indented_not_blank, Hv. }
  destruct (opens_sql (l_inSqlBlock st) t).
  { eexists. split; [reflexivity|].
    apply indented_not_blank, formatLookMLProperty_visible, Hv. }
  destruct (l_inSqlBlock st && (seq_eqb t ";;" || endsWith t ";;")).
  { eexists. split; [reflexivity|].
    destruct (seq_eqb t ";;" || seq_eqb t "; ;").
    - apply indented_not_blank. discriminate.
    - apply indented_not_blank.
      replace (formatSqlKeywords (trim (hd [] (split2 ";" [] t))) ++ " ;;")
        with ((formatSqlKeywords (trim (hd [] (split2 ";" [] t))) ++ " ") ++
              ";"%char :: ";") by (rewrite <- app_assoc; reflexivity).
      apply (visible_mark _ ";"%char). reflexivity. }
  destruct (l_inSqlBlock st).
  { eexists. split; [reflexivity|]. apply indented_not_blank.
    rewrite visible_trimStart.
    destruct (negb (includes t "{%") && negb (includes t "{{") &&
              negb (includes t "${")).
    - rewrite formatSqlKeywords_visible. exact Hv.
    - destruct (includes t "${"); [|exact Hv].
      rewrite formatSqlWithLookMLVars_visible. exact Hv. }
  destruct (includes t ":" && negb (endsWith t "{")).
  { match goal with
    | |- context [l_emit (ind cfg ?n ++ ?x) ?s] =>
        exists (ind cfg n ++ x); split;
          [destruct (test false (re_sql_open_eol false) _); reflexivity|]
    end.
    apply indented_not_blank.
    destruct (endsWith (formatLookMLProperty t) ";;" &&
              negb (endsWith (formatLookMLProperty t) " ;;")).
    - replace (trim (hd [] (split2 ";" [] (formatLookMLProperty t))) ++ " ;;")
        with ((trim (hd [] (split2 ";" [] (formatLookMLProperty t))) ++ " ") ++
              ";"%char :: ";") by (rewrite <- app_assoc; reflexivity).
      apply (visible_mark _ ";"%char). reflexivity.
    - apply formatLookMLProperty_visible, Hv. }
  eexists. split; [reflexivity|]. apply indented_not_blank, Hv.
Qed.

Lemma format_lines_emit lines : forall st,
  exists outs,
    l_formattedLines (fold_left (fun st line => format_line cfg line st) lines st)
    = l_formattedLines st ++ outs /\
    Forall2 line_kept lines outs.
Proof.
  induction lines as [|line lines IH]; intros st.
  - exists []. split; [symmetry; apply app_nil_r | constructor].
  - cbn [fold_left].
    destruct (format_line_emits line st) as (out & Ho & Hk).
    destruct (IH (format_line cfg line st)) as (outs & Hos & Hks).
    exists (out :: outs). split; [|constructor; assumption].
    rewrite Hos, Ho, <- app_assoc. reflexivity.
Qed.

Lemma formatLines_line_by_line lines :
  Forall2 line_kept lines (formatLines cfg lines).
Proof.
  unfold formatLines.
  destruct (format_lines_emit lines
              {| l_formattedLines := []; l_indentLevel := 0;
                 l_inSqlBlock := false; l_sqlBlockIndent := 0;
                 l_blockStack := [] |}) as (outs & Ho & Hk).
  rewrite Ho. exact Hk.
Qed.

End SimpleFormatter.


(** *** [trim], [indexOf] and [endsWith] *)

Lemma trimStart_idem s : trimStart (trimStart s) = trimStart s.
Proof.
  induction s as [|c s IH]; [reflexivity|]. cbn [trimStart].
  destruct (isSpace c) eqn:E; [exact IH|]. cbn [trimStart]. rewrite E. reflexivity.
Qed.

Lemma trimStart_app u v :
  trimStart (u ++ v) = if blank u then trimStart v else trimStart u ++ v.
Proof.
  induction u as [|c u IH]; [reflexivity|]. unfold blank in *.
  cbn [app trimStart forallb]. destruct (isSpace c); [exact IH | reflexivity].
Qed.

Lemma blank_rev s : blank (rev s) = blank s.
Proof.
  unfold blank. induction s as [|c s IH]; [reflexivity|].
  cbn [rev forallb]. rewrite forallb_app, IH. cbn [forallb].
  rewrite andb_true_r. apply andb_comm.
Qed.

Lemma trimEnd_cons c t :
  trimEnd (c :: t) =
  if blank t then (if isSpace c then [] else [c]) else c :: trimEnd t.
Proof.
  unfold trimEnd. cbn [rev]. rewrite trimStart_app, blank_rev.
  destruct (blank t).
  - cbn [trimStart]. destruct (isSpace c); reflexivity.
  - rewrite rev_app_distr. reflexivity.
Qed.

Lemma trimStart_fixed s :
  trimStart s = s <-> match s with c :: _ => isSpace c = false | [] => True end.
Proof.
  destruct s as [|c s]; [split; reflexivity|]. cbn [trimStart].
  destruct (isSpace c) eqn:E; split; try reflexivity; try discriminate.
  intros H. exfalso.
  assert (Hl : forall u, length (trimStart u) <= length u).
  { induction u as [|x u IH]; [reflexivity|]. cbn [trimStart].
    destruct (isSpace x); cbn [length]; lia. }
  specialize (Hl s). rewrite H in Hl. cbn [length] in Hl. lia.
Qed.

Lemma trimStart_trimEnd t : trimStart t = t -> trimStart (trimEnd t) = trimEnd t.
Proof.
  intros H. apply trimStart_fixed. apply trimStart_fixed in H.
  destruct t as [|c t]; [exact I|]. rewrite trimEnd_cons.
  destruct (blank t); [rewrite H|]; exact H.
Qed.

Lemma trimEnd_idem s : trimEnd (trimEnd s) = trimEnd s.
Proof. unfold trimEnd. rewrite rev_involutive, trimStart_idem. reflexivity. Qed.

Lemma trim_idem s : trim (trim s) = trim s.
Proof.
  unfold trim. rewrite (trimStart_trimEnd _ (trimStart_idem s)).
  apply trimEnd_idem.
Qed.

Lemma trim_space (c : ascii) s : isSpace c = true -> trim (c :: s) = trim s.
Proof. intros H. unfold trim. cbn [trimStart]. rewrite H. reflexivity. Qed.

Lemma trimStart_free c s :
  existsb (ceq c) s = false -> existsb (ceq c) (trimStart s) = false.
Proof.
  induction s as [|x s IH]; [reflexivity|]. cbn [existsb trimStart].
  intros H. apply orb_false_iff in H as [Hx H].
  destruct (isSpace x); [apply IH, H|]. cbn [existsb]. rewrite Hx, H. reflexivity.
Qed.

Lemma existsb_rev {A : Type} (f : A -> bool) l : existsb f (rev l) = existsb f l.
Proof.
  induction l as [|x l IH]; [reflexivity|]. cbn [rev existsb].
  rewrite existsb_app, IH. cbn [existsb]. rewrite orb_false_r. apply orb_comm.
Qed.

Lemma trim_free c s : existsb (ceq c) s = false -> existsb (ceq c) (trim s) = false.
Proof.
  intros H. unfold trim, trimEnd. rewrite existsb_rev.
  apply trimStart_free. rewrite existsb_rev. apply trimStart_free, H.
Qed.

Lemma startsWith_char s c :
  startsWith s [c] = match s with y :: _ => ceq c y | [] => false end.
Proof.
  destruct s as [|y s]; [reflexivity|]. cbn [startsWith].
  destruct s; apply andb_true_r.
Qed.

Lemma indexOf_found s (c : ascii) : forall i,
  indexOf s [c] = Some i ->
  s = firstn i s ++ c :: skipn (S i) s /\
  existsb (ceq c) (firstn i s) = false /\ length (firstn i s) = i.
Proof.
  induction s as [|y s IH]; intros i H.
  - discriminate H.
  - cbn [indexOf] in H. rewrite startsWith_char in H.
    destruct (ceq c y) eqn:E.
    + injection H as <-. apply Ascii.eqb_eq in E. subst y. repeat split.
    + destruct (indexOf s [c]) as [j|] eqn:Ej; [|discriminate H].
      injection H as <-. destruct (IH j eq_refl) as (H1 & H2 & H3).
      cbn [firstn skipn app existsb length]. rewrite E, H2, H3.
      repeat split. f_equal. exact H1.
Qed.

Lemma indexOf_first pre (c : ascii) post :
  existsb (ceq c) pre = false -> indexOf (pre ++ c :: post) [c] = Some (length pre).
Proof.
  induction pre as [|y pre IH]; intros H.
  - cbn [app indexOf]. rewrite startsWith_char. unfold ceq.
    rewrite Ascii.eqb_refl. reflexivity.
  - cbn [existsb] in H. apply orb_false_iff in H as [Hy H].
    cbn [app indexOf]. rewrite startsWith_char, Hy, (IH H). reflexivity.
Qed.

Lemma substring_prefix (a b : str) : substring 0 (length a) (a ++ b) = a.
Proof.
  unfold substring. cbn [skipn]. rewrite Nat.sub_0_r, firstn_app, Nat.sub_diag.
  cbn [firstn]. rewrite app_nil_r. apply firstn_all.
Qed.

Lemma substringFrom_suffix (a : str) c (b : str) :
  substringFrom (length a + 1) (a ++ c :: b) = b.
Proof.
  unfold substringFrom. rewrite Nat.add_1_r.
  replace (a ++ c :: b) with ((a ++ [c]) ++ b) by (rewrite <- app_assoc; reflexivity).
  replace (S (length a)) with (length (a ++ [c]))
    by (rewrite length_app; cbn [length]; lia).
  rewrite skipn_app, skipn_all, Nat.sub_diag. reflexivity.
Qed.

Lemma startsWith_app (a b : str) : startsWith (a ++ b) a = true.
Proof.
  induction a as [|x a IH]; [destruct b; reflexivity|].
  cbn [app startsWith]. unfold ceq. rewrite Ascii.eqb_refl. exact IH.
Qed.

Lemma endsWith_app (a b : str) : endsWith (a ++ b) b = true.
Proof. unfold endsWith. rewrite rev_app_distr. apply startsWith_app. Qed.

(** *** Formatting a line twice *)

Lemma formatBlockOpener_shape line i :
  indexOf line ":" = Some i ->
  forall value,
    indexOf (trim (substring 0 i line) ++ ": " ++ value) ":" =
      Some (length (trim (substring 0 i line))) /\
    trim (substring 0 (length (trim (substring 0 i line)))
            (trim (substring 0 i line) ++ ": " ++ value)) =
      trim (substring 0 i line) /\
    trim (substringFrom (length (trim (substring 0 i line)) + 1)
            (trim (substring 0 i line) ++ ": " ++ value)) = trim value.
Proof.
  intros H value. apply (indexOf_found line ":"%char) in H.
  destruct H as (_ & Hfree & _).
  assert (Hn : existsb (ceq ":"%char) (trim (substring 0 i line)) = false).
  { apply trim_free. unfold substring. cbn [skipn]. rewrite Nat.sub_0_r.
    exact Hfree. }
  set (n := trim (substring 0 i line)) in *.
  change (n ++ ": " ++ value) with (n ++ ":"%char :: " "%char :: value).
  repeat split.
  - apply (indexOf_first n ":"%char), Hn.
  - rewrite substring_prefix. apply trim_idem.
  - rewrite substringFrom_suffix. apply trim_space. reflexivity.
Qed.


Lemma trim_with_terminator t :
  t <> [] -> trim t = t -> trim (t ++ " ;;") = t ++ " ;;".
Proof.
  intros Hne Ht.
  assert (Hs : trimStart t = t).
  { rewrite <- Ht. unfold trim. apply trimStart_trimEnd, trimStart_idem. }
  unfold trim. rewrite trimStart_app.
  destruct (blank t) eqn:Hb.
  { rewrite (trimStart_blank t Hb) in Hs. congruence. }
  rewrite Hs. unfold trimEnd. rewrite rev_app_distr.
  change (rev (list_ascii_of_string " ;;"))
    with (";"%char :: ";"%char :: " "%char :: []).
  cbn [app trimStart]. change (isSpace ";") with false. cbv iota.
  cbn [rev]. rewrite rev_involutive, <- !app_assoc. reflexivity.
Qed.

Lemma spaced_terminator_twice v :
  trim v = v -> spaced_terminator (trim (spaced_terminator v)) = spaced_terminator v.
Proof.
  intros Hv. unfold spaced_terminator at 2 3.
  destruct (endsWith v ";;") eqn:E1.
  - destruct (endsWith v " ;;") eqn:E2; cbn [negb].
    + rewrite Hv. unfold spaced_terminator. rewrite E1, E2. reflexivity.
    + destruct (trim (dropEnd 2 v)) as [|c t] eqn:Et; [reflexivity|].
      rewrite <- Et.
      rewrite trim_with_terminator;
        [| rewrite Et; discriminate | apply trim_idem].
      unfold spaced_terminator.
      replace (trim (dropEnd 2 v) ++ " ;;")
        with ((trim (dropEnd 2 v) ++ " ") ++ ";;") at 1
        by (rewrite <- app_assoc; reflexivity).
      rewrite endsWith_app, endsWith_app. reflexivity.
  - rewrite Hv. unfold spaced_terminator. rewrite E1. reflexivity.
Qed.

Lemma formatLookMLProperty_spaced line :
  formatLookMLProperty line =
  match indexOf line ":" with
  | Some i => trim (substring 0 i line) ++ ": " ++
              spaced_terminator (trim (substringFrom (i + 1) line))
  | None => line
  end.
Proof. reflexivity. Qed.



(** *** The views of a document *)

Ltac state_fields :=
  cbn [set_currentView set_views set_blockStack set_indentLevel
       set_currentField set_fields set_pendingComments set_sql
       set_hasEncounteredFieldInView field_push
       p_views p_currentView p_blockStack p_indentLevel p_currentField
       p_fields p_pendingComments p_inSqlBlock p_sqlBlockIndent
       p_hasEncounteredFieldInView] in *.

Section ViewsOfDocument.

Variable cfg : Config.

Lemma headline_push_nonField x st : headline (push_nonField x st) = headline st.
Proof.
  unfold push_nonField, headline.
  destruct (p_currentView st) eqn:E; cbn; rewrite ?E; reflexivity.
Qed.


Lemma headline_parse_view_content line t st :
  headline (parse_view_content cfg line t st) = headline st.
Proof.
  unfold parse_view_content.
  repeat match goal with
         | |- context [if ?b then _ else _] => destruct b
         end;
    cbn [headline set_sql p_views p_currentView];
    repeat rewrite headline_push_nonField;
    try reflexivity;
    try (apply headline_push_nonField);
    match goal with
    | |- (p_views (push_nonField ?x ?s),
          option_map _ (p_currentView (push_nonField ?x ?s))) = _ =>
        exact (headline_push_nonField x s)
    end.
Qed.

(** One line either leaves the views as they are, or opens a view, or
    closes the view the loop is in. *)
Lemma parse_line_headline i line st :
  headline (parse_line cfg i line st) = headline st \/
  (opens_view line = true /\ p_currentView st = None /\
   headline (parse_line cfg i line st) = (p_views st, Some (i, [line], []))) \/
  (exists v v',
     p_currentView st = Some v /\
     headline (parse_line cfg i line st) = (p_views st ++ [v'], None) /\
     v_startLine v' = v_startLine v /\ v_endLine v' = Some i /\
     v_header v' = v_header v /\ v_footer v' = v_footer v ++ [line]).
Proof.
  unfold parse_line, opens_view.
  destruct (length (trim line) =? 0) eqn:E0.
  { left. unfold parse_empty.
    destruct (_ && _); [apply headline_push_nonField | reflexivity]. }
  destruct (startsWith (trim line) "#") eqn:E1.
  { left. unfold parse_comment.
    destruct (p_currentField st); [reflexivity|].
    destruct (is_some (p_currentView st)); [|reflexivity].
    destruct (negb _); [apply headline_push_nonField | reflexivity]. }
  destruct (is_block_start (trim line)) eqn:E2.
  { unfold parse_block_start.
    destruct (block_type_and_name (trim line)) as [blockType blockName].
    cbn [fst negb andb]. state_fields.
    destruct (seq_eqb blockType "view") eqn:Ev.
    - destruct (p_currentView st) as [v|] eqn:Ec; cbn [is_some negb andb].
      + left. destruct (isFieldType blockType).
        * unfold headline, push_field. cbn. rewrite Ec. reflexivity.
        * destruct (p_currentField st); unfold headline, push_nonField; cbn;
            rewrite Ec; reflexivity.
      + right. left. repeat split.
    - left. cbn [andb]. destruct (p_currentView st) as [v|] eqn:Ec;
        cbn [is_some andb].
      + destruct (isFieldType blockType).
        * unfold headline, push_field. cbn. rewrite Ec. reflexivity.
        * destruct (p_currentField st); unfold headline, push_nonField; cbn;
            rewrite Ec; reflexivity.
      + unfold headline. cbn. rewrite Ec. reflexivity. }
  destruct (is_block_end (trim line)) eqn:E3.
  { unfold parse_block_end.
    state_fields.
    destruct (rev (p_blockStack st)) as [|lastBlock stack]; [left; reflexivity|].
    state_fields.
    destruct (p_currentField st) as [id|].
    - destruct (isFieldType (s_type lastBlock)); [left; reflexivity|].
      destruct (p_currentView st) as [v|] eqn:Ec; [|left; unfold headline; cbn; rewrite Ec; reflexivity].
      destruct (seq_eqb (s_type lastBlock) "view").
      + right. right. eexists v, _. repeat split.
      + left. unfold headline. cbn. rewrite Ec. reflexivity.
    - destruct (p_currentView st) as [v|] eqn:Ec; [|left; unfold headline; cbn; rewrite Ec; reflexivity].
      destruct (seq_eqb (s_type lastBlock) "view").
      + right. right. eexists v, _. repeat split.
      + left. unfold headline, push_nonField. cbn. rewrite Ec. reflexivity. }
  left. unfold parse_content.
  destruct (is_some (p_currentView st)); [|reflexivity].
  destruct (p_currentField st); [reflexivity|].
  apply headline_parse_view_content.
Qed.

Lemma view_ranges_weaken {F : Type} all (views : list (LookMLViewOf F)) :
  forall from bound bound',
    bound <= bound' -> view_ranges all from views bound ->
    view_ranges all from views bound'.
Proof.
  induction views as [|v views IH]; intros from bound bound' Hle H; cbn in *.
  - lia.
  - destruct H as (e & H1 & H2 & H3 & H4 & H5 & H6). exists e.
    repeat split; eauto.
Qed.

Lemma view_ranges_closed {F : Type} all (views : list (LookMLViewOf F)) :
  forall from bound (v : LookMLViewOf F) e,
    view_ranges all from views bound -> v_endLine v = Some e ->
    bound <= v_startLine v -> v_startLine v < e ->
    v_header v = [nth (v_startLine v) all []] -> v_footer v = [nth e all []] ->
    view_ranges all from (views ++ [v]) (S e).
Proof.
  induction views as [|w views IH]; intros from bound v e H He Hs Hlt Hh Hf;
    cbn in *.
  - exists e. repeat split; [exact He | lia | exact Hlt | exact Hh | exact Hf | lia].
  - destruct H as (e' & H1 & H2 & H3 & H4 & H5 & H6). exists e'.
    repeat split; eauto.
Qed.

(** After the lines before [i], the closed views lie before the start of
    the view the loop is in, which lies before [i]. *)
Lemma parse_lines_ranges all lines : forall pre st m,
  all = pre ++ lines ->
  view_ranges all 0 (p_views st) m ->
  match snd (headline st) with
  | Some (s, header, footer) =>
      m <= s /\ s < length pre /\ header = [nth s all []] /\ footer = []
  | None => m <= length pre
  end ->
  view_ranges all 0 (p_views (parse_lines cfg (length pre) lines st))
              (length all).
Proof.
  induction lines as [|line lines IH]; intros pre st m Hall Hv Hc.
  - cbn [parse_lines]. rewrite Hall, app_nil_r.
    apply (view_ranges_weaken _ _ _ m); [|rewrite <- (app_nil_r pre), <- Hall; exact Hv].
    destruct (snd (headline st)) as [[[s h] f]|]; lia.
  - cbn [parse_lines].
    assert (Hall' : all = (pre ++ [line]) ++ lines)
      by (rewrite <- app_assoc; exact Hall).
    assert (Hlen : length (pre ++ [line]) = S (length pre))
      by (rewrite length_app; cbn [length]; lia).
    assert (Hline : nth (length pre) all [] = line)
      by (rewrite Hall; apply nth_middle).
    rewrite <- Hlen.
    destruct (parse_line_headline (length pre) line st)
      as [H | [(_ & Hn & H) | (v & v' & Hn & H & Hs & He & Hh & Hf)]].
    + assert (Hviews : p_views (parse_line cfg (length pre) line st) = p_views st)
        by exact (f_equal fst H).
      apply (IH _ _ m Hall'); [rewrite Hviews; exact Hv|].
      rewrite Hlen, H.
      destruct (snd (headline st)) as [[[s h] f]|]; [|lia].
      destruct Hc as (? & ? & ? & ?). repeat split; auto; lia.
    + assert (Hviews : p_views (parse_line cfg (length pre) line st) = p_views st)
        by exact (f_equal fst H).
      apply (IH _ _ m Hall'); [rewrite Hviews; exact Hv|].
      rewrite Hlen, H. cbn [snd].
      unfold headline in Hc. rewrite Hn in Hc. cbn in Hc.
      rewrite Hline. repeat split; auto; lia.
    + assert (Hviews : p_views (parse_line cfg (length pre) line st) =
                       p_views st ++ [v'])
        by exact (f_equal fst H).
      unfold headline in Hc. rewrite Hn in Hc. cbn in Hc.
      destruct Hc as (Hm & Hlt & Hhd & Hft).
      apply (IH _ _ (S (length pre)) Hall');
        [rewrite Hviews | rewrite Hlen, H; cbn [snd]; lia].
      apply (view_ranges_closed _ _ _ m); [exact Hv | exact He | lia | lia | |].
      * rewrite Hh, Hs. exact Hhd.
      * rewrite Hf, Hft, Hline. reflexivity.
Qed.

Lemma view_ranges_resolve all fields (views : list (LookMLViewOf nat)) :
  forall from bound,
    view_ranges all from views bound ->
    view_ranges all from (map (resolve fields) views) bound.
Proof.
  induction views as [|v views IH]; intros from bound H; cbn in *; [exact H|].
  destruct H as (e & H1 & H2 & H3 & H4 & H5 & H6). exists e.
  repeat split; auto.
Qed.

Lemma parse_lines_no_view lines : forall i st,
  Forall (fun line => opens_view line = false) lines ->
  headline st = ([], None) ->
  p_views (parse_lines cfg i lines st) = [].
Proof.
  induction lines as [|line lines IH]; intros i st Hl Hst.
  - unfold headline in Hst. injection Hst as H _. exact H.
  - inversion Hl as [|? ? Hline Hrest]; subst. cbn [parse_lines].
    apply IH; [exact Hrest|].
    destruct (parse_line_headline i line st)
      as [H | [(Ho & _) | (v & v' & Hn & _)]].
    + rewrite H. exact Hst.
    + congruence.
    + unfold headline in Hst. injection Hst as _ Hc. rewrite Hn in Hc.
      discriminate Hc.
Qed.

Lemma parseViews_no_view lines :
  Forall (fun line => opens_view line = false) lines -> parseViews cfg lines = [].
Proof.
  intros H. unfold parseViews.
  rewrite (parse_lines_no_view lines 0 p_init H eq_refl). reflexivity.
Qed.

End ViewsOfDocument.


(** *** The fields of a view *)

Section FieldsOfView.

Variable cfg : Config.
Variable all : list str.

Lemma update_nth_Forall {A : Type} (Q : A -> Prop) f (l : list A) : forall n,
  (forall x, Q x -> Q (f x)) -> Forall Q l -> Forall Q (update_nth n f l).
Proof.
  induction l as [|x l IH]; intros n Hf H; [destruct n; constructor|].
  inversion H; subst. destruct n; cbn [update_nth]; constructor; auto.
Qed.

Ltac extend_field H :=
  state_fields; apply update_nth_Forall; [|exact H];
  let b := fresh "b" in
  let H1 := fresh "H" in let line := fresh "line" in
  let rest := fresh "rest" in let restRaw := fresh "restRaw" in
  let Hin := fresh "H" in let Hs := fresh "H" in let Ht := fresh "H" in
  let Hr := fresh "H" in let Hc := fresh "H" in
  intros b (H1 & line & rest & restRaw & Hin & Hs & Ht & Hr & Hc);
  unfold proper_field; cbn [b_type b_content b_rawContent b_indent];
  split; [exact H1|];
  exists line; eexists; eexists;
  rewrite Hr, Hc; cbn [app];
  repeat split; [exact Hin | exact Hs | exact Ht].

Lemma field_push_proper id comment content raw endLine st :
  Forall (proper_field cfg all) (p_fields st) ->
  Forall (proper_field cfg all) (p_fields (field_push id comment content raw endLine st)).
Proof.
  intros H. unfold field_push. extend_field H.
Qed.

Lemma push_nonField_fields x st : p_fields (push_nonField x st) = p_fields st.
Proof. unfold push_nonField. destruct (p_currentView st); reflexivity. Qed.

Lemma push_field_fields id st : p_fields (push_field id st) = p_fields st.
Proof. unfold push_field. destruct (p_currentView st); reflexivity. Qed.

Lemma parse_view_content_fields line t st :
  p_fields (parse_view_content cfg line t st) = p_fields st.
Proof.
  unfold parse_view_content.
  repeat match goal with
         | |- context [if ?b then _ else _] => destruct b
         end;
    state_fields; apply push_nonField_fields.
Qed.

Lemma parse_line_proper i line st :
  In line all ->
  Forall (proper_field cfg all) (p_fields st) ->
  Forall (proper_field cfg all) (p_fields (parse_line cfg i line st)).
Proof.
  intros Hline H. unfold parse_line.
  destruct (length (trim line) =? 0).
  { unfold parse_empty. destruct (_ && _);
      [rewrite push_nonField_fields|]; exact H. }
  destruct (startsWith (trim line) "#").
  { unfold parse_comment. destruct (p_currentField st);
      [apply field_push_proper, H|].
    destruct (is_some (p_currentView st)); [|exact H].
    destruct (negb _); [rewrite push_nonField_fields|]; exact H. }
  destruct (is_block_start (trim line)) eqn:Estart.
  { unfold parse_block_start.
    destruct (block_type_and_name (trim line)) as [blockType blockName] eqn:Eb.
    state_fields.
    destruct (seq_eqb blockType "view" && negb (is_some (p_currentView st)));
      [exact H|].
    destruct (is_some (p_currentView st) && isFieldType blockType) eqn:E.
    - state_fields. rewrite push_field_fields. state_fields.
      apply Forall_app. split; [exact H|]. constructor; [|constructor].
      apply andb_true_iff in E as [_ E]. unfold proper_field.
      cbn [b_type b_content b_rawContent b_indent]. split; [exact E|].
      exists line, [], []. rewrite Eb. repeat split; assumption.
    - destruct (is_some (p_currentView st)); [|exact H].
      destruct (p_currentField st); [apply field_push_proper, H|].
      state_fields. rewrite push_nonField_fields. exact H. }
  destruct (is_block_end (trim line)).
  { unfold parse_block_end. state_fields.
    destruct (rev (p_blockStack st)) as [|lastBlock stack]; [exact H|].
    state_fields.
    destruct (p_currentField st) as [id|].
    - destruct (isFieldType (s_type lastBlock)).
      + unfold field_push. extend_field H.
      + destruct (p_currentView st) as [v|]; [|exact H].
        destruct (seq_eqb (s_type lastBlock) "view"); [exact H|].
        unfold field_push. extend_field H.
    - destruct (p_currentView st) as [v|]; [|exact H].
      destruct (seq_eqb (s_type lastBlock) "view"); [exact H|].
      rewrite push_nonField_fields. exact H. }
  unfold parse_content.
  destruct (is_some (p_currentView st)); [|exact H].
  destruct (p_currentField st).
  - apply field_push_proper, H.
  - rewrite parse_view_content_fields. exact H.
Qed.

Lemma parse_lines_proper lines : forall i st,
  Forall (fun line => In line all) lines ->
  Forall (proper_field cfg all) (p_fields st) ->
  Forall (proper_field cfg all) (p_fields (parse_lines cfg i lines st)).
Proof.
  induction lines as [|line lines IH]; intros i st Hl H; [exact H|].
  inversion Hl; subst. cbn [parse_lines].
  apply IH; [assumption|]. apply parse_line_proper; assumption.
Qed.

End FieldsOfView.

Lemma parseViews_proper cfg lines view field :
  In view (parseViews cfg lines) -> In field (v_fields view) ->
  proper_field cfg lines field.
Proof.
  unfold parseViews. intros Hv Hf.
  apply in_map_iff in Hv as (v & <- & _).
  cbn [resolve v_fields] in Hf. apply in_flat_map in Hf as (id & _ & Hf).
  assert (Hall : Forall (fun line => In line lines) lines)
    by (apply Forall_forall; auto).
  pose proof (parse_lines_proper cfg lines lines 0 p_init Hall (Forall_nil _)) as H.
  rewrite Forall_forall in H.
  destruct (nth_error (p_fields (parse_lines cfg 0 lines p_init)) id) eqn:E;
    [|contradiction Hf].
  destruct Hf as [<- | []]. apply H. eapply nth_error_In, E.
Qed.


(** *** What [formatView] adds to the output *)

Section Emitting.

Variable cfg : Config.
Variable localeCompare : str -> str -> comparison.

Lemma emit_line_appends field line st :
  exists x, e_output (emit_line cfg field line st) = e_output st ++ [x].
Proof.
  unfold emit_line.
  repeat match goal with
         | |- context [if ?b then _ else _] => destruct b
         end; eexists; reflexivity.
Qed.

Lemma emit_lines_append field lines : forall st,
  exists xs,
    e_output (fold_left (fun st line => emit_line cfg field line st) lines st) =
    e_output st ++ xs.
Proof.
  induction lines as [|line lines IH]; intros st.
  - exists []. symmetry. apply app_nil_r.
  - cbn [fold_left]. destruct (IH (emit_line cfg field line st)) as (xs & H).
    destruct (emit_line_appends field line st) as (x & Hx).
    exists (x :: xs). rewrite H, Hx, <- app_assoc. reflexivity.
Qed.

Lemma addFormattedFieldContent_appends output field :
  exists xs,
    addFormattedFieldContent cfg output field =
    output ++ opening_line cfg field :: xs.
Proof.
  unfold addFormattedFieldContent.
  match goal with
  | |- context [fold_left ?f ?l ?s] =>
      destruct (emit_lines_append field l s) as (xs & H); rewrite H
  end.
  exists xs. cbn [e_output]. rewrite <- app_assoc. reflexivity.
Qed.

Lemma add_field_appends n output field :
  exists pre post,
    add_field cfg n output field = output ++ pre ++ opening_line cfg field :: post.
Proof.
  unfold add_field.
  match goal with
  | |- context [addFormattedFieldContent cfg ?o field] =>
      destruct (addFormattedFieldContent_appends o field) as (xs & H); rewrite H
  end.
  eexists ([] :: map _ (b_comments field)), xs.
  rewrite <- !app_assoc. reflexivity.
Qed.

Lemma add_fields_append n fields : forall output,
  exists added,
    fold_left (add_field cfg n) fields output = output ++ added /\
    forall f, In f fields -> In (opening_line cfg f) added.
Proof.
  induction fields as [|field fields IH]; intros output.
  - exists []. split; [symmetry; apply app_nil_r | intros f []].
  - cbn [fold_left].
    destruct (add_field_appends n output field) as (pre & post & H).
    destruct (IH (add_field cfg n output field)) as (added & Ha & Hin).
    exists ((pre ++ opening_line cfg field :: post) ++ added). split.
    + rewrite Ha, H, <- !app_assoc. reflexivity.
    + intros f [<- | Hf]; apply in_or_app.
      * left. apply in_or_app. right. left. reflexivity.
      * right. apply Hin, Hf.
Qed.

Lemma addFieldSection_appends output fields sectionName n :
  exists added,
    addFieldSection cfg output fields sectionName n = output ++ added /\
    forall f, In f fields -> In (opening_line cfg f) added.
Proof.
  unfold addFieldSection. destruct fields as [|f0 fields].
  { exists []. split; [symmetry; apply app_nil_r | intros f []]. }
  cbv zeta.
  match goal with
  | |- context [fold_left _ _ ?o] =>
      assert (Hh : exists h, o = output ++ h)
        by (destruct (_ && _); eexists;
            [reflexivity | symmetry; apply app_nil_r]);
      destruct Hh as (h & Eh); rewrite Eh
  end.
  destruct (add_fields_append n (f0 :: fields) (output ++ h)) as (added & Ha & Hin).
  rewrite Ha.
  match goal with
  | |- exists a, ?res = _ /\ _ =>
      assert (Hf : exists t, res = ((output ++ h) ++ added) ++ t)
        by (clear Eh Ha Hin;
            destruct (groupFieldsByType cfg); [destruct (negb _)|]; eexists;
            try reflexivity; symmetry; apply app_nil_r);
      destruct Hf as (t & Et); rewrite Et
  end.
  exists (h ++ added ++ t). split; [rewrite <- !app_assoc; reflexivity|].
  intros f Hf'. apply in_or_app. right. apply in_or_app. left. apply Hin, Hf'.
Qed.

Lemma add_section_appends fields sectionName n acc :
  exists added,
    fst (add_section cfg fields sectionName n acc) = fst acc ++ added /\
    forall f, In f fields -> In (opening_line cfg f) added.
Proof.
  unfold add_section. destruct acc as [output flag].
  destruct fields as [|f0 fields].
  { exists []. split; [symmetry; apply app_nil_r | intros f []]. }
  cbn [fst].
  destruct flag.
  - apply addFieldSection_appends.
  - destruct (addFieldSection_appends (output ++ [[]]) (f0 :: fields)
                sectionName n) as (added & Ha & Hin).
    exists ([[]] ++ added). split; [rewrite Ha, <- app_assoc; reflexivity|].
    intros f Hf. apply in_or_app. right. apply Hin, Hf.
Qed.

Lemma sort_insert_In x l f :
  In f (sort_insert localeCompare x l) <-> f = x \/ In f l.
Proof.
  induction l as [|y l IH]; cbn [sort_insert].
  - cbn. intuition.
  - destruct (localeCompare (b_name x) (b_name y)); cbn [In] in *;
      try rewrite IH; intuition.
Qed.

Lemma sort_by_name_In l f : In f (sort_by_name localeCompare l) <-> In f l.
Proof.
  induction l as [|x l IH]; [reflexivity|]. cbn [sort_by_name].
  rewrite sort_insert_In, IH. cbn. intuition.
Qed.

Lemma field_kind type :
  isFieldType type = false \/
  seq_eqb type "filter" = true \/ seq_eqb type "parameter" = true \/
  seq_eqb type "dimension" = true \/ seq_eqb type "dimension_group" = true \/
  seq_eqb type "measure" = true.
Proof.
  unfold isFieldType.
  destruct (seq_eqb type "dimension"); [auto 6|].
  destruct (seq_eqb type "dimension_group"); [auto 6|].
  destruct (seq_eqb type "measure"); [auto 6|].
  destruct (seq_eqb type "parameter"); [auto 6|].
  destruct (seq_eqb type "filter"); auto 6.
Qed.

Lemma sections_append l1 l2 l3 l4 others (n1 n2 n3 n4 : str) i output :
  exists added,
    fold_left (add_field cfg i) others
      (fst (add_section cfg l4 n4 i
              (add_section cfg l3 n3 i
                 (add_section cfg l2 n2 i
                    (add_section cfg l1 n1 i (output, false)))))) =
    output ++ added /\
    forall f, In f l1 \/ In f l2 \/ In f l3 \/ In f l4 \/ In f others ->
              In (opening_line cfg f) added.
Proof.
  destruct (add_section_appends l1 n1 i (output, false)) as (a1 & E1 & I1).
  set (acc1 := add_section cfg l1 n1 i (output, false)) in *.
  destruct (add_section_appends l2 n2 i acc1) as (a2 & E2 & I2).
  set (acc2 := add_section cfg l2 n2 i acc1) in *.
  destruct (add_section_appends l3 n3 i acc2) as (a3 & E3 & I3).
  set (acc3 := add_section cfg l3 n3 i acc2) in *.
  destruct (add_section_appends l4 n4 i acc3) as (a4 & E4 & I4).
  set (acc4 := add_section cfg l4 n4 i acc3) in *.
  destruct (add_fields_append i others (fst acc4)) as (a5 & E5 & I5).
  rewrite E5, E4, E3, E2, E1. cbn [fst].
  exists (a1 ++ a2 ++ a3 ++ a4 ++ a5). split; [rewrite <- !app_assoc; reflexivity|].
  intros f [H | [H | [H | [H | H]]]].
  - apply in_or_app; left. apply I1, H.
  - apply in_or_app; right. apply in_or_app; left. apply I2, H.
  - do 2 (apply in_or_app; right). apply in_or_app; left. apply I3, H.
  - do 3 (apply in_or_app; right). apply in_or_app; left. apply I4, H.
  - do 4 (apply in_or_app; right). apply I5, H.
Qed.

Lemma organizeViewFields_appends view output :
  exists added,
    organizeViewFields cfg localeCompare view output = output ++ added /\
    forall f, In f (v_fields view) -> In (opening_line cfg f) added.
Proof.
  set (sorted := fun l => if sortFields cfg then sort_by_name localeCompare l else l).
  assert (Hsorted : forall l f, In f (sorted l) <-> In f l).
  { intros l f. unfold sorted. destruct (sortFields cfg);
      [apply sort_by_name_In | reflexivity]. }
  destruct (sections_append
              (sorted (of_type "filter" (v_fields view)))
              (sorted (of_type "parameter" (v_fields view)))
              (sorted (of_type "dimension" (v_fields view)) ++
               sorted (of_type "dimension_group" (v_fields view)))
              (sorted (of_type "measure" (v_fields view)))
              (filter (fun f => negb (isFieldType (b_type f))) (v_fields view))
              "Filters" "Parameters" "Dimensions" "Measures"
              (match v_fields view with f :: _ => b_indent f | [] => 1 end)
              output) as (added & E & Hin).
  exists added. split; [exact E|].
  intros f Hf. apply Hin.
  assert (Hof : forall type, seq_eqb (b_type f) type = true ->
                             In f (sorted (of_type type (v_fields view)))).
  { intros type Ht. apply Hsorted. unfold of_type. apply filter_In. auto. }
  destruct (field_kind (b_type f)) as [H | [H | [H | [H | [H | H]]]]].
  - do 4 right. apply filter_In. rewrite H. auto.
  - left. apply Hof, H.
  - right. left. apply Hof, H.
  - do 2 right. left. apply in_or_app. left. apply Hof, H.
  - do 2 right. left. apply in_or_app. right. apply Hof, H.
  - do 3 right. left. apply Hof, H.
Qed.

Lemma plain_fields_append fields : forall output,
  exists added,
    fold_left (fun out field => out ++ b_content field ++ [[]]) fields output =
    output ++ added /\
    forall f : LookMLBlock, In f fields -> b_content f <> [] ->
                            In (hd [] (b_content f)) added.
Proof.
  induction fields as [|field fields IH]; intros output.
  - exists []. split; [symmetry; apply app_nil_r | intros f []].
  - cbn [fold_left].
    destruct (IH (output ++ b_content field ++ [[]])) as (added & Ha & Hin).
    exists ((b_content field ++ [[]]) ++ added). split.
    + rewrite Ha, <- !app_assoc. reflexivity.
    + intros f [<- | Hf] Hne; apply in_or_app.
      * left. apply in_or_app. left.
        destruct (b_content field); [contradiction Hne; reflexivity | left; reflexivity].
      * right. apply Hin; assumption.
Qed.

Lemma formatView_appends view output :
  exists mid,
    formatView cfg localeCompare view output =
    output ++ v_header view ++ mid ++ v_footer view /\
    forall f, In f (v_fields view) -> b_content f <> [] ->
              In (opening_line cfg f) mid.
Proof.
  unfold formatView.
  set (kept := map (emit_nonField cfg) _).
  destruct (groupFieldsByType cfg || sortFields cfg) eqn:E.
  - destruct (organizeViewFields_appends view ((output ++ v_header view) ++ kept))
      as (added & Ha & Hin).
    rewrite Ha. exists (kept ++ added). split; [rewrite <- !app_assoc; reflexivity|].
    intros f Hf _. apply in_or_app. right. apply Hin, Hf.
  - destruct (plain_fields_append (v_fields view) ((output ++ v_header view) ++ kept))
      as (added & Ha & Hin).
    rewrite Ha. exists (kept ++ added). split; [rewrite <- !app_assoc; reflexivity|].
    intros f Hf Hne. apply in_or_app. right.
    apply orb_false_iff in E as [E _]. unfold opening_line. rewrite E.
    apply Hin; assumption.
Qed.

Lemma format_views_cons lines view rest currentLine formattedLines :
  format_views cfg localeCompare lines (view :: rest) currentLine formattedLines =
  format_views cfg localeCompare lines rest (endLine_of view + 1)
    (formatView cfg localeCompare view
       (formattedLines ++ lines_between currentLine (v_startLine view) lines)).
Proof. reflexivity. Qed.

Lemma format_views_outside lines views : forall currentLine formattedLines,
  exists out,
    format_views cfg localeCompare lines views currentLine formattedLines =
    formattedLines ++ out /\
    outside_kept lines views currentLine out.
Proof.
  induction views as [|view views IH]; intros currentLine formattedLines.
  - exists (skipn currentLine lines). split; reflexivity.
  - rewrite format_views_cons.
    destruct (formatView_appends view
                (formattedLines ++ lines_between currentLine (v_startLine view) lines))
      as (body & E & _).
    rewrite E.
    destruct (IH (endLine_of view + 1)
                ((formattedLines ++
                  lines_between currentLine (v_startLine view) lines) ++
                 v_header view ++ body ++ v_footer view)) as (out' & E' & Hout).
    rewrite E'.
    exists (lines_between currentLine (v_startLine view) lines ++
            v_header view ++ body ++ v_footer view ++ out').
    split; [rewrite <- !app_assoc; reflexivity|].
    cbn [outside_kept]. exists body, out'. split; [reflexivity | exact Hout].
Qed.

Lemma format_views_keeps lines views : forall currentLine formattedLines x,
  In x formattedLines ->
  In x (format_views cfg localeCompare lines views currentLine formattedLines).
Proof.
  induction views as [|view views IH]; intros currentLine formattedLines x H.
  - cbn [format_views]. apply in_or_app. left. exact H.
  - rewrite format_views_cons. apply IH.
    destruct (formatView_appends view
                (formattedLines ++ lines_between currentLine (v_startLine view) lines))
      as (mid & E & _).
    rewrite E. apply in_or_app. left. apply in_or_app. left. exact H.
Qed.

Lemma format_views_fields lines views : forall currentLine formattedLines view f,
  In view views -> In f (v_fields view) -> b_content f <> [] ->
  In (opening_line cfg f)
     (format_views cfg localeCompare lines views currentLine formattedLines).
Proof.
  induction views as [|first views IH];
    intros currentLine formattedLines view f Hv Hf Hne; [contradiction Hv|].
  rewrite format_views_cons. destruct Hv as [-> | Hv].
  - apply format_views_keeps.
    destruct (formatView_appends view
                (formattedLines ++ lines_between currentLine (v_startLine view) lines))
      as (mid & E & Hin).
    rewrite E. apply in_or_app. right. apply in_or_app. right.
    apply in_or_app. left. apply Hin; assumption.
  - apply (IH _ _ view f); assumption.
Qed.

End Emitting.


(** *** The markers of the sections *)

Lemma star_takes icase p k taken rest : forall prev pos caps n,
  forallb p taken = true -> length (taken ++ rest) < n ->
  k (MState (rev taken ++ prev) rest (pos + length taken) caps) <> None ->
  rep_loop (rmatch icase (Cls p)) true k n 0
           (MState prev (taken ++ rest) pos caps) <> None.
Proof.
  induction taken as [|x taken IH]; intros prev pos caps n Hp Hn Hk;
    (destruct n as [|n]; [cbn [length] in Hn; lia|]).
  - cbn [rev app length] in Hk. rewrite Nat.add_0_r in Hk.
    cbn [rep_loop app]. destruct (rmatch _ _ _ _); [discriminate | exact Hk].
  - cbn [forallb] in Hp. apply andb_true_iff in Hp as [Hx Hp].
    cbn [rep_loop app rmatch m_rest]. rewrite Hx.
    unfold advance. cbn [m_pos m_prev m_caps].
    replace (S pos =? pos) with false by (symmetry; apply Nat.eqb_neq; lia).
    assert (H : rep_loop (rmatch icase (Cls p)) true k n 0
                  (MState (x :: prev) (taken ++ rest) (S pos) caps) <> None).
    { apply IH; [exact Hp | cbn [app length] in Hn; lia|].
      cbn [rev length] in Hk. rewrite <- app_assoc in Hk. cbn [app] in Hk.
      replace (S pos + length taken) with (pos + S (length taken)) by lia.
      exact Hk. }
    destruct (rep_loop _ _ _ _ _ _); [discriminate | contradiction H; reflexivity].
Qed.

Lemma seq_star_takes icase p r k taken rest prev pos caps :
  forallb p taken = true ->
  rmatch icase r k (MState (rev taken ++ prev) rest (pos + length taken) caps)
    <> None ->
  rmatch icase (Seq (star (Cls p)) r) k (MState prev (taken ++ rest) pos caps)
    <> None.
Proof.
  intros Hp Hk.
  change (rep_loop (rmatch icase (Cls p)) true (rmatch icase r k)
            (S (0 + length (taken ++ rest))) 0
            (MState prev (taken ++ rest) pos caps) <> None).
  apply star_takes; [exact Hp | lia | exact Hk].
Qed.

Lemma ceq_refl c : ceq c c = true.
Proof. unfold ceq. apply Ascii.eqb_refl. Qed.

Lemma lit_takes K : forall k rest prev pos caps,
  rmatch false (lit K) k (MState prev (K ++ rest) pos caps) =
  k (MState (rev K ++ prev) rest (pos + length K) caps).
Proof.
  induction K as [|a K IH]; intros k rest prev pos caps.
  - cbn [lit rmatch app rev length]. rewrite Nat.add_0_r. reflexivity.
  - destruct K as [|b K].
    + cbn [lit rmatch m_rest app rev length]. unfold char_eq.
      rewrite ceq_refl. unfold advance. cbn [m_prev m_pos m_caps].
      f_equal. f_equal. lia.
    + change (lit (a :: b :: K)) with (Seq (Chr a) (lit (b :: K))).
      cbn [rmatch m_rest app]. unfold char_eq. rewrite ceq_refl.
      unfold advance. cbn [m_prev m_pos m_caps].
      change (b :: K ++ rest) with ((b :: K) ++ rest). rewrite IH.
      f_equal. cbn [rev length]. rewrite <- !app_assoc. cbn [app].
      f_equal. lia.
Qed.

Lemma seq_lit_takes K r k rest prev pos caps :
  rmatch false r k (MState (rev K ++ prev) rest (pos + length K) caps)
    <> None ->
  rmatch false (Seq (lit K) r) k (MState prev (K ++ rest) pos caps) <> None.
Proof.
  intros H. cbn [rmatch]. rewrite lit_takes. exact H.
Qed.

(** A comment of the shape [addFieldSection] writes is taken for a
    generated one. *)
Lemma marker_recognised text :
  forallb isDot text = true ->
  isFormatterGeneratedComment ("# ----- " ++ text ++ " -----") = true.
Proof.
  intros Htext. unfold isFormatterGeneratedComment.
  change re_generated_comment
    with (Seq Bol (seqs [lit "#"; star ws; lit "-----"; star ws; star dot;
                         star ws; lit "-----"; star ws; Eol])).
  rewrite AnchoredFacts.test_anchored.
  match goal with
  | |- succeeds ?o = true =>
      assert (H : o <> None);
        [|destruct o; [reflexivity | contradiction H; reflexivity]]
  end.
  cbn [seqs].
  apply (seq_lit_takes "#" _ Some (" ----- " ++ text ++ " -----")).
  apply (seq_star_takes false isSpace _ Some " " ("-----" ++ " " ++ text ++ " -----"));
    [reflexivity|].
  apply (seq_lit_takes "-----" _ Some (" " ++ text ++ " -----")).
  apply (seq_star_takes false isSpace _ Some " " (text ++ " -----"));
    [reflexivity|].
  apply (seq_star_takes false isDot _ Some text " -----"); [exact Htext|].
  apply (seq_star_takes false isSpace _ Some " " "-----"); [reflexivity|].
  apply (seq_lit_takes "-----" _ Some []).
  apply (seq_star_takes false isSpace _ Some [] []); [reflexivity|].
  cbn [rmatch m_rest]. discriminate.
Qed.

Lemma end_of_dots text :
  forallb isDot text = true ->
  forallb isDot (list_ascii_of_string "End of " ++ text) = true.
Proof. intros H. rewrite forallb_app, H. reflexivity. Qed.

Section Markers.

Variable cfg : Config.

Lemma trim_marker n text :
  trim (ind cfg n ++ "# ----- " ++ text ++ " -----") =
  "# ----- " ++ text ++ " -----".
Proof.
  unfold trim. rewrite trimStart_app, ind_blank.
  change (trimStart (list_ascii_of_string "# ----- " ++ text ++ " -----"))
    with (list_ascii_of_string "# ----- " ++ text ++ " -----").
  unfold trimEnd.
  replace (list_ascii_of_string "# ----- " ++ text ++ " -----")
    with ((list_ascii_of_string "# ----- " ++ text ++ " ----") ++ ["-"%char])
    by (rewrite <- !app_assoc; reflexivity).
  rewrite rev_app_distr. cbn [rev app trimStart].
  change (isSpace "-") with false. cbn iota.
  change ("-"%char :: rev (list_ascii_of_string "# ----- " ++ text ++ " ----"))
    with (rev ["-"%char] ++
          rev (list_ascii_of_string "# ----- " ++ text ++ " ----")).
  rewrite <- rev_app_distr, rev_involutive. reflexivity.
Qed.

End Markers.

End FormatterFacts.

(* ================================================================== *)
(** * What the linter reports *)
(* ================================================================== *)

Module LinterFacts.

Import Js Regex Model Rules Parser Diagnostics Spec LinterShapes RegexFacts.


(** *** What a match is made of *)

Lemma follows_refl P C s : follows P C 0 s s.
Proof. exists [], []. cbn. repeat split; auto; lia. Qed.

Lemma follows_trans P C n1 n2 s1 s2 s3 :
  follows P C n1 s1 s2 -> follows P C n2 s2 s3 -> follows P C (n1 + n2) s1 s3.
Proof.
  intros (t1 & a1 & R1 & P1 & L1 & F1 & C1 & G1) (t2 & a2 & R2 & P2 & L2 & F2 & C2 & G2).
  exists (t1 ++ t2), (a2 ++ a1). rewrite length_app, <- !app_assoc, <- R2, <- C1.
  repeat split; try assumption; try lia; apply Forall_app; auto.
Qed.

Lemma follows_weaken (P P' : ascii -> Prop) (C C' : nat -> str -> Prop) n n' s s' :
  (forall x, P x -> P' x) -> (forall j v, C j v -> C' j v) -> n' <= n ->
  follows P C n s s' -> follows P' C' n' s s'.
Proof.
  intros HP HC Hn (t & a & R & Po & L & F & Ca & G).
  exists t, a. repeat split; try assumption; try lia.
  - eapply Forall_impl; [|exact F]. exact HP.
  - eapply Forall_impl; [|exact G]. intros e. apply HC.
Qed.

Lemma follows_advance (P : ascii -> Prop) C x rest s :
  m_rest s = x :: rest -> P x -> follows P C 1 s (advance x rest s).
Proof.
  intros H Hx. exists [x], []. cbn. rewrite H.
  repeat split; auto; lia.
Qed.

Lemma rep_loop_follows body greedy (P : ascii -> Prop) C n0 :
  (forall k s e, body k s = Some e ->
                 exists s', follows P C n0 s s' /\ k s' = Some e) ->
  forall n need k s e,
    rep_loop body greedy k n need s = Some e ->
    exists s', follows P C (need * n0) s s' /\ k s' = Some e.
Proof.
  intros Hbody. induction n as [| n IH]; intros need k s e H; [discriminate |].
  cbn [rep_loop] in H. destruct need as [| need].
  - assert (Hagain :
      body (fun s1 => if m_pos s1 =? m_pos s then None
                      else rep_loop body greedy k n 0 s1) s = Some e ->
      exists s', follows P C 0 s s' /\ k s' = Some e).
    { intros Ha. apply Hbody in Ha. destruct Ha as (s1 & R1 & K1).
      destruct (m_pos s1 =? m_pos s); [discriminate |].
      apply IH in K1. destruct K1 as (s2 & R2 & K2).
      exists s2. split; [| exact K2].
      apply (follows_weaken P P C C (n0 + 0)); auto; [lia|].
      eapply follows_trans; eassumption. }
    assert (Hstop : k s = Some e -> exists s', follows P C 0 s s' /\ k s' = Some e).
    { intros Hk. exists s. split; [apply follows_refl | exact Hk]. }
    destruct greedy; unfold orelse in H.
    + destruct (body _ s) eqn:E; [inversion H; subst; auto | auto].
    + destruct (k s) eqn:E; [inversion H; subst; auto | auto].
  - apply Hbody in H. destruct H as (s1 & R1 & K1).
    apply IH in K1. destruct K1 as (s2 & R2 & K2).
    exists s2. split; [| exact K2].
    cbn [Nat.mul]. eapply follows_trans; eassumption.
Qed.

Lemma rmatch_follows icase r : forall k s e,
  rmatch icase r k s = Some e ->
  exists s', follows (allowed icase r) (captured icase r) (min_length r) s s' /\
             k s' = Some e.
Proof.
  induction r as [| c | p | r1 IH1 r2 IH2 | r1 IH1 r2 IH2 | g min r1 IH1
                  | i r1 IH1 | r1 IH1 | | |];
    intros k s e H; cbn [rmatch] in H; cbn [min_length].
  - exists s. split; [apply follows_refl | exact H].
  - destruct (m_rest s) as [| x rest] eqn:E; [discriminate |].
    destruct (char_eq icase c x) eqn:Ec; [| discriminate].
    exists (advance x rest s). split; [|exact H].
    apply follows_advance; [exact E | exact Ec].
  - destruct (m_rest s) as [| x rest] eqn:E; [discriminate |].
    destruct (p x) eqn:Ep; [| discriminate].
    exists (advance x rest s). split; [|exact H].
    apply follows_advance; [exact E | exact Ep].
  - apply IH1 in H. destruct H as (s1 & R1 & K1).
    apply IH2 in K1. destruct K1 as (s2 & R2 & K2).
    exists s2. split; [| exact K2].
    eapply follows_trans; eapply follows_weaken; try eassumption;
      cbn [allowed captured]; auto.
  - unfold orelse in H. destruct (rmatch icase r1 k s) eqn:E.
    + inversion H; subst. apply IH1 in E. destruct E as (s1 & R1 & K1).
      exists s1. split; [| exact K1].
      eapply follows_weaken; try exact R1; cbn [allowed captured]; auto; lia.
    + apply IH2 in H. destruct H as (s1 & R1 & K1).
      exists s1. split; [| exact K1].
      eapply follows_weaken; try exact R1; cbn [allowed captured]; auto; lia.
  - exact (rep_loop_follows _ g _ _ _ IH1 _ _ _ _ _ H).
  - apply IH1 in H. destruct H as (s1 & R1 & K1).
    eexists. split; [| exact K1].
    destruct R1 as (t & a & R & Po & L & F & Ca & G).
    exists t, ((i, t) :: a). cbn [set_cap m_rest m_pos m_caps].
    assert (Ht : firstn (m_pos s1 - m_pos s) (m_rest s) = t).
    { rewrite R, Po. replace (m_pos s + length t - m_pos s) with (length t) by lia.
      rewrite firstn_app, Nat.sub_diag, firstn_all. cbn [firstn].
      apply app_nil_r. }
    rewrite Ht, Ca. repeat split; try assumption.
    constructor.
    + cbn [fst snd captured]. left. auto.
    + eapply Forall_impl; [|exact G]. intros en Hen. cbn [captured]. right. exact Hen.
  - destruct (rmatch icase r1 Some s) as [s1 |] eqn:E; [| discriminate].
    apply IH1 in E. destruct E as (s1' & R1 & K1). injection K1 as ->.
    eexists. split; [| exact H].
    destruct R1 as (t & a & R & Po & L & F & Ca & G).
    exists [], a. cbn [with_caps m_rest m_pos m_caps app length].
    repeat split; auto; lia.
  - destruct (m_prev s); [| discriminate].
    exists s. split; [apply follows_refl | exact H].
  - destruct (m_rest s); [| discriminate].
    exists s. split; [apply follows_refl | exact H].
  - destruct (xorb _ _); [| discriminate].
    exists s. split; [apply follows_refl | exact H].
Qed.

Lemma get_cap_In j v caps : get_cap j caps = Some v -> In (j, v) caps.
Proof.
  induction caps as [|[i w] caps IH]; [discriminate|]. cbn [get_cap].
  destruct (j =? i) eqn:E.
  - intros H. injection H as ->. apply Nat.eqb_eq in E. subst. left. reflexivity.
  - intros H. right. apply IH, H.
Qed.

Lemma match_here_of icase r prev rest pos m :
  match_here icase r prev rest pos = Some m -> match_of icase r m.
Proof.
  unfold match_here. intros H.
  destruct (rmatch icase r Some _) as [e |] eqn:E; [| discriminate].
  injection H as <-. apply rmatch_follows in E.
  destruct E as (s' & (t & a & R & Po & L & F & Ca & G) & K).
  injection K as ->. cbn [m_rest m_pos m_caps] in *.
  assert (Ht : firstn (m_pos e - pos) rest = t).
  { rewrite R, Po. replace (pos + length t - pos) with (length t) by lia.
    rewrite firstn_app, Nat.sub_diag, firstn_all. cbn [firstn].
    apply app_nil_r. }
  unfold match_of. cbn [r_text r_caps]. rewrite Ht, Ca, app_nil_r.
  repeat split; try assumption.
  intros j v Hj. apply get_cap_In in Hj.
  rewrite Forall_forall in G. exact (G _ Hj).
Qed.





(** *** Groups that every match sets *)

Lemma rep_loop_sets body greedy (S : nat -> Prop) :
  (forall k s e, body k s = Some e ->
     exists s', k s' = Some e /\ (forall i, has_cap i s -> has_cap i s') /\
                (forall j, S j -> has_cap j s')) ->
  forall n need k s e,
    rep_loop body greedy k n need s = Some e ->
    exists s', k s' = Some e /\ (forall i, has_cap i s -> has_cap i s') /\
               (0 < need -> forall j, S j -> has_cap j s').
Proof.
  intros Hbody. induction n as [| n IH]; intros need k s e H; [discriminate |].
  cbn [rep_loop] in H. destruct need as [| need].
  - assert (Hagain :
      body (fun s1 => if m_pos s1 =? m_pos s then None
                      else rep_loop body greedy k n 0 s1) s = Some e ->
      exists s', k s' = Some e /\ (forall i, has_cap i s -> has_cap i s') /\
                 (0 < 0 -> forall j, S j -> has_cap j s')).
    { intros Ha. apply Hbody in Ha. destruct Ha as (s1 & K1 & G1 & _).
      destruct (m_pos s1 =? m_pos s); [discriminate |].
      apply IH in K1. destruct K1 as (s2 & K2 & G2 & _).
      exists s2. repeat split; [exact K2 | auto | lia]. }
    assert (Hstop : k s = Some e ->
      exists s', k s' = Some e /\ (forall i, has_cap i s -> has_cap i s') /\
                 (0 < 0 -> forall j, S j -> has_cap j s')).
    { intros Hk. exists s. repeat split; [exact Hk | auto | lia]. }
    destruct greedy; unfold orelse in H.
    + destruct (body _ s) eqn:E; [inversion H; subst; auto | auto].
    + destruct (k s) eqn:E; [inversion H; subst; auto | auto].
  - apply Hbody in H. destruct H as (s1 & K1 & G1 & S1).
    apply IH in K1. destruct K1 as (s2 & K2 & G2 & _).
    exists s2. repeat split; [exact K2 | auto | auto].
Qed.

Lemma rmatch_sets icase r : forall k s e,
  rmatch icase r k s = Some e ->
  exists s', k s' = Some e /\ (forall i, has_cap i s -> has_cap i s') /\
             (forall j, sets r j = true -> has_cap j s').
Proof.
  induction r as [| c | p | r1 IH1 r2 IH2 | r1 IH1 r2 IH2 | g min r1 IH1
                  | i r1 IH1 | r1 IH1 | | |];
    intros k s e H; cbn [rmatch] in H; cbn [sets].
  - exists s. repeat split; [exact H | auto | discriminate].
  - destruct (m_rest s) as [| x rest]; [discriminate |].
    destruct (char_eq icase c x); [| discriminate].
    eexists. repeat split; [exact H | auto | discriminate].
  - destruct (m_rest s) as [| x rest]; [discriminate |].
    destruct (p x); [| discriminate].
    eexists. repeat split; [exact H | auto | discriminate].
  - apply IH1 in H. destruct H as (s1 & K1 & G1 & S1).
    apply IH2 in K1. destruct K1 as (s2 & K2 & G2 & S2).
    exists s2. repeat split; [exact K2 | auto |].
    intros j Hj. apply orb_true_iff in Hj as [Hj | Hj]; auto.
  - unfold orelse in H. destruct (rmatch icase r1 k s) eqn:E.
    + inversion H; subst. apply IH1 in E. destruct E as (s1 & K1 & G1 & S1).
      exists s1. repeat split; [exact K1 | auto |].
      intros j Hj. apply andb_true_iff in Hj as [Hj _]. auto.
    + apply IH2 in H. destruct H as (s1 & K1 & G1 & S1).
      exists s1. repeat split; [exact K1 | auto |].
      intros j Hj. apply andb_true_iff in Hj as [_ Hj]. auto.
  - destruct (rep_loop_sets (rmatch icase r1) g (fun j => sets r1 j = true)
                IH1 _ _ _ _ _ H) as (s' & K & G & S').
    exists s'. repeat split; [exact K | exact G |].
    intros j Hj. apply andb_true_iff in Hj as [Hm Hj].
    apply Nat.ltb_lt in Hm. auto.
  - apply IH1 in H. destruct H as (s1 & K1 & G1 & S1).
    eexists. repeat split; [exact K1 | |].
    + intros j Hj. unfold has_cap. cbn [set_cap m_caps get_cap].
      destruct (j =? i); [discriminate | apply G1, Hj].
    + intros j Hj. unfold has_cap. cbn [set_cap m_caps get_cap].
      destruct (j =? i) eqn:E; [discriminate|]. cbn [orb] in Hj. apply S1, Hj.
  - destruct (rmatch icase r1 Some s) as [s1 |] eqn:E; [| discriminate].
    apply IH1 in E. destruct E as (s1' & K1 & G1 & S1). injection K1 as ->.
    eexists. repeat split; [exact H | exact G1 | exact S1].
  - destruct (m_prev s); [| discriminate].
    exists s. repeat split; [exact H | auto | discriminate].
  - destruct (m_rest s); [| discriminate].
    exists s. repeat split; [exact H | auto | discriminate].
  - destruct (xorb _ _); [| discriminate].
    exists s. repeat split; [exact H | auto | discriminate].
Qed.

(** A group every match sets holds a text its pattern allows. *)
Lemma group_of icase r m j :
  (exists prev rest pos, match_here icase r prev rest pos = Some m) ->
  sets r j = true -> captured icase r j (group j m).
Proof.
  intros (prev & rest & pos & H) Hj.
  pose proof (match_here_of _ _ _ _ _ _ H) as (_ & _ & Hc).
  unfold match_here in H.
  destruct (rmatch icase r Some _) as [e |] eqn:E; [| discriminate].
  injection H as <-. apply rmatch_sets in E. destruct E as (s' & K & _ & S').
  injection K as ->. specialize (S' j Hj). unfold has_cap in S'.
  unfold group. cbn [r_caps] in *.
  destruct (get_cap j (m_caps e)) as [v|] eqn:Ev; [|contradiction S'; reflexivity].
  apply Hc, Ev.
Qed.

Lemma search_from_here icase r rest : forall prev pos m,
  search_from icase r prev rest pos = Some m ->
  exists prev' rest' pos', match_here icase r prev' rest' pos' = Some m.
Proof.
  induction rest as [| x rest IH]; intros prev pos m H; cbn [search_from] in H.
  - destruct (match_here icase r prev [] pos) eqn:E; [| discriminate].
    injection H as <-. eauto.
  - destruct (match_here icase r prev (x :: rest) pos) eqn:E.
    + injection H as <-. eauto.
    + eapply IH, H.
Qed.

Lemma exec_loop_here icase r : forall n prev rest pos ms,
  exec_loop icase r n prev rest pos = Some ms ->
  Forall (fun m => exists prev' rest' pos',
                     match_here icase r prev' rest' pos' = Some m) ms.
Proof.
  induction n as [|n IH]; intros prev rest pos ms H; [discriminate|].
  cbn [exec_loop] in H.
  destruct (search_from icase r prev rest pos) as [m|] eqn:E.
  - destruct (r_end m =? pos); [discriminate|].
    destruct (exec_loop icase r n _ _ _) as [ms'|] eqn:E'; [|discriminate].
    injection H as <-. constructor; [eapply search_from_here, E | eapply IH, E'].
  - injection H as <-. constructor.
Qed.



(** *** The names the fallback parser reads *)

Lemma captured_lit icase s : forall j v, captured icase (lit s) j v -> False.
Proof.
  induction s as [|c s IH]; intros j v H; [exact H|].
  destruct s as [|d s]; [exact H|].
  change (lit (c :: d :: s)) with (Seq (Chr c) (lit (d :: s))) in H.
  cbn [captured] in H. destruct H as [[] | H]. eapply IH, H.
Qed.

Lemma sets_lit s : forall j, sets (lit s) j = false.
Proof.
  induction s as [|c s IH]; intros j; [reflexivity|].
  destruct s as [|d s]; [reflexivity|].
  change (lit (c :: d :: s)) with (Seq (Chr c) (lit (d :: s))).
  cbn [sets]. apply IH.
Qed.

Lemma identifier_of_word_run icase v :
  Forall (allowed icase (plus word)) v -> min_length (plus word) <= length v ->
  identifier v.
Proof.
  intros H Hl. split; [destruct v; [cbn in Hl; lia | discriminate] | exact H].
Qed.

Ltac name_group H :=
  repeat match type of H with
         | _ \/ _ => destruct H as [H | H]
         | False => contradiction H
         | captured _ (lit _) _ _ => exfalso; exact (captured_lit _ _ _ _ H)
         | _ = _ /\ _ =>
             let Heq := fresh in
             destruct H as (Heq & H & ?); try discriminate Heq; clear Heq
         end.

Lemma declaration_regex_name kind m :
  (exists prev rest pos,
      match_here false (declaration_regex kind) prev rest pos = Some m) ->
  identifier (group 1 m).
Proof.
  intros H. apply (group_of _ _ _ 1) in H.
  - unfold declaration_regex, until_next_declaration in H.
    unfold plus, star, lazy_star, ws, any, word in H.
    cbn [seqs alts captured] in H. name_group H;
      try (eapply identifier_of_word_run; eassumption);
      try discriminate.
  - unfold declaration_regex. cbn [seqs sets]. rewrite sets_lit. reflexivity.
Qed.

Lemma fieldRegex_name fieldType m :
  (exists prev rest pos,
      match_here false (fieldRegex fieldType) prev rest pos = Some m) ->
  identifier (group 1 m).
Proof.
  intros H. apply (group_of _ _ _ 1) in H.
  - unfold fieldRegex in H.
    unfold plus, star, lazy_star, ws, any, word in H.
    cbn [seqs alts captured] in H. name_group H;
      try (eapply identifier_of_word_run; eassumption);
      try discriminate.
  - unfold fieldRegex. cbn [seqs sets]. rewrite sets_lit. reflexivity.
Qed.

Lemma joinRegex_name m :
  (exists prev rest pos, match_here false joinRegex prev rest pos = Some m) ->
  identifier (group 1 m).
Proof.
  intros H. apply (group_of _ _ _ 1) in H.
  - unfold joinRegex in H.
    unfold plus, star, lazy_star, ws, any, word in H.
    cbn [seqs alts captured] in H. name_group H;
      try (eapply identifier_of_word_run; eassumption);
      try discriminate.
  - reflexivity.
Qed.

Lemma obj_replace_Forall {A : Type} (Q : str * A -> Prop) k v (o : obj A) :
  Forall Q o -> Q (k, v) -> Forall Q (obj_replace k v o).
Proof.
  intros H Hk. induction H as [|[k' v'] o Hq Ho IH]; [constructor|].
  cbn [obj_replace]. destruct (seq_eqb k k') eqn:E.
  - apply RulesFacts.seq_eqb_eq in E. subst k'. constructor; assumption.
  - constructor; assumption.
Qed.

Lemma obj_insert_index_Forall {A : Type} (Q : str * A -> Prop) n k v (o : obj A) :
  Forall Q o -> Q (k, v) -> Forall Q (obj_insert_index n k v o).
Proof.
  intros H Hk. induction H as [|[k' v'] o Hq Ho IH]; [repeat constructor; exact Hk|].
  cbn [obj_insert_index]. destruct (array_index k').
  - destruct (N.ltb n n0); repeat constructor; assumption.
  - repeat constructor; assumption.
Qed.

Lemma obj_store_Forall {A : Type} (Q : str * A -> Prop) k v (o : obj A) :
  Forall Q o -> Q (k, v) -> Forall Q (obj_store k v o).
Proof.
  intros H Hk. unfold obj_store. destruct (obj_get k o).
  - apply obj_replace_Forall; assumption.
  - destruct (array_index k).
    + apply obj_insert_index_Forall; assumption.
    + apply Forall_app. split; [exact H | repeat constructor; exact Hk].
Qed.

Lemma obj_get_None {A : Type} k (o : obj A) :
  obj_get k o = None -> ~ In k (map fst o).
Proof.
  induction o as [|[k' v'] o IH]; intros H; [intros []|].
  cbn [obj_get] in H. destruct (seq_eqb k k') eqn:E; [discriminate|].
  cbn [map fst In]. intros [<- | Hin]; [|exact (IH H Hin)].
  rewrite RulesFacts.seq_eqb_refl in E. discriminate.
Qed.

Lemma obj_replace_keys {A : Type} k v (o : obj A) :
  map fst (obj_replace k v o) = map fst o.
Proof.
  induction o as [|[k' v'] o IH]; [reflexivity|].
  cbn [obj_replace]. destruct (seq_eqb k k'); cbn [map fst]; [reflexivity|].
  rewrite IH. reflexivity.
Qed.

Lemma obj_insert_index_keys {A : Type} n k v (o : obj A) x :
  In x (map fst (obj_insert_index n k v o)) -> x = k \/ In x (map fst o).
Proof.
  induction o as [|[k' v'] o IH]; cbn [obj_insert_index map fst In].
  - intros [<- | []]. left. reflexivity.
  - destruct (array_index k') as [n'|]; [destruct (N.ltb n n')|];
      cbn [map fst In]; intros H.
    + destruct H as [<- | H]; auto.
    + destruct H as [<- | H]; [auto|]. destruct (IH H); auto.
    + destruct H as [<- | H]; auto.
Qed.

Lemma obj_insert_index_NoDup {A : Type} n k v (o : obj A) :
  NoDup (map fst o) -> ~ In k (map fst o) ->
  NoDup (map fst (obj_insert_index n k v o)).
Proof.
  induction o as [|[k' v'] o IH]; intros Hd Hk.
  - cbn. constructor; [intros [] | constructor].
  - cbn [obj_insert_index].
    destruct (array_index k') as [n'|]; [destruct (N.ltb n n')|].
    + cbn [map fst]. constructor; assumption.
    + cbn [map fst] in *. inversion Hd as [|? ? Hn Hd']; subst.
      constructor.
      * intros Hin. apply obj_insert_index_keys in Hin as [-> | Hin];
          [apply Hk; left; reflexivity | exact (Hn Hin)].
      * apply IH; [exact Hd'|]. intros Hin. apply Hk. right. exact Hin.
    + cbn [map fst]. constructor; assumption.
Qed.

Lemma obj_store_named {A : Type} (name_of : A -> option str) (P : A -> Prop)
      k v (o : obj A) :
  named name_of P o -> identifier k -> name_of v = Some k -> P v ->
  named name_of P (obj_store k v o).
Proof.
  intros (Hd & Ho) Hk Hn Hp. split.
  - unfold obj_store. destruct (obj_get k o) eqn:E.
    + rewrite obj_replace_keys. exact Hd.
    + apply obj_get_None in E. destruct (array_index k).
      * apply obj_insert_index_NoDup; assumption.
      * rewrite map_app. cbn [map fst].
        apply NoDup_app; [exact Hd | constructor; [intros [] | constructor] |].
        intros x Hx [<- | []]. exact (E Hx).
  - apply obj_store_Forall; [exact Ho|]. cbn [fst snd]. auto.
Qed.

Lemma obj_get_map {A B : Type} (value : A -> B) k (o : obj A) :
  obj_get k (map (fun entry => (fst entry, value (snd entry))) o) =
  option_map value (obj_get k o).
Proof.
  induction o as [|[k' v'] o IH]; [reflexivity|].
  cbn [map obj_get fst snd]. destruct (seq_eqb k k'); [reflexivity | exact IH].
Qed.

Lemma obj_replace_map {A B : Type} (value : A -> B) k v (o : obj A) :
  map (fun entry => (fst entry, value (snd entry))) (obj_replace k v o) =
  obj_replace k (value v) (map (fun entry => (fst entry, value (snd entry))) o).
Proof.
  induction o as [|[k' v'] o IH]; [reflexivity|].
  cbn [map obj_replace fst snd]. destruct (seq_eqb k k'); cbn [map fst snd];
    [reflexivity | rewrite IH; reflexivity].
Qed.

Lemma obj_insert_index_map {A B : Type} (value : A -> B) n k v (o : obj A) :
  map (fun entry => (fst entry, value (snd entry))) (obj_insert_index n k v o) =
  obj_insert_index n k (value v)
    (map (fun entry => (fst entry, value (snd entry))) o).
Proof.
  induction o as [|[k' v'] o IH]; [reflexivity|].
  cbn [map obj_insert_index fst snd].
  destruct (array_index k') as [n'|]; [destruct (N.ltb n n')|];
    cbn [map fst snd]; [reflexivity | rewrite IH; reflexivity | reflexivity].
Qed.

Lemma obj_store_map {A B : Type} (value : A -> B) k v (o : obj A) :
  map (fun entry => (fst entry, value (snd entry))) (obj_store k v o) =
  obj_store k (value v) (map (fun entry => (fst entry, value (snd entry))) o).
Proof.
  unfold obj_store. rewrite obj_get_map.
  destruct (obj_get k o); cbn [option_map].
  - apply obj_replace_map.
  - destruct (array_index k).
    + apply obj_insert_index_map.
    + rewrite map_app. reflexivity.
Qed.

(** The entries of an object after an assignment: those it had when the
    key is [__proto__], and else those with the value stored. *)
Lemma entries_obj_set {A B : Type} (value : A -> B) k v (o : dict A) :
  entries value (obj_set k v o) =
  if seq_eqb k "__proto__" then entries value o
  else obj_store k (value v) (entries value o).
Proof.
  unfold obj_set, entries. destruct (seq_eqb k "__proto__"); cbn [own];
    [reflexivity | apply obj_store_map].
Qed.

Lemma obj_set_named {A B : Type} (value : A -> B) (name_of : B -> option str)
      (P : B -> Prop) k v (o : dict A) :
  named name_of P (entries value o) -> identifier k ->
  name_of (value v) = Some k -> P (value v) ->
  named name_of P (entries value (obj_set k v o)).
Proof.
  intros Ho Hk Hn Hp. rewrite entries_obj_set.
  destruct (seq_eqb k "__proto__"); [exact Ho|].
  apply obj_store_named; assumption.
Qed.

Lemma named_nil {A : Type} (name_of : A -> option str) (P : A -> Prop) :
  named name_of P [].
Proof. split; constructor. Qed.

Lemma fold_left_invariant {A S : Type} (G : A -> Prop) (Inv : S -> Prop)
      (body : A -> S -> S) :
  (forall x st, G x -> Inv st -> Inv (body x st)) ->
  forall l st, Forall G l -> Inv st -> Inv (fold_left (fun st x => body x st) l st).
Proof.
  intros Hb. induction l as [|x l IH]; intros st Hl Hst; [exact Hst|].
  inversion Hl; subst. cbn [fold_left]. apply IH; auto.
Qed.

Lemma fold_opt_invariant {A S : Type} (G : A -> Prop) (Inv : S -> Prop)
      (body : A -> S -> option S) :
  (forall x st st', G x -> Inv st -> body x st = Some st' -> Inv st') ->
  forall l st st', Forall G l -> Inv st -> fold_opt body l st = Some st' -> Inv st'.
Proof.
  intros Hb. induction l as [|x l IH]; intros st st' Hl Hst H; cbn [fold_opt] in H.
  - injection H as <-. exact Hst.
  - inversion Hl; subst. unfold bind in H.
    destruct (body x st) as [st1|] eqn:E; [|discriminate].
    apply (IH st1 st'); [assumption | | exact H].
    apply (Hb x st st1); assumption.
Qed.

Lemma extractFields_named content fieldType fields :
  extractFields content fieldType = Some fields ->
  named f_name (fun _ => True) (entries (fun field => field) fields).
Proof.
  unfold extractFields, for_each_exec, bind.
  destruct (exec_all false (fieldRegex fieldType) content) as [ms|] eqn:E;
    [|discriminate].
  intros H. injection H as <-.
  apply exec_loop_here in E.
  apply (fold_left_invariant
           (fun m => exists prev rest pos,
                       match_here false (fieldRegex fieldType) prev rest pos = Some m)
           (fun fields =>
              named f_name (fun _ => True) (entries (fun field => field) fields)));
    [| exact E | apply named_nil].
  intros m st Hm Hst. apply obj_set_named; [exact Hst | | reflexivity | exact I].
  apply (fieldRegex_name fieldType m Hm).
Qed.

Lemma extractJoins_named content joins :
  extractJoins content = Some joins ->
  named j_name (fun _ => True) (entries (fun join => join) joins).
Proof.
  unfold extractJoins, for_each_exec, bind.
  destruct (exec_all false joinRegex content) as [ms|] eqn:E; [|discriminate].
  intros H. injection H as <-.
  apply exec_loop_here in E.
  apply (fold_left_invariant
           (fun m => exists prev rest pos,
                       match_here false joinRegex prev rest pos = Some m)
           (fun joins =>
              named j_name (fun _ => True) (entries (fun join => join) joins)));
    [| exact E | apply named_nil].
  intros m st Hm Hst. apply obj_set_named; [exact Hst | | reflexivity | exact I].
  apply (joinRegex_name m Hm).
Qed.

Lemma extractViews_named content result result' :
  well_named (entries_of result) -> extractViews content result = Some result' ->
  well_named (entries_of result').
Proof.
  unfold extractViews, bind. intros Hw.
  destruct (exec_all false viewRegex content) as [ms|] eqn:E; [|discriminate].
  apply exec_loop_here in E.
  apply (fold_opt_invariant
           (fun m => exists prev rest pos,
                       match_here false viewRegex prev rest pos = Some m)
           (fun result => well_named (entries_of result))); [| exact E | exact Hw].
  clear. intros m st st' Hm Hst H.
  unfold extract_view, bind in H.
  destruct (extractFields (group 2 m) "dimension") as [ds|] eqn:E1; [|discriminate].
  destruct (extractFields (group 2 m) "dimension_group") as [dgs|] eqn:E2;
    [|discriminate].
  destruct (extractFields (group 2 m) "measure") as [ms|] eqn:E3; [|discriminate].
  destruct (extractFields (group 2 m) "filter") as [fs|] eqn:E4; [|discriminate].
  injection H as <-. unfold store_view.
  destruct (s_views st) as [vs|] eqn:Ev; [|exact Hst].
  revert Hst. unfold well_named, entries_of.
  cbn [views explores models s_views s_explores s_models]. rewrite Ev.
  cbn [option_map or_empty]. intros (Hv & He & Hmo).
  split; [|split; assumption].
  apply obj_set_named;
    [exact Hv | apply (declaration_regex_name "view" m Hm) | reflexivity |].
  unfold view_entries.
  cbn [dimensions dimension_groups measures filters v_dimensions
       v_dimension_groups v_measures v_filters].
  unfold fields_named. cbn [or_empty].
  repeat split; eapply extractFields_named; eassumption.
Qed.

Lemma extractExplores_named content result result' :
  well_named (entries_of result) -> extractExplores content result = Some result' ->
  well_named (entries_of result').
Proof.
  unfold extractExplores, bind. intros Hw.
  destruct (exec_all false exploreRegex content) as [ms|] eqn:E; [|discriminate].
  apply exec_loop_here in E.
  apply (fold_opt_invariant
           (fun m => exists prev rest pos,
                       match_here false exploreRegex prev rest pos = Some m)
           (fun result => well_named (entries_of result))); [| exact E | exact Hw].
  clear. intros m st st' Hm Hst H. unfold bind in H.
  destruct (extractJoins (group 2 m)) as [js|] eqn:E1; [|discriminate].
  injection H as <-. unfold store_explore.
  destruct (s_explores st) as [es|] eqn:Ee; [|exact Hst].
  revert Hst. unfold well_named, entries_of.
  cbn [views explores models s_views s_explores s_models]. rewrite Ee.
  cbn [option_map or_empty]. intros (Hv & He & Hmo).
  split; [assumption|]. split; [|assumption].
  apply obj_set_named;
    [exact He | apply (declaration_regex_name "explore" m Hm) | reflexivity |].
  unfold explore_entries. cbn [joins x_joins or_empty].
  eapply extractJoins_named; eassumption.
Qed.

Lemma extractModels_named content result result' :
  well_named (entries_of result) -> extractModels content result = Some result' ->
  well_named (entries_of result').
Proof.
  unfold extractModels, for_each_exec, bind. intros Hw.
  destruct (exec_all false modelRegex content) as [ms|] eqn:E; [|discriminate].
  intros H. injection H as <-.
  apply exec_loop_here in E.
  apply (fold_left_invariant
           (fun m => exists prev rest pos,
                       match_here false modelRegex prev rest pos = Some m)
           (fun result => well_named (entries_of result))); [| exact E | exact Hw].
  clear. intros m st Hm Hst. unfold store_model.
  destruct (s_models st) as [mo|] eqn:Em; [|exact Hst].
  revert Hst. unfold well_named, entries_of.
  cbn [views explores models s_views s_explores s_models]. rewrite Em.
  cbn [option_map or_empty]. intros (Hv & He & Hmo).
  split; [assumption|]. split; [assumption|].
  apply obj_set_named; [exact Hmo | | reflexivity | exact I].
  apply (declaration_regex_name "model" m Hm).
Qed.

Lemma parseLookMLSync_named content result :
  parseLookMLSync content = Some result -> well_named (entries_of result).
Proof.
  unfold parseLookMLSync, bind.
  destruct (extractViews content _) as [r1|] eqn:E1; [|discriminate].
  destruct (extractExplores content r1) as [r2|] eqn:E2; [|discriminate].
  intros E3.
  eapply extractModels_named; [|exact E3].
  eapply extractExplores_named; [|exact E2].
  eapply extractViews_named; [|exact E1].
  repeat split; constructor.
Qed.



(** *** What the rules report *)

Lemma k1_expected_shape lookml viewName view v :
  In (viewName, view) (or_empty (views lookml)) ->
  In v (k1_expected viewName view) ->
  severity v = ("warning" : str) /\ located lookml (path v).
Proof.
  intros Hview. unfold k1_expected. destruct (has_table view); [|intros []].
  unfold primary_key_names.
  destruct (map fst (filter _ (or_empty (dimensions view)))) as [|n names] eqn:E.
  - intros [<- | []]. split; [reflexivity|].
    exact (located_view lookml viewName view Hview).
  - intros H. apply in_map_iff in H as (d & <- & H).
    split; [reflexivity|]. apply filter_In in H as [H _].
    rewrite <- E in H. apply in_map_iff in H as (entry & <- & H).
    apply filter_In in H as [H _].
    apply (located_dimension lookml viewName view (fst entry) Hview).
    apply in_map, H.
Qed.

Lemma f1_expected_shape lookml viewName view v :
  In (viewName, view) (or_empty (views lookml)) ->
  In v (f1_expected viewName view) ->
  severity v = ("warning" : str) /\ located lookml (path v).
Proof.
  intros Hview. unfold f1_expected. destruct (has_table view); [|intros []].
  assert (Hf : forall fieldType fields,
             In (fieldType, fields) (field_kinds view) ->
             In v (f1_fields_expected viewName fieldType fields) ->
             severity v = ("warning" : str) /\ located lookml (path v)).
  { intros fieldType fields Hk H. unfold f1_fields_expected in H.
    apply in_flat_map in H as (entry & He & H). unfold f1_field_expected in H.
    apply in_app_or in H as [H | H]; apply in_map_iff in H as (r & <- & _);
      (split; [reflexivity|]); cbn [path f1_sql f1_html];
      apply (located_property lookml viewName view fieldType fields (fst entry)
               _ Hview Hk (in_map fst _ _ He)); cbn; auto. }
  intros H. repeat (apply in_app_or in H as [H | H]);
    (eapply Hf; [|exact H]); cbn; auto 6.
Qed.

Lemma e1_expected_shape lookml exploreName explore v :
  In (exploreName, explore) (or_empty (explores lookml)) ->
  In v (e1_expected exploreName explore) ->
  severity v = ("warning" : str) /\ located lookml (path v).
Proof.
  intros Hexplore. unfold e1_expected. intros H.
  apply in_flat_map in H as (entry & He & H).
  unfold e1_join_expected in H. apply in_map_iff in H as (r & <- & _).
  split; [reflexivity|].
  exact (located_join lookml exploreName explore (fst entry) Hexplore
           (in_map fst _ _ He)).
Qed.

Lemma applyRules_shape lookml enabledRuleIds v :
  In v (applyRules lookml enabledRuleIds) ->
  severity v = ("warning" : str) /\ located lookml (path v) /\
  In (ruleId v) enabledRuleIds /\
  In (ruleId v) (strs ["k1"; "e1"; "f1"]%string).
Proof.
  unfold applyRules. rewrite RulesFacts.applyRulesIn_spec. intros H.
  apply in_flat_map in H as (ruleName & Hname & H).
  pose proof (RulesFacts.contribution_ruleId lookml ruleName v H) as Hid.
  assert (Hshape : severity v = ("warning" : str) /\ located lookml (path v) /\
                   In ruleName (strs ["k1"; "e1"; "f1"]%string)).
  { unfold contribution in H. destruct (ALL_RULES ruleName) as [rule| |] eqn:Er;
      try contradiction H.
    apply RulesFacts.ALL_RULES_rule in Er.
    destruct Er as [[-> ->] | [[-> ->] | [-> ->]]]; cbn [check k1 e1 f1] in H.
    - rewrite RulesFacts.checkPrimaryKeys_spec in H.
      apply in_flat_map in H as ([viewName view] & He & H).
      apply (k1_expected_shape lookml) in H as (Hs & Hp); [|exact He].
      repeat split; [exact Hs | exact Hp | cbn; auto].
    - rewrite RulesFacts.checkJoinReferences_spec in H.
      apply in_flat_map in H as ([exploreName explore] & He & H).
      apply (e1_expected_shape lookml) in H as (Hs & Hp); [|exact He].
      repeat split; [exact Hs | exact Hp | cbn; auto].
    - rewrite RulesFacts.checkCrossViewReferences_spec in H.
      apply in_flat_map in H as ([viewName view] & He & H).
      apply (f1_expected_shape lookml) in H as (Hs & Hp); [|exact He].
      repeat split; [exact Hs | exact Hp | cbn; auto]. }
  destruct Hshape as (Hs & Hp & Hk). rewrite Hid. auto.
Qed.

(** *** Paths into a model with proper names *)

Lemma named_key {A : Type} (name_of : A -> option str) P (o : obj A) k :
  named name_of P o -> In k (map fst o) -> identifier k.
Proof.
  unfold named. rewrite Forall_forall. intros (_ & H) Hin.
  apply in_map_iff in Hin as (entry & <- & Hin). apply (H entry Hin).
Qed.

Lemma named_value {A : Type} (name_of : A -> option str) P (o : obj A) k x :
  named name_of P o -> In (k, x) o -> identifier k /\ P x.
Proof.
  unfold named. rewrite Forall_forall. intros (_ & H) Hin.
  destruct (H (k, x) Hin) as (Hk & _ & Hp). auto.
Qed.

Lemma identifier_text (s : string) :
  s <> EmptyString ->
  forallb isWord (list_ascii_of_string s) = true ->
  identifier (list_ascii_of_string s).
Proof.
  intros Hs H. split.
  - destruct s; [contradiction Hs; reflexivity | discriminate].
  - apply Forall_forall. apply forallb_forall. exact H.
Qed.

Lemma identifier_word (name : str) :
  name <> [] -> forallb isWord name = true -> identifier name.
Proof.
  intros Hs H. split; [exact Hs|].
  apply Forall_forall. apply forallb_forall. exact H.
Qed.

Lemma located_identifiers lookml path :
  well_named lookml -> located lookml path -> Forall identifier path.
Proof.
  intros (Hviews & Hexplores & _) H.
  assert (Hword : forall s : string,
             s <> EmptyString ->
             forallb isWord (list_ascii_of_string s) = true ->
             identifier (s : str)) by exact identifier_text.
  destruct H as [viewName view Hv | viewName view dimName Hv Hd
                | viewName view fieldType fields fieldName property Hv Hk Hf Hp
                | exploreName explore joinName He Hj].
  - apply (named_value _ _ _ _ _ Hviews) in Hv as (Hn & _).
    repeat (first [apply Forall_nil | apply Forall_cons]); [apply Hword; [discriminate | reflexivity] | exact Hn].
  - apply (named_value _ _ _ _ _ Hviews) in Hv as (Hn & Hds & _).
    repeat (first [apply Forall_nil | apply Forall_cons]);
      [apply Hword; [discriminate | reflexivity] | exact Hn
      | apply Hword; [discriminate | reflexivity]
      | exact (named_key _ _ _ _ Hds Hd)].
  - apply (named_value _ _ _ _ _ Hviews) in Hv as (Hn & Hds & Hgs & Hms & Hfs).
    assert (Hkind : identifier (fieldType ++ "s") /\ fields_named fields).
    { cbn [field_kinds In] in Hk.
      destruct Hk as [Hk | [Hk | [Hk | [Hk | []]]]]; inversion Hk; subst;
        (split; [apply identifier_word; [cbn; discriminate | reflexivity]
                | assumption]). }
    destruct Hkind as (Hkind & Hfields).
    assert (Hprop : identifier property).
    { cbn [strs map In] in Hp. destruct Hp as [<- | [<- | []]];
        apply Hword; (discriminate || reflexivity). }
    repeat (first [apply Forall_nil | apply Forall_cons]);
      [apply Hword; [discriminate | reflexivity] | exact Hn | exact Hkind
      | exact (named_key _ _ _ _ Hfields Hf) | exact Hprop].
  - apply (named_value _ _ _ _ _ Hexplores) in He as (Hn & Hjs).
    repeat (first [apply Forall_nil | apply Forall_cons]);
      [apply Hword; [discriminate | reflexivity] | exact Hn
      | apply Hword; [discriminate | reflexivity]
      | exact (named_key _ _ _ _ Hjs Hj)
      | apply Hword; [discriminate | reflexivity]].
Qed.

(** *** The line of a violation *)

Lemma split_char_nonempty c s : forall cur, split_char c cur s <> [].
Proof.
  induction s as [|x s IH]; intros cur; cbn [split_char]; [discriminate|].
  destruct (ceq x c); [discriminate | apply IH].
Qed.

Lemma last_snoc {A : Type} (l : list A) x d : last (l ++ [x]) d = x.
Proof.
  induction l as [|y l IH]; [reflexivity|].
  cbn [app]. destruct (l ++ [x]) eqn:E; [destruct l; discriminate E|].
  exact IH.
Qed.

(** The loop returns line 0 or a line that one of the patterns matches. *)
Lemma find_lines_matched patterns all lines : forall pre currentDepth matches,
  all = pre ++ lines ->
  (forall m, In m matches ->
     m < length pre /\
     exists pattern, In pattern patterns /\
                     test false pattern (nth m all []) = true) ->
  let r := find_lines patterns lines (length pre) currentDepth matches in
  r = 0 \/
  (r < length all /\
   exists pattern, In pattern patterns /\
                   test false pattern (nth r all []) = true).
Proof.
  induction lines as [|line lines IH]; intros pre currentDepth matches Hall Hm;
    cbn zeta; cbn [find_lines].
  - destruct matches as [|m matches]; [left; reflexivity|]. right. cbn [hd].
    destruct (Hm m (or_introl eq_refl)) as (Hlt & Hp).
    split; [|exact Hp]. rewrite Hall, length_app. lia.
  - assert (Hall' : all = (pre ++ [line]) ++ lines)
      by (rewrite <- app_assoc; exact Hall).
    assert (Hlen : length (pre ++ [line]) = S (length pre))
      by (rewrite length_app; cbn [length]; lia).
    assert (Hm' : forall m, In m matches ->
               m < length (pre ++ [line]) /\
               exists pattern, In pattern patterns /\
                               test false pattern (nth m all []) = true).
    { intros m Hin. destruct (Hm m Hin) as (Hlt & Hp). split; [lia | exact Hp]. }
    destruct (nth_error patterns currentDepth) as [pattern|] eqn:Ep;
      [|left; reflexivity].
    destruct (test false pattern line) eqn:Et.
    + assert (Hnew : length pre < length all /\
                 exists pattern, In pattern patterns /\
                     test false pattern (nth (length pre) all []) = true).
      { split; [rewrite Hall, length_app; cbn [length]; lia|].
        exists pattern. split; [eapply nth_error_In; exact Ep|].
        rewrite Hall, nth_middle. exact Et. }
      destruct (length patterns <=? S currentDepth).
      * right. rewrite last_snoc. exact Hnew.
      * rewrite <- Hlen. apply IH; [exact Hall'|].
        intros m Hin. apply in_app_or in Hin as [Hin | [<- | []]];
          [apply Hm', Hin|]. split; [lia | apply Hnew].
    + rewrite <- Hlen. apply IH; assumption.
Qed.

Lemma declarationPattern_identifier kind name :
  Forall (fun c => isWord c = true) name ->
  exists pattern, declarationPattern kind name = Some pattern.
Proof.
  intros H. unfold declarationPattern.
  replace (forallb isWord name) with true; [eexists; reflexivity|].
  symmetry. apply forallb_forall. apply Forall_forall. exact H.
Qed.

Lemma memberPattern_identifier members rest :
  Forall identifier rest ->
  exists patterns, memberPattern members rest = Some patterns.
Proof.
  intros H. unfold memberPattern.
  destruct rest as [|p2 [|p3 rest]]; try (eexists; reflexivity).
  destruct (find _ members) as [m|]; [|eexists; reflexivity].
  inversion H as [|? ? _ H']; subst. inversion H' as [|? ? (_ & H3) _]; subst.
  destruct (declarationPattern_identifier (snd m) p3 H3) as (p & ->).
  eexists; reflexivity.
Qed.

Lemma pathPatterns_identifier path :
  Forall identifier path ->
  exists patterns, pathPatterns path = Some patterns.
Proof.
  intros H. unfold pathPatterns.
  destruct path as [|p0 [|p1 rest]]; try (eexists; reflexivity).
  inversion H as [|? ? _ H']; subst. inversion H' as [|? ? (_ & H1) Hrest]; subst.
  destruct (seq_eqb p0 "views").
  { destruct (declarationPattern_identifier "view" p1 H1) as (p & ->).
    cbn [bind].
    destruct (memberPattern_identifier
                [("dimensions", "dimension"); ("measures", "measure");
                 ("filters", "filter")]%string rest Hrest) as (ps & ->).
    eexists; reflexivity. }
  destruct (seq_eqb p0 "explores"); [|eexists; reflexivity].
  destruct (declarationPattern_identifier "explore" p1 H1) as (p & ->).
  cbn [bind].
  destruct (memberPattern_identifier [("joins", "join")]%string rest Hrest)
    as (ps & ->).
  eexists; reflexivity.
Qed.

Lemma findLineByPath_matched text path :
  Forall identifier path ->
  exists patterns r,
    pathPatterns path = Some patterns /\
    findLineByPath text path = Some r /\
    r < length (split_char nl [] text) /\
    (r = 0 \/
     exists pattern, In pattern patterns /\
                     test false pattern (nth r (split_char nl [] text) []) = true).
Proof.
  intros Hpath. destruct (pathPatterns_identifier path Hpath) as (patterns & E).
  exists patterns. unfold findLineByPath. rewrite E. cbn [bind].
  eexists. split; [reflexivity|]. split; [reflexivity|].
  assert (Hpos : 0 < length (split_char nl [] text)).
  { destruct (split_char nl [] text) eqn:El; [|cbn; lia].
    exfalso. exact (split_char_nonempty _ _ _ El). }
  destruct (0 <? length patterns); [|auto].
  destruct (find_lines_matched patterns (split_char nl [] text)
              (split_char nl [] text) [] 0 [] eq_refl) as [H | (Hlt & Hp)].
  - intros m [].
  - cbn zeta in H. cbn [length] in H. rewrite H. auto.
  - cbn [length] in *. auto.
Qed.

(** *** The diagnostics *)

Lemma map_opt_Forall2 {A B : Type} (f : A -> option B) (R : A -> B -> Prop) l :
  (forall x, In x l -> exists y, f x = Some y /\ R x y) ->
  exists ys, map_opt f l = Some ys /\ Forall2 R l ys.
Proof.
  induction l as [|x l IH]; intros H.
  - exists []. split; [reflexivity | constructor].
  - destruct (H x (or_introl eq_refl)) as (y & Ey & Hy).
    destruct IH as (ys & Eys & Hys); [intros z Hz; apply H; right; exact Hz|].
    exists (y :: ys). cbn [map_opt]. rewrite Ey, Eys.
    split; [reflexivity | constructor; assumption].
Qed.

Section Reported.

Variable lineCount : nat.
Variable lineAt : nat -> str.

Lemma createDiagnostic_shape text violation :
  Forall identifier (path violation) ->
  exists d,
    createDiagnosticFromViolation lineCount lineAt text violation = Some d /\
    reports violation d /\ on_line lineCount lineAt text d.
Proof.
  intros Hpath. unfold createDiagnosticFromViolation.
  assert (Hline : exists line,
             match path violation with
             | [] => Some 0
             | _ :: _ => findLineByPath text (path violation)
             end = Some line /\ line < length (split_char nl [] text)).
  { destruct (path violation) as [|p rest] eqn:Ep.
    - exists 0. split; [reflexivity|].
      destruct (split_char nl [] text) eqn:El; [|cbn; lia].
      exfalso. exact (split_char_nonempty _ _ _ El).
    - destruct (findLineByPath_matched text (p :: rest) Hpath)
        as (patterns & r & _ & E & Hlt & _).
      exists r. split; assumption. }
  destruct Hline as (line & -> & Hlt). cbn [bind].
  eexists. split; [reflexivity|]. unfold reports, on_line.
  cbn [d_message d_code d_severity d_source d_startLine d_endLine
       d_startCharacter d_endCharacter].
  repeat split. exact Hlt.
Qed.

Lemma diagnostics_shape text parsedLookML enabledRules :
  well_named parsedLookML ->
  exists diagnostics,
    processRulesAndCreateDiagnostics lineCount lineAt text parsedLookML
      enabledRules = Some diagnostics /\
    Forall2 (fun v d => reports v d /\ d_severity d = Warning /\
                        on_line lineCount lineAt text d)
            (applyRules parsedLookML enabledRules) diagnostics.
Proof.
  intros Hnamed. unfold processRulesAndCreateDiagnostics.
  apply map_opt_Forall2. intros v Hv.
  apply applyRules_shape in Hv as (Hs & Hp & _).
  destruct (createDiagnostic_shape text v
              (located_identifiers parsedLookML (path v) Hnamed Hp))
    as (d & E & Hr & Hl).
  exists d. repeat split; try assumption; try apply Hr; try apply Hl.
  destruct Hr as (_ & _ & -> & _). rewrite Hs. reflexivity.
Qed.

End Reported.

End LinterFacts.


(* ================================================================== *)
(** * Further properties of the formatter *)
(* ================================================================== *)

Module FormatterProperties.

Import Js Regex Formatter Spec FormatterShapes.
Import RegexFacts NormalizerFacts FormatterFacts.

(** X1.  [formatSqlKeywords] changes white space and letter case only:
    the characters of its result other than white space are those of the
    line, letter case apart, and the result has the words of the line,
    one for one, each as it was or in upper case. *)
Theorem formatSqlKeywords_keeps_the_text line :
  visible (formatSqlKeywords line) = visible line /\
  same_words line (formatSqlKeywords line).
Proof.
  rewrite formatSqlKeywords_spec. split.
  - apply normalize_sql_visible.
  - apply normalize_sql_words.
Qed.

(** X2.  [formatSqlWithLookMLVars] changes white space and letter case
    only, in the same sense. *)
Theorem formatSqlWithLookMLVars_keeps_the_text line :
  visible (formatSqlWithLookMLVars line) = visible line /\
  same_words line (formatSqlWithLookMLVars line).
Proof.
  rewrite formatSqlWithLookMLVars_spec. split.
  - apply keywords_pass_visible, lookmlVarKeywords_all_ok.
  - apply keywords_pass_words, lookmlVarKeywords_all_ok.
Qed.

(** X3.  [formatLines] works line by line: it returns as many lines as
    it is given, the empty line for a line of white space only, and a
    line with something other than white space for any other line. *)
Theorem formatLines_line_for_line cfg lines :
  length (formatLines cfg lines) = length lines /\
  Forall2 line_kept lines (formatLines cfg lines).
Proof.
  pose proof (formatLines_line_by_line cfg lines) as H. split.
  - symmetry. exact (Forall2_length H).
  - exact H.
Qed.

(** X4.  [formatBlockOpener] applied to its own result changes
    nothing. *)
Theorem formatBlockOpener_twice line :
  formatBlockOpener (formatBlockOpener line) = formatBlockOpener line.
Proof.
  unfold formatBlockOpener at 2 3.
  destruct (indexOf line ":") as [i|] eqn:E.
  - destruct (formatBlockOpener_shape line i E
                (trim (substringFrom (i + 1) line))) as (H1 & H2 & H3).
    unfold formatBlockOpener. rewrite H1, H2, H3, trim_idem. reflexivity.
  - unfold formatBlockOpener. rewrite E. reflexivity.
Qed.

(** X5.  [formatLookMLProperty] applied to its own result changes
    nothing. *)
Theorem formatLookMLProperty_twice line :
  formatLookMLProperty (formatLookMLProperty line) = formatLookMLProperty line.
Proof.
  rewrite (formatLookMLProperty_spaced line).
  destruct (indexOf line ":") as [i|] eqn:E.
  - destruct (formatBlockOpener_shape line i E
                (spaced_terminator (trim (substringFrom (i + 1) line))))
      as (H1 & H2 & H3).
    rewrite formatLookMLProperty_spaced, H1, H2, H3.
    rewrite spaced_terminator_twice by apply trim_idem. reflexivity.
  - rewrite formatLookMLProperty_spaced, E. reflexivity.
Qed.

(** X6.  The views [parseViews] returns lie one after the other in the
    document: each has an end line, after its start line, the line it
    starts on for header and the line it ends on for footer; the next
    view starts after that end line; and the last end line is a line of
    the document. *)
Theorem parseViews_views_in_order cfg lines :
  view_ranges lines 0 (parseViews cfg lines) (length lines).
Proof.
  unfold parseViews. apply view_ranges_resolve.
  apply (parse_lines_ranges cfg lines lines [] p_init 0 eq_refl).
  - cbn. lia.
  - cbn. lia.
Qed.

(** X7.  A document none of whose lines opens a view is formatted by
    [formatLines] alone, whatever the settings for grouping and sorting
    are. *)
Theorem document_without_view cfg localeCompare text :
  Forall (fun line => opens_view line = false) (split_lines [] text) ->
  formatText cfg localeCompare text =
  join [nl] (formatLines cfg (split_lines [] text)).
Proof.
  intros H. unfold formatText.
  destruct (negb (groupFieldsByType cfg) && negb (sortFields cfg));
    [reflexivity|].
  unfold formatWithAdvancedOptions.
  rewrite (parseViews_no_view cfg _ H). reflexivity.
Qed.

Lemma document_without_view_witness :
  let text : str := "explore: orders {
join: users {
}
}" in
  Forall (fun line => opens_view line = false) (split_lines [] text) /\
  formatText grouped_and_sorted codeUnitCompare text =
  join [nl] (formatLines grouped_and_sorted (split_lines [] text)).
Proof.
  intros text.
  assert (Hb : forallb (fun line => negb (opens_view line))
                       (split_lines [] text) = true)
    by (vm_compute; reflexivity).
  assert (H : Forall (fun line => opens_view line = false) (split_lines [] text)).
  { apply Forall_forall. intros line Hin.
    apply negb_true_iff. exact (proj1 (forallb_forall _ _) Hb line Hin). }
  split; [exact H|].
  exact (document_without_view grouped_and_sorted codeUnitCompare text H).
Defined.

(** X8.  Of a document with views, [formatWithAdvancedOptions] copies
    the lines outside the views as they stand: the lines before the
    first view, the lines between two views and the lines after the last
    one; and what it writes for a view starts with the header of the
    view and ends with its footer. *)
Theorem lines_outside_the_views_are_kept cfg localeCompare lines :
  parseViews cfg lines <> [] ->
  outside_kept lines (parseViews cfg lines) 0
               (formatWithAdvancedOptions cfg localeCompare lines).
Proof.
  intros H. unfold formatWithAdvancedOptions.
  destruct (format_views_outside cfg localeCompare lines (parseViews cfg lines)
              0 []) as (out & E & Hout).
  destruct (parseViews cfg lines) as [|first rest] eqn:Ev;
    [contradiction H; reflexivity|].
  rewrite E. exact Hout.
Qed.

Lemma lines_outside_the_views_are_kept_witness :
  let lines := split_lines [] "# orders of the shop
view: orders {
dimension: id {
}
}
# the end" in
  parseViews grouped_and_sorted lines <> [] /\
  outside_kept lines (parseViews grouped_and_sorted lines) 0
               (formatWithAdvancedOptions grouped_and_sorted codeUnitCompare
                  lines).
Proof.
  intros lines.
  assert (H : parseViews grouped_and_sorted lines <> [])
    by (vm_compute; discriminate).
  split; [exact H|].
  exact (lines_outside_the_views_are_kept grouped_and_sorted codeUnitCompare
           lines H).
Defined.

(** X9.  No field of a view is lost.  A field [parseViews] has put into
    a view is of a field type and was opened by a line of the document;
    the first line it keeps is that line with its opener formatted, and
    [formatWithAdvancedOptions] writes this line to its result (indented
    anew when fields are grouped). *)
Theorem fields_of_views_are_written cfg localeCompare lines view field :
  In view (parseViews cfg lines) -> In field (v_fields view) ->
  proper_field cfg lines field /\
  In (opening_line cfg field)
     (formatWithAdvancedOptions cfg localeCompare lines).
Proof.
  intros Hv Hf.
  pose proof (parseViews_proper cfg lines view field Hv Hf) as Hp.
  split; [exact Hp|].
  unfold formatWithAdvancedOptions.
  destruct (parseViews cfg lines) as [|first rest] eqn:E; [contradiction Hv|].
  apply (format_views_fields cfg localeCompare lines (first :: rest) 0 []
           view field Hv Hf).
  destruct Hp as (_ & line & more & raw & _ & _ & _ & _ & Hc).
  rewrite Hc. discriminate.
Qed.

Lemma fields_of_views_are_written_witness :
  let lines := split_lines [] measure_then_dimension in
  exists view field,
    In view (parseViews grouped_and_sorted lines) /\
    In field (v_fields view) /\
    proper_field grouped_and_sorted lines field /\
    In (opening_line grouped_and_sorted field)
       (formatWithAdvancedOptions grouped_and_sorted codeUnitCompare lines).
Proof.
  intros lines.
  assert (H : exists view field,
             In view (parseViews grouped_and_sorted lines) /\
             In field (v_fields view)).
  { vm_compute. eexists. eexists. split; [left; reflexivity|].
    cbn. left. reflexivity. }
  destruct H as (view & field & Hv & Hf). exists view, field.
  split; [exact Hv|]. split; [exact Hf|].
  exact (fields_of_views_are_written grouped_and_sorted codeUnitCompare lines
           view field Hv Hf).
Defined.

(** X10.  The markers [addFieldSection] writes around a section are
    taken for generated comments by [isFormatterGeneratedComment] when
    they are read back and trimmed, for every section name without a
    line break. *)
Theorem section_markers_are_recognised cfg indentLevel sectionName :
  forallb isDot sectionName = true ->
  isFormatterGeneratedComment
    (trim (ind cfg indentLevel ++ "# ----- " ++ sectionName ++ " -----")) = true /\
  isFormatterGeneratedComment
    (trim (ind cfg indentLevel ++ "# ----- End of " ++ sectionName ++ " -----"))
  = true.
Proof.
  intros H. split.
  - rewrite trim_marker. apply marker_recognised, H.
  - change (list_ascii_of_string "# ----- End of " ++ sectionName ++ " -----")
      with (list_ascii_of_string "# ----- " ++
            (list_ascii_of_string "End of " ++ sectionName) ++ " -----").
    rewrite trim_marker. apply marker_recognised, end_of_dots, H.
Qed.

Lemma section_markers_are_recognised_witness :
  forallb isDot "Dimensions" = true /\
  isFormatterGeneratedComment
    (trim (ind grouped_and_sorted 1 ++ "# ----- " ++ "Dimensions" ++ " -----"))
  = true /\
  isFormatterGeneratedComment
    (trim (ind grouped_and_sorted 1 ++
           "# ----- End of " ++ "Dimensions" ++ " -----")) = true.
Proof.
  split; [reflexivity|].
  exact (section_markers_are_recognised grouped_and_sorted 1 "Dimensions"
           eq_refl).
Defined.

(** X17.  [formatLines] reads its lines up to the white space around
    them: two lists of lines that are the same once every line is
    trimmed are formatted into the same lines, so the indentation of the
    input has no part in the result. *)
Theorem formatLines_ignores_indentation cfg lines lines' :
  map trim lines = map trim lines' ->
  formatLines cfg lines = formatLines cfg lines'.
Proof.
  assert (Hline : forall line st,
             format_line cfg line st = format_line cfg (trim line) st).
  { intros line st. unfold format_line. rewrite trim_idem. reflexivity. }
  assert (Hfold : forall l st,
             fold_left (fun st line => format_line cfg line st) l st =
             fold_left (fun st line => format_line cfg line st) (map trim l) st).
  { induction l as [|line l IH]; intros st; [reflexivity|].
    cbn [fold_left map]. rewrite <- Hline. apply IH. }
  intros H. unfold formatLines. rewrite (Hfold lines), (Hfold lines'), H.
  reflexivity.
Qed.

Lemma formatLines_ignores_indentation_witness :
  let lines : list str := ["view: orders {" : str; "      label: x" : str; "}" : str] in
  let lines' : list str := ["  view: orders {  " : str; "label: x" : str; "    }" : str] in
  map trim lines = map trim lines' /\
  formatLines grouped_and_sorted lines = formatLines grouped_and_sorted lines'.
Proof.
  intros lines lines'.
  assert (H : map trim lines = map trim lines') by reflexivity.
  split; [exact H|].
  exact (formatLines_ignores_indentation grouped_and_sorted lines lines' H).
Defined.

End FormatterProperties.

(* ================================================================== *)
(** * Further properties of the linter *)
(* ================================================================== *)

Module LinterProperties.

Import Js Regex Model Rules Parser Diagnostics Spec LinterShapes.
Import RegexFacts ParserFacts LinterFacts.

(** X11.  Every violation [applyRules] returns is a warning of one of
    the three rules, and its path names a place of the model it was
    given: a view, a dimension of a view, the [sql] or [html] of a field
    of a view, or the [sql_on] of a join of an explore. *)
Theorem violations_point_into_the_model lookml enabledRuleIds :
  Forall (fun v => severity v = ("warning" : str) /\
                   located lookml (path v) /\
                   In (ruleId v) (strs ["k1"; "e1"; "f1"]%string))
         (applyRules lookml enabledRuleIds).
Proof.
  apply Forall_forall. intros v H.
  destruct (applyRules_shape lookml enabledRuleIds v H) as (Hs & Hp & _ & Hk).
  auto.
Qed.

(** X12.  The fallback parser returns on every text, and the entries
    of the objects it returns are well named: views, explores, models,
    fields and joins are entries under names of word characters, one at
    least, no two under the same name, and each carries the name it is
    an entry of.  A declaration of the name [__proto__] gives no entry:
    after [view: __proto__ { }] the views have no entry and that view as
    their prototype. *)
Theorem fallback_parser_names content :
  (exists result,
      parseLookMLSync content = Some result /\
      well_named (entries_of result)) /\
  (exists view,
      option_map s_views (parseLookMLSync "view: __proto__ { }") =
      Some (Some {| own := []; prototype := Some view |}) /\
      v_name view = ("__proto__" : str)).
Proof.
  split.
  - destruct (parseLookMLSync_total content) as (result & H & _).
    exists result. split; [exact H|].
    exact (parseLookMLSync_named content result H).
  - eexists. split; [vm_compute; reflexivity | reflexivity].
Qed.

(** X13.  On a well named model the paths of the violations are made of
    names of word characters only, so that each name stands for itself
    in the patterns [findLineByPath] builds from a path. *)
Theorem paths_of_violations_are_names lookml enabledRuleIds :
  well_named lookml ->
  Forall (fun v => Forall identifier (path v))
         (applyRules lookml enabledRuleIds).
Proof.
  intros Hnamed. apply Forall_forall. intros v H.
  destruct (applyRules_shape lookml enabledRuleIds v H) as (_ & Hp & _).
  exact (located_identifiers lookml (path v) Hnamed Hp).
Qed.

Lemma view_with_primary_key_named : well_named (view_with_primary_key "id").
Proof.
  assert (Hid : forall s : string,
             s <> EmptyString ->
             forallb isWord (list_ascii_of_string s) = true ->
             identifier (s : str)) by exact identifier_text.
  assert (Hone : forall (A : Type) (name_of : A -> option str) (P : A -> Prop)
                        (s : string) (x : A),
             s <> EmptyString ->
             forallb isWord (list_ascii_of_string s) = true ->
             name_of x = Some (s : str) -> P x ->
             named name_of P [(s : str, x)]).
  { intros A name_of P s x Hs Hw Hn Hp. split.
    - constructor; [intros [] | constructor].
    - constructor; [|constructor]. cbn [fst snd]. auto. }
  unfold well_named, view_with_primary_key.
  cbn [views explores models or_empty].
  split; [|split; apply named_nil].
  apply Hone; [discriminate | reflexivity | reflexivity|].
  cbn [dimensions dimension_groups measures filters]. unfold fields_named.
  cbn [or_empty].
  split; [|split; [|split]]; try apply named_nil.
  apply Hone; [discriminate | reflexivity | reflexivity | exact I].
Qed.

Lemma paths_of_violations_are_names_witness :
  well_named (view_with_primary_key "id") /\
  Forall (fun v => Forall identifier (path v))
         (applyRules (view_with_primary_key "id") (strs ["k1"]%string)).
Proof.
  split; [exact view_with_primary_key_named|].
  exact (paths_of_violations_are_names (view_with_primary_key "id")
           (strs ["k1"]%string) view_with_primary_key_named).
Defined.

(** X14.  For a path of names of word characters [findLineByPath]
    returns a line of the text: line 0, or a line on which one of the
    patterns built from the path is found. *)
Theorem line_of_a_path text path :
  Forall identifier path ->
  exists patterns line,
    pathPatterns path = Some patterns /\
    findLineByPath text path = Some line /\
    line < length (split_char nl [] text) /\
    (line = 0 \/
     exists pattern,
       In pattern patterns /\
       test false pattern (nth line (split_char nl [] text) []) = true).
Proof.
  intros H.
  destruct (findLineByPath_matched text path H)
    as (patterns & line & Hp & Hl & Hlt & Hm).
  exists patterns, line. auto.
Qed.

Lemma users_id_path_named :
  Forall identifier (strs ["views"; "users"; "dimensions"; "id"]%string).
Proof.
  repeat constructor; try discriminate.
Qed.

Lemma line_of_a_path_witness :
  let text : str := "view: users {
  dimension: id {
  }
}" in
  let path := strs ["views"; "users"; "dimensions"; "id"]%string in
  Forall identifier path /\
  exists patterns line,
    pathPatterns path = Some patterns /\
    findLineByPath text path = Some line /\
    line < length (split_char nl [] text) /\
    (line = 0 \/
     exists pattern,
       In pattern patterns /\
       test false pattern (nth line (split_char nl [] text) []) = true).
Proof.
  intros text path. split; [exact users_id_path_named|].
  exact (line_of_a_path text path users_id_path_named).
Defined.

Section Reports.

Variable lineCount : nat.
Variable lineAt : nat -> str.

(** X15.  For a well named model [processRulesAndCreateDiagnostics]
    returns one diagnostic for each violation of [applyRules], in the
    same order: with the message and the rule of the violation, of
    severity Warning, from the source [LookML Linter], and ranging over
    the whole of one line, which is a line of the text. *)
Theorem one_diagnostic_for_each_violation text parsedLookML enabledRules :
  well_named parsedLookML ->
  exists diagnostics,
    processRulesAndCreateDiagnostics lineCount lineAt text parsedLookML
      enabledRules = Some diagnostics /\
    Forall2 (fun v d => reports v d /\ d_severity d = Warning /\
                        on_line lineCount lineAt text d)
            (applyRules parsedLookML enabledRules) diagnostics.
Proof.
  intros H.
  destruct (diagnostics_shape lineCount lineAt text parsedLookML enabledRules H)
    as (diagnostics & E & Hd).
  exists diagnostics. split; assumption.
Qed.

(** X16.  When [parseLookML] gives no model and the fallback parser
    has replaced no prototype (no declaration it reads is named
    [__proto__]), [getLookMLDiagnostics] returns the diagnostics of the
    violations of the entries the fallback parser returns, one for each,
    in the same order. *)
Theorem diagnostics_of_the_fallback_model
        (parseLookML : str -> option ParsedLookML) content fallbackData
        enabledRules disabledRules :
  parseLookML content = None ->
  parseLookMLSync content = Some fallbackData ->
  plain fallbackData = true ->
  exists diagnostics,
    getLookMLDiagnostics lineCount lineAt parseLookML content
      enabledRules disabledRules = Some diagnostics /\
    Forall2 (fun v d => reports v d /\ d_severity d = Warning /\
                        on_line lineCount lineAt content d)
            (applyRules (entries_of fallbackData)
                        (activeRules enabledRules disabledRules))
            diagnostics.
Proof.
  intros Hnone Hp Hplain.
  pose proof (parseLookMLSync_named content fallbackData Hp) as Hnamed.
  destruct (diagnostics_shape lineCount lineAt content (entries_of fallbackData)
              (activeRules enabledRules disabledRules) Hnamed)
    as (diagnostics & E & Hd).
  exists diagnostics. split; [|exact Hd].
  unfold getLookMLDiagnostics, fallback. rewrite Hnone, Hp. cbn [bind].
  rewrite Hplain. exact E.
Qed.

End Reports.

Lemma one_diagnostic_for_each_violation_witness :
  let text : str := "view: users {
  dimension: id {
  }
}" in
  let lines := split_char nl [] text in
  well_named (view_with_primary_key "id") /\
  exists diagnostics,
    processRulesAndCreateDiagnostics (length lines) (fun n => nth n lines [])
      text (view_with_primary_key "id") (strs ["k1"]%string) = Some diagnostics /\
    Forall2 (fun v d => reports v d /\ d_severity d = Warning /\
                        on_line (length lines) (fun n => nth n lines []) text d)
            (applyRules (view_with_primary_key "id") (strs ["k1"]%string))
            diagnostics.
Proof.
  intros text lines. split; [exact view_with_primary_key_named|].
  exact (one_diagnostic_for_each_violation (length lines)
           (fun n => nth n lines []) text (view_with_primary_key "id")
           (strs ["k1"]%string) view_with_primary_key_named).
Defined.

Lemma diagnostics_of_the_fallback_model_witness :
  let content : str := "view: users {
  sql_table_name: public.users ;;
  dimension: id {
    primary_key: yes
  }
}" in
  let lines := split_char nl [] content in
  exists fallbackData,
    parseLookMLSync content = Some fallbackData /\
    plain fallbackData = true /\
    exists diagnostics,
      getLookMLDiagnostics (length lines) (fun n => nth n lines [])
        (fun _ => None) content (strs ["k1"; "e1"; "f1"]%string) [] =
        Some diagnostics /\
      Forall2 (fun v d => reports v d /\ d_severity d = Warning /\
                          on_line (length lines) (fun n => nth n lines [])
                                  content d)
              (applyRules (entries_of fallbackData)
                 (activeRules (strs ["k1"; "e1"; "f1"]%string) []))
              diagnostics.
Proof.
  intros content lines.
  destruct (parseLookMLSync content) as [fallbackData|] eqn:Hp;
    [|vm_compute in Hp; discriminate Hp].
  assert (Hplain : plain fallbackData = true).
  { vm_compute in Hp. injection Hp as <-. vm_compute. reflexivity. }
  exists fallbackData. split; [reflexivity|]. split; [exact Hplain|].
  exact (diagnostics_of_the_fallback_model (length lines)
           (fun n => nth n lines []) (fun _ => None) content fallbackData
           (strs ["k1"; "e1"; "f1"]%string) [] eq_refl Hp Hplain).
Defined.

End LinterProperties.
